(** * simple-creature: population lifecycle and creature topology

    A shallow embedding of the TypeScript sources
    [src/Creature.ts], [src/SimulationController.ts] and [src/World.ts].

    Conventions of the embedding.
    - A JavaScript [number] that carries a quantity (a position, a time
      span, a random draw) is a rational [Q]; comparisons and [Math.max]
      are exact on finite numbers, so they are the ones of [Q].
      [Date.now()] returns integral milliseconds and is a [Z].
    - matter-js [Body] objects are shared between a creature, the physics
      world and the engine.  They live in a store indexed by handles; the
      wrappers of the sources keep handles, never copies.
    - [Math.random()], [new] and [World.add] are effects.  They are threaded
      through a state-and-exception monad [M]; an exception is the
      [TypeError] JavaScript raises when a property of [undefined] is read.
    - Objects compared with [===] carry the handle they were allocated at.
    - [Math.sqrt], [Math.cos], [Math.sin] and [Math.PI] round in floating
      point and [Engine.update] belongs to matter-js: they are parameters.

    [src/World.ts] is present in two versions; the one embedded is the
    first, which keeps [creatureMaxDistances] and rebuilds the bins at each
    update.

    The file has three parts: the embedding of the sources, the vocabulary
    of the properties, and the properties with their proofs. *)

(** * The sources *)

From Stdlib Require Import List Bool Arith ZArith QArith Qround Qminmax Qabs.
From Stdlib Require Import Lia Lqa.
From Stdlib Require Import Permutation Sorted.
From Equations Require Import Equations.
From Equations.Prop Require Import Logic.
Import ListNotations.

Set Implicit Arguments.
Close Scope Q_scope.

(** ** JavaScript library functions used by the sources *)

Module JS.

Definition number := Q.

(** [Math.floor]. *)
Definition Math_floor (x : Q) : Z := Qfloor x.

(** [Math.max(a, ...xs)]: at least one argument. *)
Definition Math_max_from (a : Q) (xs : list Q) : Q := fold_left Qmax xs a.

(** [Math.max(...xs)]: [None] stands for [-Infinity], the value on no
    argument. *)
Definition Math_max (xs : list Q) : option Q :=
  match xs with
  | [] => None
  | x :: rest => Some (Math_max_from x rest)
  end.

(** [x ?? d] on an optional field. *)
Definition nullish {A} (x : option A) (d : A) : A :=
  match x with Some v => v | None => d end.

(** [a < b], [a >= b] on numbers. *)
Definition lt (a b : Q) : bool := negb (Qle_bool b a).
Definition ge (a b : Q) : bool := Qle_bool b a.

(** [Array.prototype.sort(cmp)] is stable; with a comparator that is a
    consistent ordering the result is the one of a stable insertion sort:
    [x] goes before [y] unless [cmp x y > 0]. *)
Section Sort.
Context {A : Type} (cmp : A -> A -> Q).

Fixpoint insert (x : A) (l : list A) : list A :=
    match l with
    | [] => [x]
    | y :: ys => if Qle_bool (cmp x y) 0 then x :: l else y :: insert x ys
    end.

Definition sort (l : list A) : list A := fold_right insert [] l.
End Sort.

(** [arr[i]]: [None] is [undefined]. *)
Definition at_ {A} (l : list A) (i : Z) : option A :=
  if (i <? 0)%Z then None else nth_error l (Z.to_nat i).

(** [arr.reduce(f)] without an initial value; [None] on the empty array,
    where JavaScript throws. *)
Definition reduce {A} (f : A -> A -> A) (l : list A) : option A :=
  match l with
  | [] => None
  | a :: rest => Some (fold_left f rest a)
  end.

(** The functions of [Math] that round in floating point; they are kept
    abstract. *)
Record MathLib := {
  Math_sqrt : Q -> Q;
  Math_cos : Q -> Q;
  Math_sin : Q -> Q;
  Math_PI : Q
}.

(** [arr.slice(0, n)]. *)
Definition slice0 {A} (n : nat) (l : list A) : list A := firstn n l.

(** [Map<K, V>]: insertion ordered, keys compared by [keq]
    (SameValueZero). *)
Definition Map (K V : Type) := list (K * V).

Section Map.
Context {K V : Type} (keq : K -> K -> bool).

Fixpoint get (m : Map K V) (k : K) : option V :=
    match m with
    | [] => None
    | (k', v) :: rest => if keq k k' then Some v else get rest k
    end.

Fixpoint set (m : Map K V) (k : K) (v : V) : Map K V :=
    match m with
    | [] => [(k, v)]
    | (k', v') :: rest =>
        if keq k k' then (k', v) :: rest else (k', v') :: set rest k v
    end.

Fixpoint delete (m : Map K V) (k : K) : Map K V :=
    match m with
    | [] => []
    | (k', v') :: rest =>
        if keq k k' then rest else (k', v') :: delete rest k
    end.
End Map.

(** [Set<K>]. *)
Definition SetOf (K : Type) := list K.

Section SetOf.
Context {K : Type} (keq : K -> K -> bool).

Definition set_add (s : SetOf K) (k : K) : SetOf K :=
    if existsb (keq k) s then s else s ++ [k].

Definition set_delete (s : SetOf K) (k : K) : SetOf K :=
    filter (fun k' => negb (keq k k')) s.
End SetOf.

End JS.

(** ** matter-js bodies and the shared store *)

Module Matter.

Record Vector := { x : Q; y : Q }.

(** The fields of a [Body] that the sources read or write, and those
    [Body.setAngularVelocity] writes. *)
Record Body := {
  position : Vector;
  velocity : Vector;
  angle : Q;
  anglePrev : Q;
  angularVelocity : Q;
  angularSpeed : Q;
  isStatic : bool
}.

(** Handles of [Body] objects. *)
Definition handle := nat.

(** The bodies allocated so far; [store h] is the current state of the
    body with handle [h]. *)
Definition Store := handle -> Body.

Definition write (st : Store) (h : handle) (b : Body) : Store :=
  fun h' => if Nat.eqb h' h then b else st h'.

(** [Bodies.circle(x, y, ...)]: a body at rest at the given place. *)
Definition circle (px py : Q) : Body :=
  {| position := {| x := px; y := py |};
     velocity := {| x := 0; y := 0 |};
     angle := 0;
     anglePrev := 0;
     angularVelocity := 0;
     angularSpeed := 0;
     isStatic := false |}.

(** [Body.setAngularVelocity(body, v)], of matter-js:
    [body.anglePrev = body.angle - v; body.angularVelocity = v;
     body.angularSpeed = Math.abs(v)]. *)
Definition setAngularVelocity (b : Body) (v : Q) : Body :=
  {| position := position b; velocity := velocity b;
     angle := angle b;
     anglePrev := (angle b - v)%Q;
     angularVelocity := v;
     angularSpeed := Qabs v;
     isStatic := isStatic b |}.

(** [Constraint.create({bodyA, bodyB, length, stiffness})]; [cid] is the
    handle of the constraint object. *)
Record Constraint := {
  cid : nat;
  bodyA : option handle;
  bodyB : option handle;
  length : Q;
  cstiffness : Q
}.

End Matter.

(** ** src/types.ts and src/Creature.ts *)

Module Creature.
Import Matter.

Inductive ActivationType := periodic | onGroundContact.

Record MuscleConfig := {
  restLength : Q;
  stiffness : Q;
  activationType : ActivationType;
  period : option Q;
  extensionFactor : option Q
}.

(** [PhysicsBody]: a wrapper around one freshly created body; the wrapper
    and its body are allocated together, so the handle identifies both. *)
Record PhysicsBody := { body : handle }.

Record Muscle := {
  constraint : Constraint;
  config : MuscleConfig;
  timer : Q;
  active : bool
}.

Definition with_length (c : Constraint) (l : Q) : Constraint :=
  {| cid := cid c; bodyA := bodyA c; bodyB := bodyB c;
     length := l; cstiffness := cstiffness c |}.

(** [Muscle.update(delta, groundY)]: the activation step. *)
Definition activate (st : Store) (delta groundY : Q) (m : Muscle)
  : Q * bool :=
  match activationType (config m) with
  | periodic =>
      let t := (timer m + delta)%Q in
      if JS.ge t (JS.nullish (period (config m)) 1000%Q)
      then (0%Q, negb (active m))
      else (t, active m)
  | onGroundContact =>
      match bodyA (constraint m), bodyB (constraint m) with
      | Some A, Some B =>
          if JS.ge (y (position (st A))) groundY
             || JS.ge (y (position (st B))) groundY
          then (timer m, negb (active m))
          else (timer m, active m)
      | _, _ => (timer m, active m)
      end
  end.

Definition Muscle_update (st : Store) (delta groundY : Q) (m : Muscle)
  : Muscle :=
  let '(t, a) := activate st delta groundY m in
  let target :=
    if a
    then (restLength (config m) * JS.nullish (extensionFactor (config m)) (3 # 2))%Q
    else restLength (config m) in
  {| constraint := with_length (constraint m) target;
     config := config m;
     timer := t;
     active := a |}.

(** [Creature]; [addr] is the identity of the object ([===]). *)
Record Creature := {
  addr : nat;
  bodies : list PhysicsBody;
  muscles : list Muscle;
  bornAt : Z;
  maxX : Q;
  id : Q
}.

Definition xs_of (st : Store) (bs : list PhysicsBody) : list Q :=
  map (fun b => x (position (st (body b)))) bs.

(** [Creature.update(delta, groundY)]. *)
Definition Creature_update (st : Store) (delta groundY : Q) (c : Creature)
  : Creature :=
  {| addr := addr c;
     bodies := bodies c;
     muscles := map (Muscle_update st delta groundY) (muscles c);
     bornAt := bornAt c;
     maxX := JS.Math_max_from (maxX c) (xs_of st (bodies c));
     id := id c |}.

(** A creature driven through successive frames; the engine may have moved
    the bodies between two of them, so each frame comes with its store. *)
Definition frame := (Store * Q * Q)%type.

Definition Creature_updates (fs : list frame) (c : Creature) : Creature :=
  fold_left (fun c '(st, delta, groundY) => Creature_update st delta groundY c)
            fs c.

(** [n] updates of one muscle with the same [delta], the states after each
    update in order. *)
Fixpoint Muscle_trace (st : Store) (delta groundY : Q) (n : nat) (m : Muscle)
  : list Muscle :=
  match n with
  | O => []
  | S k => let m' := Muscle_update st delta groundY m in
           m' :: Muscle_trace st delta groundY k m'
  end.

End Creature.


(** ** Effects: allocation, the engine's world, random draws, the clock *)

Module Eff.
Import Matter.

Record Env := {
  store : Store;
  nextBody : handle;
  nextConstraint : nat;
  nextObject : nat;
  worldBodies : list handle;
  worldConstraints : list nat;
  random : nat -> Q;
  drawn : nat;
  clock : Z
}.

Definition with_store (e : Env) (st : Store) : Env :=
  {| store := st; nextBody := nextBody e; nextConstraint := nextConstraint e;
     nextObject := nextObject e; worldBodies := worldBodies e;
     worldConstraints := worldConstraints e; random := random e;
     drawn := drawn e; clock := clock e |}.

Definition with_clock (e : Env) (t : Z) : Env :=
  {| store := store e; nextBody := nextBody e;
     nextConstraint := nextConstraint e;
     nextObject := nextObject e; worldBodies := worldBodies e;
     worldConstraints := worldConstraints e; random := random e;
     drawn := drawn e; clock := t |}.

Definition with_world (e : Env) (bs : list handle) (cs : list nat) : Env :=
  {| store := store e; nextBody := nextBody e;
     nextConstraint := nextConstraint e;
     nextObject := nextObject e; worldBodies := bs;
     worldConstraints := cs; random := random e;
     drawn := drawn e; clock := clock e |}.

(** A computation: it may read and change the environment, and it may
    throw ([None]). *)
Definition M (A : Type) := Env -> option (A * Env).

Definition ret {A} (a : A) : M A := fun e => Some (a, e).

Definition bind {A B} (m : M A) (f : A -> M B) : M B :=
  fun e => match m e with
           | Some (a, e') => f a e'
           | None => None
           end.

Definition throw {A} : M A := fun _ => None.

Definition gets {A} (f : Env -> A) : M A := fun e => Some (f e, e).

Declare Scope eff_scope.
Delimit Scope eff_scope with eff.
Notation "x <- c ;; k" := (bind c (fun x => k))
  (at level 61, c at next level, right associativity) : eff_scope.
Open Scope eff_scope.

(** A [for] loop that pushes one value per round. *)
Fixpoint mapM {A B} (f : A -> M B) (l : list A) : M (list B) :=
  match l with
  | [] => ret []
  | a :: rest => b <- f a ;; bs <- mapM f rest ;; ret (b :: bs)
  end.

(** [forEach] over an array with a loop-carried state. *)
Fixpoint foldM {A S} (f : S -> A -> M S) (l : list A) (s : S) : M S :=
  match l with
  | [] => ret s
  | a :: rest => s' <- f s a ;; foldM f rest s'
  end.

(** [Math.random()]. *)
Definition Math_random : M Q :=
  fun e =>
    Some (random e (drawn e),
          {| store := store e; nextBody := nextBody e;
             nextConstraint := nextConstraint e;
             nextObject := nextObject e; worldBodies := worldBodies e;
             worldConstraints := worldConstraints e; random := random e;
             drawn := S (drawn e); clock := clock e |}).

(** [Date.now()]. *)
Definition Date_now : M Z := gets clock.

(** [Bodies.circle(x, y, ...)] followed by [World.add(world, body)]. *)
Definition addCircle (px py : Q) : M handle :=
  fun e =>
    let h := nextBody e in
    Some (h,
          {| store := write (store e) h (circle px py); nextBody := S h;
             nextConstraint := nextConstraint e;
             nextObject := nextObject e;
             worldBodies := worldBodies e ++ [h];
             worldConstraints := worldConstraints e; random := random e;
             drawn := drawn e; clock := clock e |}).

(** [Constraint.create(...)] followed by [World.add(world, constraint)]. *)
Definition addConstraint (a b : handle) (len stiff : Q) : M Constraint :=
  fun e =>
    let c := nextConstraint e in
    Some ({| cid := c; bodyA := Some a; bodyB := Some b;
             length := len; cstiffness := stiff |},
          {| store := store e; nextBody := nextBody e;
             nextConstraint := S c;
             nextObject := nextObject e;
             worldBodies := worldBodies e;
             worldConstraints := worldConstraints e ++ [c];
             random := random e;
             drawn := drawn e; clock := clock e |}).

(** The address of a new object. *)
Definition newObject : M nat :=
  fun e =>
    Some (nextObject e,
          {| store := store e; nextBody := nextBody e;
             nextConstraint := nextConstraint e;
             nextObject := S (nextObject e);
             worldBodies := worldBodies e;
             worldConstraints := worldConstraints e; random := random e;
             drawn := drawn e; clock := clock e |}).

End Eff.

(** ** src/SimulationController.ts: [CreatureGenerator] *)

Module Generator.
Import Matter Creature Eff.

Record VisualConfig := {
  width : Q;
  height : Q;
  groundY : Q;
  bodyRadius : Q
}.

(** [new PhysicsBody(world, x, y, radius, options)]. *)
Definition new_PhysicsBody (px py : Q) : M PhysicsBody :=
  h <- addCircle px py ;; ret {| body := h |}.

(** [new Muscle(world, a, b, config)]. *)
Definition new_Muscle (a b : PhysicsBody) (cf : MuscleConfig) : M Muscle :=
  c <- addConstraint (body a) (body b) (restLength cf) (stiffness cf) ;;
  ret {| constraint := c; config := cf; timer := 0; active := false |}.

(** [new Creature(bodies, muscles)]: the field initialisers, then the body
    of the constructor. *)
Definition new_Creature (bs : list PhysicsBody) (ms : list Muscle)
  : M Creature :=
  a <- newObject ;;
  born <- Date_now ;;
  t <- Date_now ;;
  r <- Math_random ;;
  ret {| addr := a; bodies := bs; muscles := ms; bornAt := born;
         maxX := 0; id := (inject_Z t + r)%Q |}.

(** The three places that build a muscle draw its configuration in the
    same order and differ in the constants only:
    [stiffness: s0 + Math.random() * s1],
    [activationType: Math.random() < 0.5 ? 'periodic' : 'onGroundContact'],
    [period: p0 + Math.random() * p1],
    [extensionFactor: x0 + Math.random() * x1]. *)
Definition randomMuscle (a b : PhysicsBody) (distance s0 s1 p0 p1 x0 x1 : Q)
  : M Muscle :=
  r1 <- Math_random ;;
  r2 <- Math_random ;;
  r3 <- Math_random ;;
  r4 <- Math_random ;;
  new_Muscle a b
    {| restLength := distance;
       stiffness := (s0 + r1 * s1)%Q;
       activationType := if JS.lt r2 (1 # 2) then periodic else onGroundContact;
       period := Some (p0 + r3 * p1)%Q;
       extensionFactor := Some (x0 + r4 * x1)%Q |}.

(** [a === b] on [PhysicsBody] objects. *)
Definition same (a b : PhysicsBody) : bool := Nat.eqb (body a) (body b).

(** [connectionMap: Map<PhysicsBody, number>]. *)
Definition ConnectionMap := JS.Map PhysicsBody nat.

(** [connectionMap.get(body) || 0]. *)
Definition degree (cm : ConnectionMap) (b : PhysicsBody) : nat :=
  match JS.get same cm b with
  | Some n => n
  | None => 0
  end.

Definition increment (cm : ConnectionMap) (b : PhysicsBody) : ConnectionMap :=
  JS.set same cm b (degree cm b + 1).

(** [bodies.find(b => b.body === end)]. *)
Definition findBody (bs : list PhysicsBody) (e : option handle)
  : option PhysicsBody :=
  find (fun b => match e with
                 | Some h => Nat.eqb (body b) h
                 | None => false
                 end) bs.

(** The first two [forEach] of [ensureMinimumConnections]. *)
Definition countEnds (bs : list PhysicsBody) (cm : ConnectionMap) (m : Muscle)
  : ConnectionMap :=
  let cm1 := match findBody bs (bodyA (constraint m)) with
             | Some a => increment cm a
             | None => cm
             end in
  match findBody bs (bodyB (constraint m)) with
  | Some b => increment cm1 b
  | None => cm1
  end.

Definition initialConnections (bs : list PhysicsBody) (ms : list Muscle)
  : ConnectionMap :=
  fold_left (countEnds bs) ms
            (fold_left (fun cm b => JS.set same cm b 0) bs []).

(** The state the repair loops carry: the map and the muscle array. *)
Record Repair := {
  connectionMap : ConnectionMap;
  repaired : list Muscle
}.

Definition potentialTargets (bs : list PhysicsBody) (cm : ConnectionMap)
  (b : PhysicsBody) : list PhysicsBody :=
  filter (fun target => negb (same target b) && (degree cm target <? 2)) bs.

Section WithMath.
Variable fl : JS.MathLib.
Variable cfg : VisualConfig.

Definition getDistance (st : Store) (a b : PhysicsBody) : Q :=
  let dx := (x (position (st (body a))) - x (position (st (body b))))%Q in
  let dy := (y (position (st (body a))) - y (position (st (body b))))%Q in
  JS.Math_sqrt fl (dx * dx + dy * dy)%Q.

(** One round of the [while] loop, entered with the degree of [b] below 2;
    [None] is the [break]. *)
Definition connectOnce (bs : list PhysicsBody) (b : PhysicsBody) (s : Repair)
  : M (option Repair) :=
  let targets := potentialTargets bs (connectionMap s) b in
  match targets with
  | [] => ret None
  | _ :: _ =>
      r <- Math_random ;;
      match JS.at_ targets
              (JS.Math_floor (r * inject_Z (Z.of_nat (List.length targets)))) with
      | None => throw
      | Some target =>
          st <- gets store ;;
          m <- randomMuscle b target (getDistance st b target)
                 (3 # 10) (3 # 10) 700 1200 1 (4 # 10) ;;
          ret (Some {| connectionMap :=
                         increment (increment (connectionMap s) b) target;
                       repaired := repaired s ++ [m] |})
      end
  end.

(** [while ((connectionMap.get(body) || 0) < 2) { ... }]. *)
Equations? connectWhile (bs : list PhysicsBody) (b : PhysicsBody)
  (s : Repair) (e : Env) : option (Repair * Env)
  by wf (2 - degree (connectionMap s) b) lt :=
connectWhile bs b s e with inspect (degree (connectionMap s) b <? 2) := {
  | exist _ false _ => Some (s, e);
  | exist _ true below with inspect (connectOnce bs b s e) := {
      | exist _ None _ => None;
      | exist _ (Some (None, e')) _ => Some (s, e');
      | exist _ (Some (Some s', e')) round => connectWhile bs b s' e' } }.
Proof.
  apply Nat.ltb_lt in below. clear connectWhile.
  assert (up : forall cm t k v,
             degree cm t <= v -> degree cm k <= degree (JS.set same cm t v) k).
  { intros cm t k. unfold degree.
    induction cm as [|[k0 w] cm IH]; intros v Hv; simpl in *.
    - destruct (same k t); lia.
    - destruct (same t k0) eqn:E; simpl.
      + destruct (same k k0); [exact Hv | lia].
      + destruct (same k k0); [lia | now apply IH]. }
  assert (self : forall cm t v, degree (JS.set same cm t v) t = v).
  { intros cm t v. unfold degree.
    induction cm as [|[k0 w] cm IH]; simpl.
    - unfold same. now rewrite Nat.eqb_refl.
    - destruct (same t k0) eqn:E; simpl; rewrite E; auto. }
  assert (raised : degree (connectionMap s) b < degree (connectionMap s') b).
  { unfold connectOnce in round.
    destruct (potentialTargets bs (connectionMap s) b); [discriminate|].
    unfold bind, Math_random, gets, ret, throw in round.
    destruct (JS.at_ _ _) as [target|]; [|discriminate].
    destruct (randomMuscle _ _ _ _ _ _ _ _ _ _) as [[m e1]|]; [|discriminate].
    injection round as <- _. simpl. unfold increment.
    pose proof (self (connectionMap s) b (degree (connectionMap s) b + 1)).
    pose proof (up (JS.set same (connectionMap s) b
                           (degree (connectionMap s) b + 1))
                   target b _ (Nat.le_add_r _ 1)).
    lia. }
  destruct (degree (connectionMap s) b) as [|[|?]],
           (degree (connectionMap s') b) as [|[|?]]; lia.
Qed.

(** [ensureMinimumConnections(bodies, muscles)]; the result is the muscle
    array after the call. *)
Definition ensureMinimumConnections (bs : list PhysicsBody) (ms : list Muscle)
  : M (list Muscle) :=
  s <- foldM (fun s b => connectWhile bs b s) bs
         {| connectionMap := initialConnections bs ms; repaired := ms |} ;;
  ret (repaired s).

(** One round of [for (let i = 0; i < count; i++)] that places a body. *)
Definition placeBody (count : nat) (radius : Q) (i : nat) : M PhysicsBody :=
  let centerX := (- (100))%Q in
  let centerY := (groundY cfg - 100)%Q in
  let angle :=
    ((inject_Z (Z.of_nat i) / inject_Z (Z.of_nat count))
     * JS.Math_PI fl * 2)%Q in
  rx <- Math_random ;;
  ry <- Math_random ;;
  new_PhysicsBody
    (centerX + JS.Math_cos fl angle * radius + (rx - (1 # 2)) * 20)%Q
    (centerY + JS.Math_sin fl angle * radius + (ry - (1 # 2)) * 20)%Q.

(** One round of the loop that links a body to its successor on the ring. *)
Definition ringMuscle (bs : list PhysicsBody) (count : nat) (i : nat)
  : M Muscle :=
  match nth_error bs i, nth_error bs ((i + 1) mod count) with
  | Some current, Some next =>
      st <- gets store ;;
      randomMuscle current next (getDistance st current next)
        (3 # 10) (7 # 10) 250 1200 1 (7 # 10)
  | _, _ => throw
  end.

(** One round of the loop that adds a cross connection. *)
Definition crossMuscle (bs : list PhysicsBody) (count : nat)
  (ms : list Muscle) (_ : nat) : M (list Muscle) :=
  ra <- Math_random ;;
  rb <- Math_random ;;
  let a := JS.at_ bs (JS.Math_floor (ra * inject_Z (Z.of_nat count))) in
  let b := JS.at_ bs (JS.Math_floor (rb * inject_Z (Z.of_nat count))) in
  match a, b with
  | Some a, Some b =>
      if same a b then ret ms
      else
        st <- gets store ;;
        m <- randomMuscle a b (getDistance st a b)
               (3 # 10) (7 # 10) 1000 1500 (11 # 10) (7 # 10) ;;
        ret (ms ++ [m])
  | None, None => ret ms
  | _, _ => throw
  end.

(** [createRandomCreature()]. *)
Definition createRandomCreature : M Creature :=
  r <- Math_random ;;
  let count := Z.to_nat (4 + JS.Math_floor (r * 8)) in
  rr <- Math_random ;;
  let radius := (15 + rr * 30)%Q in
  bs <- mapM (placeBody count radius) (seq 0 count) ;;
  ring <- mapM (ringMuscle bs count) (seq 0 count) ;;
  rc <- Math_random ;;
  let crossConnections := count / 2 + Z.to_nat (JS.Math_floor (rc * 2)) in
  ms <- foldM (crossMuscle bs count) (seq 0 crossConnections) ring ;;
  ms' <- ensureMinimumConnections bs ms ;;
  new_Creature bs ms'.

End WithMath.

End Generator.

(** ** src/World.ts: [BasePhysicsWorld] and [MainWorld] *)

Module World.
Import Matter Creature Eff Generator.

(** The entries of [creatures: Map<number, { bodies, muscles }>]. *)
Record CreatureData := {
  cd_bodies : list PhysicsBody;
  cd_muscles : list Muscle
}.

Record World := {
  creatures : JS.Map Q CreatureData;
  lastUpdate : Z;
  distanceBins : list nat;
  creatureMaxDistances : JS.Map Q Q;
  top3MaxDistances : JS.Map Q Q
}.

(** [Math.max(...bodies.map(body => body.body.position.x))]. *)
Definition furthest (st : Store) (bs : list PhysicsBody) : option Q :=
  JS.Math_max (xs_of st bs).

(** [map.get(id) || 0]. *)
Definition orZero (v : option Q) : Q :=
  match v with
  | Some q => q
  | None => 0
  end.

(** [const prev = map.get(id) || 0; if (furthest > prev) map.set(id, furthest)]. *)
Definition record (st : Store) (dists : JS.Map Q Q) (cid : Q)
  (bs : list PhysicsBody) : JS.Map Q Q :=
  match furthest st bs with
  | Some f =>
      if JS.lt (orZero (JS.get Qeq_bool dists cid)) f
      then JS.set Qeq_bool dists cid f
      else dists
  | None => dists
  end.

(** [World.remove(world, object)] on each object of a list. *)
Definition removeAll (objs : list nat) (from : list nat) : list nat :=
  filter (fun o => negb (existsb (Nat.eqb o) objs)) from.

(** [removeCreature(creatureId)]. *)
Definition removeCreature (cid : Q) (w : World) (e : Env) : World * Env :=
  match JS.get Qeq_bool (creatures w) cid with
  | Some data =>
      ({| creatures := JS.delete Qeq_bool (creatures w) cid;
          lastUpdate := lastUpdate w;
          distanceBins := distanceBins w;
          creatureMaxDistances :=
            record (store e) (creatureMaxDistances w) cid (cd_bodies data);
          top3MaxDistances := top3MaxDistances w |},
       with_world e
         (removeAll (map body (cd_bodies data)) (worldBodies e))
         (removeAll (map (fun m => Matter.cid (constraint m)) (cd_muscles data))
                    (worldConstraints e)))
  | None => (w, e)
  end.

(** [while (bins.length <= binIndex) bins.push(0)]. *)
Definition pad (bins : list nat) (binIndex : nat) : list nat :=
  bins ++ repeat 0 (S binIndex - List.length bins).

(** [bins[binIndex] += 1] on an index inside the array. *)
Fixpoint incrementAt (bins : list nat) (binIndex : nat) : list nat :=
  match bins, binIndex with
  | [], _ => []
  | c :: rest, O => S c :: rest
  | c :: rest, S k => c :: incrementAt rest k
  end.

(** One round of [creatureMaxDistances.forEach(dist => ...)].  A negative
    index would touch no element of the array. *)
Definition addToBin (bins : list nat) (dist : Q) : list nat :=
  let binIndex := JS.Math_floor (dist / 100)%Q in
  if (binIndex <? 0)%Z then bins
  else incrementAt (pad bins (Z.to_nat binIndex)) (Z.to_nat binIndex).

(** [MainWorld.addCreature(creature)]. *)
Definition addCreature (c : Creature) (w : World) : World :=
  {| creatures :=
       JS.set Qeq_bool (creatures w) (id c)
         {| cd_bodies := bodies c; cd_muscles := muscles c |};
     lastUpdate := lastUpdate w;
     distanceBins := distanceBins w;
     creatureMaxDistances := creatureMaxDistances w;
     top3MaxDistances := top3MaxDistances w |}.

Definition recordAll (st : Store) (cs : JS.Map Q CreatureData)
  (dists : JS.Map Q Q) : JS.Map Q Q :=
  fold_left (fun d '(cid, data) => record st d cid (cd_bodies data)) cs dists.

Definition rebuildBins (dists : JS.Map Q Q) : list nat :=
  fold_left (fun bins '(_, dist) => addToBin bins dist) dists [].

Section WithEngine.
(** [Engine.update(engine, delta)]: the positions and velocities after the
    step; the physics is not part of the sources. *)
Variable Engine_update : Env -> Q -> Store.

(** [BasePhysicsWorld.update(delta)]; drawing the bins changes no state. *)
Definition update (delta : Q) (w : World) (e : Env) : World * Env :=
  let e1 := with_store e (Engine_update e delta) in
  let dists := recordAll (store e1) (creatures w) (creatureMaxDistances w) in
  ({| creatures := creatures w;
      lastUpdate := lastUpdate w;
      distanceBins := rebuildBins dists;
      creatureMaxDistances := dists;
      top3MaxDistances := top3MaxDistances w |}, e1).

(** [MainWorld.update(delta)] up to the styles, the zoom and the hashmarks,
    which only feed the renderer. *)
Definition MainWorld_update (delta : Q) (w : World) (e : Env) : World * Env :=
  let '(w1, e1) := update delta w e in
  ({| creatures := creatures w1;
      lastUpdate := lastUpdate w1;
      distanceBins := distanceBins w1;
      creatureMaxDistances := creatureMaxDistances w1;
      top3MaxDistances :=
        recordAll (store e1) (creatures w1) (top3MaxDistances w1) |}, e1).

(** One turn of [startUpdateLoop]. *)
Definition updateLoop (w : World) (e : Env) : World * Env :=
  let now := clock e in
  let delta := (now - lastUpdate w)%Z in
  let cappedDelta := Z.min delta 50 in
  let '(w1, e1) := MainWorld_update (inject_Z cappedDelta) w e in
  ({| creatures := creatures w1;
      lastUpdate := now;
      distanceBins := distanceBins w1;
      creatureMaxDistances := creatureMaxDistances w1;
      top3MaxDistances := top3MaxDistances w1 |}, e1).

End WithEngine.

(** The fields of a new world. *)
Definition empty (now : Z) : World :=
  {| creatures := []; lastUpdate := now; distanceBins := [];
     creatureMaxDistances := []; top3MaxDistances := [] |}.

End World.

(** ** src/SimulationController.ts: [SimulationController] *)

Module Controller.
Import Matter Creature Eff Generator.

Record HighScore := { hs_id : Q; hs_distance : Q }.

Record RankedScore := { rs_id : Q; rs_distance : Q; rs_rank : nat }.

Record SimulationController := {
  mainWorld : World.World;
  creatures : list Creature;
  deadCreatures : JS.SetOf Q;
  evolutionCount : nat;
  totalCreatures : nat;
  top3HighScores : list HighScore;
  allCreatures : JS.Map Q Creature
}.

Definition lifetime : Z := 15000.
Definition generationSize : nat := 50.

Definition with_creatures (c : SimulationController) (cs : list Creature)
  : SimulationController :=
  {| mainWorld := mainWorld c; creatures := cs;
     deadCreatures := deadCreatures c; evolutionCount := evolutionCount c;
     totalCreatures := totalCreatures c; top3HighScores := top3HighScores c;
     allCreatures := allCreatures c |}.

Definition with_deadCreatures (c : SimulationController) (d : JS.SetOf Q)
  : SimulationController :=
  {| mainWorld := mainWorld c; creatures := creatures c;
     deadCreatures := d; evolutionCount := evolutionCount c;
     totalCreatures := totalCreatures c; top3HighScores := top3HighScores c;
     allCreatures := allCreatures c |}.

Definition with_mainWorld (c : SimulationController) (w : World.World)
  : SimulationController :=
  {| mainWorld := w; creatures := creatures c;
     deadCreatures := deadCreatures c; evolutionCount := evolutionCount c;
     totalCreatures := totalCreatures c; top3HighScores := top3HighScores c;
     allCreatures := allCreatures c |}.

Definition with_counts (c : SimulationController) (evolution total : nat)
  : SimulationController :=
  {| mainWorld := mainWorld c; creatures := creatures c;
     deadCreatures := deadCreatures c; evolutionCount := evolution;
     totalCreatures := total; top3HighScores := top3HighScores c;
     allCreatures := allCreatures c |}.

Definition with_top3HighScores (c : SimulationController) (t : list HighScore)
  : SimulationController :=
  {| mainWorld := mainWorld c; creatures := creatures c;
     deadCreatures := deadCreatures c; evolutionCount := evolutionCount c;
     totalCreatures := totalCreatures c; top3HighScores := t;
     allCreatures := allCreatures c |}.

(** [a === b] on [Creature] objects. *)
Definition same (a b : Creature) : bool := Nat.eqb (addr a) (addr b).

(** [arr.includes(c)]. *)
Definition includes (l : list Creature) (c : Creature) : bool :=
  existsb (same c) l.

(** [(a, b) => b.maxX - a.maxX]. *)
Definition byMaxXDesc (a b : Creature) : Q := (maxX b - maxX a)%Q.

(** [(a, b) => (a.bornAt < b.bornAt ? a : b)]. *)
Definition older (a b : Creature) : Creature :=
  if (bornAt a <? bornAt b)%Z then a else b.

(** The body freezing leaves behind:
    [isStatic = true; velocity.x = 0; velocity.y = 0;
     Body.setAngularVelocity(body, 0)]. *)
Definition frozen (b : Body) : Body :=
  setAngularVelocity
    {| position := position b;
       velocity := {| x := 0; y := 0 |};
       angle := angle b;
       anglePrev := anglePrev b;
       angularVelocity := angularVelocity b;
       angularSpeed := angularSpeed b;
       isStatic := true |} 0.

(** [freezeCreature(creature)]. *)
Definition freezeCreature (creature : Creature) (c : SimulationController)
  (e : Env) : SimulationController * Env :=
  (with_deadCreatures c (JS.set_add Qeq_bool (deadCreatures c) (id creature)),
   fold_left (fun e b => with_store e (write (store e) (body b)
                                             (frozen (store e (body b)))))
             (bodies creature) e).

(** An assignment to a field of the object [target] shows in every place
    that holds the object; the live array is the only one. *)
Definition mutate (f : Creature -> Creature) (target : Creature)
  (c : SimulationController) : SimulationController :=
  with_creatures c
    (map (fun d => if same d target then f d else d) (creatures c)).

Definition set_bornAt (t : Z) (c : Creature) : Creature :=
  {| addr := addr c; bodies := bodies c; muscles := muscles c;
     bornAt := t; maxX := maxX c; id := id c |}.

(** [[k, v] => ({ id, distance })]. *)
Definition toScore (entry : Q * Q) : HighScore :=
  {| hs_id := fst entry; hs_distance := snd entry |}.

(** [updateTop3HighScores()]. *)
Definition updateTop3HighScores (c : SimulationController)
  : SimulationController :=
  let byId :=
    fold_left (fun m '(_, cr) => JS.set Qeq_bool m (id cr) (maxX cr))
              (allCreatures c) ([] : JS.Map Q Q) in
  with_top3HighScores c
    (JS.slice0 3
       (JS.sort (fun a b => (hs_distance b - hs_distance a)%Q)
                (map toScore byId))).

(** [getTop3HighScores()]. *)
Definition getTop3HighScores (c : SimulationController) : list RankedScore :=
  map (fun '(i, entry) =>
         {| rs_id := hs_id entry; rs_distance := hs_distance entry;
            rs_rank := i + 1 |})
      (combine (seq 0 (List.length (top3HighScores c))) (top3HighScores c)).

Definition getEvolutionCount (c : SimulationController) : nat :=
  evolutionCount c.

Definition getCurrentCreatureCount (c : SimulationController) : nat :=
  List.length (creatures c).

Definition getTotalCreatureCount (c : SimulationController) : nat :=
  totalCreatures c.

Definition getTopCreatures (count : nat) (c : SimulationController)
  : list Creature :=
  JS.slice0 count (JS.sort byMaxXDesc (creatures c)).

Section WithConfig.
Variable fl : JS.MathLib.
Variable cfg : VisualConfig.

(** The first half of [trickleAddCreature()]: the cull. *)
Definition cull (c : SimulationController) (e : Env)
  : SimulationController * Env :=
  let top10 := JS.slice0 10 (JS.sort byMaxXDesc (creatures c)) in
  if generationSize <=? List.length (creatures c) then
    let nonTop10 := filter (fun d => negb (includes top10 d)) (creatures c) in
    match JS.reduce older nonTop10 with
    | Some oldest =>
        let '(w, e1) := World.removeCreature (id oldest) (mainWorld c) e in
        (with_deadCreatures
           (with_creatures (with_mainWorld c w)
              (filter (fun d => negb (same d oldest)) (creatures c)))
           (JS.set_delete Qeq_bool (deadCreatures c) (id oldest)),
         e1)
    | None => (c, e)
    end
  else (c, e).

(** [trickleAddCreature()]. *)
Definition trickleAddCreature (c : SimulationController)
  : M SimulationController :=
  fun e =>
    let '(c1, e1) := cull c e in
    (creature <- createRandomCreature fl cfg ;;
     now <- Date_now ;;
     let creature := set_bornAt now creature in
     let c2 := with_creatures c1 (creatures c1 ++ [creature]) in
     let c3 := with_mainWorld c2 (World.addCreature creature (mainWorld c2)) in
     let total := totalCreatures c3 + 1 in
     ret (if total mod 50 =? 0
          then with_counts c3 (evolutionCount c3 + 1) 0
          else with_counts c3 (evolutionCount c3) total)) e1.

(** One round of [this.creatures.forEach] in the main loop. *)
Definition tick (now : Z) (s : SimulationController * Env)
  (creature : Creature) : SimulationController * Env :=
  let '(c, e) := s in
  if (lifetime <? now - bornAt creature)%Z
  then freezeCreature creature c e
  else (mutate (Creature_update (store e) 16 (groundY cfg)) creature c, e).

(** One turn of the [loop] of [startMainLoop()]. *)
Definition mainLoop (c : SimulationController) (e : Env)
  : SimulationController * Env :=
  let now := clock e in
  let '(c1, e1) := fold_left (tick now) (creatures c) (c, e) in
  (updateTop3HighScores c1, e1).

End WithConfig.

(** The field initialisers of the controller, around a new world. *)
Definition fresh (now : Z) : SimulationController :=
  {| mainWorld := World.empty now; creatures := [];
     deadCreatures := []; evolutionCount := 0; totalCreatures := 0;
     top3HighScores := []; allCreatures := [] |}.

(** What the timers and the animation frames run, each at its time. *)
Inductive Event :=
| Trickle (now : Z)
| Frame (now : Z)
| WorldFrame (now : Z).

Section Run.
Variable fl : JS.MathLib.
Variable cfg : VisualConfig.
Variable Engine_update : Env -> Q -> Store.

(** One callback, run to completion. *)
Definition step (ev : Event) (s : SimulationController * Env)
  : option (SimulationController * Env) :=
  let '(c, e) := s in
  match ev with
  | Trickle now => trickleAddCreature fl cfg c (with_clock e now)
  | Frame now => Some (mainLoop cfg c (with_clock e now))
  | WorldFrame now =>
      let '(w, e1) := World.updateLoop Engine_update (mainWorld c)
                        (with_clock e now) in
      Some (with_mainWorld c w, e1)
  end.

Fixpoint run (evs : list Event) (s : SimulationController * Env)
  : option (SimulationController * Env) :=
  match evs with
  | [] => Some s
  | ev :: rest =>
      match step ev s with
      | Some s' => run rest s'
      | None => None
      end
  end.

(** [new SimulationController(cfg, canvas)]: the world is built, which runs
    its loop once, then the main loop is started, which runs it once. *)
Definition construct (e : Env) : SimulationController * Env :=
  let '(w, e1) := World.updateLoop Engine_update (World.empty (clock e)) e in
  mainLoop cfg (with_mainWorld (fresh (clock e)) w) e1.

End Run.

End Controller.

(** ** src/Creature.ts: [removeFromWorld] and [clone] *)

Module CreatureOps.
Import Matter Creature Eff Generator.

(** [Creature.removeFromWorld(world)]: [World.remove] on each body, then on
    each constraint. *)
Definition removeFromWorld (c : Creature) (e : Env) : Env :=
  with_world e
    (World.removeAll (map body (bodies c)) (worldBodies e))
    (World.removeAll (map (fun m => cid (constraint m)) (muscles c))
                     (worldConstraints e)).

(** [Body.setVelocity(body, v)], of matter-js, on the fields kept of a
    body: it writes [velocity] (and [positionPrev] and [speed], which no
    source reads). *)
Definition setVelocity (b : Body) (v : Vector) : Body :=
  {| position := position b; velocity := v;
     angle := angle b; anglePrev := anglePrev b;
     angularVelocity := angularVelocity b;
     angularSpeed := angularSpeed b;
     isStatic := isStatic b |}.

(** [arr.findIndex(p)]: [None] is [-1]. *)
Fixpoint findIndex {A} (p : A -> bool) (l : list A) : option nat :=
  match l with
  | [] => None
  | a :: rest => if p a then Some 0 else option_map S (findIndex p rest)
  end.

(** [this.bodies.findIndex(b => b.body === end)]. *)
Definition indexOfBody (bs : list PhysicsBody) (e : option handle)
  : option nat :=
  findIndex (fun b => match e with
                      | Some h => Nat.eqb (body b) h
                      | None => false
                      end) bs.

(** [this.bodies.reduce((sum, body) => sum + coord(body), 0)
     / this.bodies.length].  The sum and the quotient are exact here and
    rounded in the code; what is proved of [clone] holds whatever the value
    of this centre is. *)
Definition centre (coord : Vector -> Q) (st : Store) (bs : list PhysicsBody)
  : Q :=
  (fold_left (fun sum b => sum + coord (position (st (body b))))%Q bs 0%Q
   / inject_Z (Z.of_nat (List.length bs)))%Q.

(** What [clone] returns: [{ bodies, muscles }]. *)
Record Clone := {
  clonedBodies : list PhysicsBody;
  clonedMuscles : list Muscle
}.

(** One round of the loop over [this.bodies]: the new body, then
    [Body.setVelocity(newBody.body, { x: 0, y: 0 })] and
    [Body.setAngularVelocity(newBody.body, 0)]. *)
Definition cloneBody (creatureCenterX creatureCenterY centerX centerY scale : Q)
  (originalBody : PhysicsBody) : M PhysicsBody :=
  st <- gets store ;;
  let offsetX := (x (position (st (body originalBody))) - creatureCenterX)%Q in
  let offsetY := (y (position (st (body originalBody))) - creatureCenterY)%Q in
  newBody <- new_PhysicsBody (centerX + offsetX * scale)%Q
                             (centerY + offsetY * scale)%Q ;;
  fun e =>
    Some (newBody,
          with_store e
            (write (store e) (body newBody)
               (setAngularVelocity
                  (setVelocity (store e (body newBody)) {| x := 0; y := 0 |})
                  0))).

(** One round of the loop over [this.muscles]; a muscle one end of which is
    no body of the creature is left out.  The two factors are exact here;
    rounded, as in the code, they can reach 1.05 and 1.02, so what is proved
    of them bounds them from above inclusively. *)
Definition cloneMuscle (bs cloned : list PhysicsBody) (acc : list Muscle)
  (originalMuscle : Muscle) : M (list Muscle) :=
  match indexOfBody bs (bodyA (constraint originalMuscle)),
        indexOfBody bs (bodyB (constraint originalMuscle)) with
  | Some bodyAIndex, Some bodyBIndex =>
      match nth_error cloned bodyAIndex, nth_error cloned bodyBIndex with
      | Some a, Some b =>
          rp <- Math_random ;;
          rx <- Math_random ;;
          m <- new_Muscle a b
                 {| restLength := restLength (config originalMuscle);
                    stiffness := stiffness (config originalMuscle);
                    activationType := activationType (config originalMuscle);
                    period :=
                      Some (JS.nullish (period (config originalMuscle)) 1000%Q
                            * ((95 # 100) + rp * (1 # 10)))%Q;
                    extensionFactor :=
                      Some (JS.nullish (extensionFactor (config originalMuscle))
                                       (12 # 10)%Q
                            * ((98 # 100) + rx * (4 # 100)))%Q |} ;;
          ret (acc ++ [m])
      | _, _ => ret acc
      end
  | _, _ => ret acc
  end.

(** [Creature.clone(world, centerX, centerY, scale, colorIndex, cfg)];
    [colorIndex] and [cfg] only set the colour and the radius of the new
    bodies, which the renderer and the engine read. *)
Definition clone (c : Creature) (centerX centerY scale : Q) : M Clone :=
  st <- gets store ;;
  let creatureCenterX := centre x st (bodies c) in
  let creatureCenterY := centre y st (bodies c) in
  cb <- mapM (cloneBody creatureCenterX creatureCenterY centerX centerY scale)
             (bodies c) ;;
  cm <- foldM (cloneMuscle (bodies c) cb) (muscles c) [] ;;
  ret {| clonedBodies := cb; clonedMuscles := cm |}.

End CreatureOps.

(** ** The remaining methods of the world and of the controller *)

Module Queries.
Import Matter Creature Eff Generator Controller.

(** [BasePhysicsWorld.getDisplayedCreatureIds()]. *)
Definition getDisplayedCreatureIds (w : World.World) : list Q :=
  map fst (World.creatures w).

(** [BasePhysicsWorld.getDistanceBins()]. *)
Definition getDistanceBins (w : World.World) : list nat :=
  World.distanceBins w.

(** [BasePhysicsWorld.cleanup()]: the renderer is stopped and
    [this.creatures.clear()]. *)
Definition World_cleanup (w : World.World) : World.World :=
  {| World.creatures := [];
     World.lastUpdate := World.lastUpdate w;
     World.distanceBins := World.distanceBins w;
     World.creatureMaxDistances := World.creatureMaxDistances w;
     World.top3MaxDistances := World.top3MaxDistances w |}.

(** [SimulationController.cleanup()]. *)
Definition cleanup (c : SimulationController) : SimulationController :=
  with_mainWorld c (World_cleanup (mainWorld c)).

(** [Math.min(t, ...ts)]. *)
Definition Math_min_from (t : Z) (ts : list Z) : Z := fold_left Z.min ts t.

(** [getTimeUntilNextEvolution()]. *)
Definition getTimeUntilNextEvolution (c : SimulationController) (e : Env)
  : Z :=
  let now := clock e in
  let nonTop3 :=
    filter (fun d =>
              negb (includes (JS.slice0 3 (JS.sort byMaxXDesc (creatures c)))
                             d))
           (creatures c) in
  match map (fun d => (bornAt d + lifetime - now)%Z) nonTop3 with
  | [] => lifetime
  | t :: ts => Z.max 0 (Math_min_from t ts)
  end.

(** The figures [App.tsx] polls every second: [bestDistance] is
    [lastBest ? lastBest.maxX : 0] and the count it displays is
    [evolutionCount * 50 + totalCreatures]. *)
Definition bestDistance (c : SimulationController) : Q :=
  match getTopCreatures 1 c with
  | lastBest :: _ => maxX lastBest
  | [] => 0%Q
  end.

Definition displayedCount (c : SimulationController) : nat :=
  getEvolutionCount c * 50 + getTotalCreatureCount c.

End Queries.

Unset Implicit Arguments.

(** * The vocabulary of the properties *)

(** ** About the generator *)

Module GeneratorSpec.
Import Matter Creature Eff Generator.

(** [Math.random()] returns a number in [0, 1). *)
Definition validRandom (e : Env) : Prop :=
  forall n, (0 <= random e n)%Q /\ (random e n < 1)%Q.

(** The computation returns, and its result and final environment satisfy
    the postcondition. *)
Definition returns {A} (m : M A) (e : Env) (post : A -> Env -> Prop) : Prop :=
  exists a e', m e = Some (a, e') /\ post a e'.

(** Nothing but the draw counter, the constraints and their place in the
    world has changed. *)
Record steady (e e' : Env) : Prop := {
  steady_store : store e' = store e;
  steady_nextBody : nextBody e' = nextBody e;
  steady_nextObject : nextObject e' = nextObject e;
  steady_random : random e' = random e;
  steady_clock : clock e' = clock e;
  steady_worldBodies : worldBodies e' = worldBodies e
}.

(** As [steady], but bodies may have been created. *)
Record calm (e e' : Env) : Prop := {
  calm_nextObject : nextObject e' = nextObject e;
  calm_random : random e' = random e;
  calm_clock : clock e' = clock e
}.

(** The muscle [randomMuscle] builds. *)
Record drawnMuscle (a b : PhysicsBody) (distance s0 s1 p0 p1 x0 x1 : Q)
  (m : Muscle) : Prop := {
  dm_bodyA : bodyA (constraint m) = Some (body a);
  dm_bodyB : bodyB (constraint m) = Some (body b);
  dm_restLength : restLength (config m) = distance;
  dm_length : length (constraint m) = distance;
  dm_stiffness :
    (s0 <= stiffness (config m))%Q /\ (stiffness (config m) < s0 + s1)%Q;
  dm_period :
    exists p, period (config m) = Some p /\ (p0 <= p)%Q /\ (p < p0 + p1)%Q;
  dm_extensionFactor :
    exists f, extensionFactor (config m) = Some f /\
              (x0 <= f)%Q /\ (f < x0 + x1)%Q;
  dm_timer : timer m = 0%Q;
  dm_active : active m = false
}.

(** Whether the end [e] of a constraint is the body of [b], as a count. *)
Definition touches (e : option handle) (b : PhysicsBody) : nat :=
  match e with
  | Some h => if Nat.eqb (body b) h then 1 else 0
  | None => 0
  end.

(** The ends of muscle [m] at body [b]. *)
Definition ends (m : Muscle) (b : PhysicsBody) : nat :=
  touches (bodyA (constraint m)) b + touches (bodyB (constraint m)) b.

(** The degree of [b]: the muscle ends of [ms] at [b]. *)
Definition incident (ms : list Muscle) (b : PhysicsBody) : nat :=
  list_sum (map (fun m => ends m b) ms).

(** [ms'] is [ms] followed by muscles pushed one at a time, each between
    two different bodies of [bs] that had fewer than two incident muscles
    when it was pushed. *)
Inductive repairs (bs : list PhysicsBody) (ms : list Muscle)
  : list Muscle -> Prop :=
| repairs_none : repairs bs ms ms
| repairs_push ms' m a t :
    repairs bs ms ms' ->
    In a bs -> In t bs -> body a <> body t ->
    bodyA (constraint m) = Some (body a) ->
    bodyB (constraint m) = Some (body t) ->
    incident ms' a < 2 -> incident ms' t < 2 ->
    repairs bs ms (ms' ++ [m]).

(** The map agrees with the muscle array on the bodies of [bs]. *)
Definition counted (bs : list PhysicsBody) (s : Repair) : Prop :=
  forall t, In t bs -> degree (connectionMap s) t = incident (repaired s) t.

(** [b] needs no partner, or has none left. *)
Definition settled (bs : list PhysicsBody) (s : Repair) (b : PhysicsBody)
  : Prop :=
  2 <= degree (connectionMap s) b \/
  forall t, In t bs -> body t <> body b -> 2 <= degree (connectionMap s) t.

(** No degree has decreased. *)
Definition grown (s s' : Repair) : Prop :=
  forall t, degree (connectionMap s) t <= degree (connectionMap s') t.

(** The [i]-th ring muscle over the bodies [bs] placed at [st]. *)
Definition ringLink (fl : JS.MathLib) (st : Store) (bs : list PhysicsBody)
  (i : nat) (m : Muscle) : Prop :=
  exists a b,
    nth_error bs i = Some a /\
    nth_error bs ((i + 1) mod List.length bs) = Some b /\
    drawnMuscle a b (getDistance fl st a b)
                (3 # 10) (7 # 10) 250 1200 1 (7 # 10) m.

End GeneratorSpec.

(** ** About the controller *)

Module ControllerSpec.
Import Matter Creature Eff Generator Controller GeneratorSpec.

(** The [forEach] of [freezeCreature] over the bodies. *)
Definition freezeBodies (bs : list PhysicsBody) (e : Env) : Env :=
  fold_left (fun e b => with_store e (write (store e) (body b)
                                            (frozen (store e (body b)))))
            bs e.

(** The controller knows of no creature and ranks none. *)
Definition leaderboard_empty (s : SimulationController * Env) : Prop :=
  allCreatures (fst s) = [] /\ top3HighScores (fst s) = [].

(** The snapshot [top10] of [trickleAddCreature]. *)
Definition top10 (c : SimulationController) : list Creature :=
  JS.slice0 10 (JS.sort byMaxXDesc (creatures c)).

(** [nonTop10] of [trickleAddCreature]. *)
Definition nonTop10 (c : SimulationController) : list Creature :=
  filter (fun d => negb (includes (top10 c) d)) (creatures c).

(** What the population has to satisfy between two callbacks: the live
    creatures are distinct objects, all allocated, at most 50. *)
Definition wellFormed (s : SimulationController * Env) : Prop :=
  validRandom (snd s) /\
  NoDup (map addr (creatures (fst s))) /\
  (forall d, In d (creatures (fst s)) -> addr d < nextObject (snd s)) /\
  List.length (creatures (fst s)) <= generationSize.

(** The number of live creatures after a trickle step entered with [n]. *)
Definition afterTrickle (n : nat) : nat :=
  if generationSize <=? n then n else S n.

End ControllerSpec.

(** ** About the world *)

Module WorldSpec.
Import Matter Creature Eff Generator World.

(** No two entries have the same key. *)
Fixpoint uniqueKeys {V} (m : JS.Map Q V) : Prop :=
  match m with
  | [] => True
  | (k, _) :: rest => JS.get Qeq_bool rest k = None /\ uniqueKeys rest
  end.

(** The number of entries whose value satisfies [p]. *)
Definition countIf {V} (p : V -> bool) (m : JS.Map Q V) : nat :=
  List.length (filter (fun kv => p (snd kv)) m).

(** [dist] falls in bin [k]. *)
Definition binOf (k : nat) (dist : Q) : bool :=
  (JS.Math_floor (dist / 100) =? Z.of_nat k)%Z.

(** For each creature ever added, the furthest position of its bodies at
    each update while it was in the world and at its removal, oldest first. *)
Definition History := JS.Map Q (list Q).

(** The best distance known of a creature: the greatest one seen, from 0
    on, as [maxX] starts from 0. *)
Definition bestKnown (seen : list Q) : Q := JS.Math_max_from 0 seen.

(** One more position seen of the creature [cid], if it was ever added. *)
Definition observe (h : History) (cid : Q) (f : Q) : History :=
  match JS.get Qeq_bool h cid with
  | Some seen => JS.set Qeq_bool h cid (seen ++ [f])
  | None => h
  end.

(** The bodies [bs] of creature [cid] are looked at; no body, nothing seen. *)
Definition sight (st : Store) (h : History) (cid : Q) (bs : list PhysicsBody)
  : History :=
  match furthest st bs with
  | Some f => observe h cid f
  | None => h
  end.

(** Every creature of the world is looked at. *)
Definition sightAll (st : Store) (cs : JS.Map Q CreatureData) (h : History)
  : History :=
  fold_left (fun h '(cid, data) => sight st h cid (cd_bodies data)) cs h.

(** The calls a world receives ([addCreature], [removeCreature], [update]
    and the turns of its own loop), with the history they leave.  Creature
    ids are unique: a creature is added under an id never used before.
    Between two calls anything may happen to the environment. *)
Inductive tracked (Engine_update : Env -> Q -> Store)
  : World * Env -> History -> Prop :=
| tracked_new now e :
    tracked Engine_update (World.empty now, e) []
| tracked_add w e h c :
    tracked Engine_update (w, e) h ->
    JS.get Qeq_bool h (id c) = None ->
    tracked Engine_update (addCreature c w, e) (h ++ [(id c, [])])
| tracked_remove w e h cid :
    tracked Engine_update (w, e) h ->
    tracked Engine_update (removeCreature cid w e)
      (match JS.get Qeq_bool (creatures w) cid with
       | Some data => sight (store e) h cid (cd_bodies data)
       | None => h
       end)
| tracked_update w e h delta :
    tracked Engine_update (w, e) h ->
    tracked Engine_update (MainWorld_update Engine_update delta w e)
      (sightAll (Engine_update e delta) (creatures w) h)
| tracked_frame w e h :
    tracked Engine_update (w, e) h ->
    tracked Engine_update (updateLoop Engine_update w e)
      (sightAll
         (Engine_update e (inject_Z (Z.min (clock e - lastUpdate w) 50)))
         (creatures w) h)
| tracked_elsewhere w e e' h :
    tracked Engine_update (w, e) h ->
    tracked Engine_update (w, e') h.

(** The entry the map of distances holds for a creature of the history. *)
Definition recorded (h : History) (cid : Q) : option Q :=
  match JS.get Qeq_bool h cid with
  | Some seen =>
      if JS.lt 0 (bestKnown seen) then Some (bestKnown seen) else None
  | None => None
  end.

(** The map of distances holds the positive bests of the history, one entry
    per creature. *)
Definition agrees (dists : JS.Map Q Q) (h : History) : Prop :=
  uniqueKeys h /\ uniqueKeys dists /\
  forall cid, JS.get Qeq_bool dists cid = recorded h cid.

(** What holds of a world and its history. *)
Definition coherent (w : World) (h : History) : Prop :=
  (forall cid data, In (cid, data) (creatures w) ->
                    JS.get Qeq_bool h cid <> None) /\
  agrees (creatureMaxDistances w) h.

(** The positive entries of a history, as a map. *)
Fixpoint positives (h : History) : JS.Map Q Q :=
  match h with
  | [] => []
  | (cid, seen) :: rest =>
      if JS.lt 0 (bestKnown seen)
      then (cid, bestKnown seen) :: positives rest
      else positives rest
  end.

End WorldSpec.

(** ** Concrete data *)

Module SampleData.
Import Matter Creature Eff Generator Controller.

(** A periodic muscle at rest, with a period of 100. *)
Definition sample_muscle : Muscle :=
  {| constraint := {| cid := 0; bodyA := Some 0; bodyB := Some 1;
                      length := 30; cstiffness := 1 # 2 |};
     config := {| restLength := 30; stiffness := 1 # 2;
                  activationType := periodic;
                  period := Some 100%Q; extensionFactor := Some (3 # 2)%Q |};
     timer := 0;
     active := false |}.

(** Rational stand-ins for the rounding functions of [Math]. *)
Definition sampleMath : JS.MathLib :=
  {| JS.Math_sqrt := fun q => inject_Z (Z.sqrt (Qfloor q));
     JS.Math_cos := fun a => (1 - a * a / 2)%Q;
     JS.Math_sin := fun a => (a - a * a * a / 6)%Q;
     JS.Math_PI := (355 # 113)%Q |}.

(** The configuration [App.tsx] builds for a canvas of 800 by 600. *)
Definition sampleConfig : VisualConfig :=
  {| width := 800; height := 600; groundY := 600; bodyRadius := 10 |}.

(** A sequence of draws in [0, 1). *)
Definition sampleRandom (n : nat) : Q :=
  (Z.of_nat ((n * 37) mod 100) # 100)%Q.

(** The environment before anything has run. *)
Definition sampleEnv : Env :=
  {| store := fun _ => circle 0 0;
     nextBody := 0; nextConstraint := 0; nextObject := 0;
     worldBodies := []; worldConstraints := [];
     random := sampleRandom; drawn := 0; clock := 0 |}.

(** An engine that carries every body to [x = 500]. *)
Definition sampleEngine (e : Env) (_ : Q) : Store :=
  fun h =>
    {| position := {| x := 500; y := y (position (store e h)) |};
       velocity := velocity (store e h);
       angle := angle (store e h);
       anglePrev := anglePrev (store e h);
       angularVelocity := angularVelocity (store e h);
       angularSpeed := angularSpeed (store e h);
       isStatic := isStatic (store e h) |}.

(** An engine that moves nothing. *)
Definition stillEngine (e : Env) (_ : Q) : Store := store e.

(** Whether a computation returned. *)
Definition returned {A} (o : option A) : bool :=
  match o with
  | Some _ => true
  | None => false
  end.

(** Callbacks run from the construction of the controller. *)
Definition sampleRun (evs : list Event)
  : option (SimulationController * Env) :=
  run sampleMath sampleConfig sampleEngine evs
      (construct sampleConfig sampleEngine sampleEnv).

(** Fifty creatures, the [i]-th born at [i] with a [maxX] of [i]. *)
Definition crowd : list Creature :=
  map (fun i => {| addr := i; bodies := []; muscles := [];
                   bornAt := Z.of_nat i;
                   maxX := inject_Z (Z.of_nat i);
                   id := inject_Z (Z.of_nat i) |})
      (seq 0 50).

(** A controller whose live array is the crowd. *)
Definition crowded : SimulationController :=
  with_creatures (fresh 0) crowd.

(** Three bodies and no muscle. *)
Definition loose : list PhysicsBody :=
  [ {| body := 0 |}; {| body := 1 |}; {| body := 2 |} ].

(** A creature of two bodies. *)
Definition pair : Creature :=
  {| addr := 0; bodies := [ {| body := 0 |}; {| body := 1 |} ];
     muscles := []; bornAt := 0; maxX := 0; id := 7 |}.

(** An environment where every body moves and spins. *)
Definition moving : Env :=
  with_store sampleEnv
    (fun _ => {| position := {| x := 3; y := 4 |};
                 velocity := {| x := 1; y := - (2) |};
                 angle := 1;
                 anglePrev := 1 # 2;
                 angularVelocity := 1 # 2;
                 angularSpeed := 1 # 2;
                 isStatic := false |}).

(** A world with one creature whose only body stays at [x = -100]. *)
Definition behind : Env :=
  with_store sampleEnv (fun _ => circle (- (100)) 500).

(** A creature of one body. *)
Definition straggler : Creature :=
  {| addr := 0; bodies := [ {| body := 0 |} ]; muscles := [];
     bornAt := 0; maxX := 0; id := 7 |}.

End SampleData.

(** ** More vocabulary and data *)

Module MoreSpec.
Import Matter Creature Eff Generator Controller GeneratorSpec SampleData.
Import CreatureOps.

(** Either end of the muscle is on the ground line or below it (the [y]
    axis points down). *)
Definition inContact (st : Store) (groundY : Q) (m : Muscle) : bool :=
  match bodyA (constraint m), bodyB (constraint m) with
  | Some A, Some B =>
      JS.ge (y (position (st A))) groundY || JS.ge (y (position (st B))) groundY
  | _, _ => false
  end.

(** A muscle that flips on ground contact, between bodies 0 and 1. *)
Definition contact_muscle : Muscle :=
  {| constraint := {| cid := 0; bodyA := Some 0; bodyB := Some 1;
                      length := 30; cstiffness := 1 # 2 |};
     config := {| restLength := 30; stiffness := 1 # 2;
                  activationType := onGroundContact;
                  period := Some 100%Q; extensionFactor := Some (3 # 2)%Q |};
     timer := 0;
     active := false |}.

(** Every body lies on the ground line [y = 600]. *)
Definition grounded : Store := fun _ => circle 10 600.

(** [a] has travelled at least as far as [b]. *)
Definition further (a b : Creature) : Prop := (maxX b <= maxX a)%Q.

(** [nonTop3] of [getTimeUntilNextEvolution]. *)
Definition nonTop3 (c : SimulationController) : list Creature :=
  filter (fun d =>
            negb (includes (JS.slice0 3 (JS.sort byMaxXDesc (creatures c))) d))
         (creatures c).

(** The number of trickle steps among callbacks. *)
Definition trickles (evs : list Event) : nat :=
  List.length (filter (fun ev => match ev with
                                 | Trickle _ => true
                                 | _ => false
                                 end) evs).

(** Five creatures, the [i]-th born at [1000 i] with a [maxX] of [i]. *)
Definition handful : SimulationController :=
  with_creatures (fresh 0)
    (map (fun i => {| addr := i; bodies := []; muscles := [];
                      bornAt := 1000 * Z.of_nat i;
                      maxX := inject_Z (Z.of_nat i);
                      id := inject_Z (Z.of_nat i) |})
         (seq 0 5)).

(** The test of the main loop: the creature has outlived the lifetime. *)
Definition expired (now : Z) (d : Creature) : bool :=
  (lifetime <? now - bornAt d)%Z.

(** The main loop has updated [d] in its rounds over [l]. *)
Definition updatedIn (now : Z) (l : list Creature) (d : Creature) : bool :=
  existsb (fun t => same d t && negb (expired now t)) l.

(** A frozen body. *)
Definition atRest (b : Body) : Prop :=
  isStatic b = true /\ velocity b = {| x := 0; y := 0 |} /\
  angularVelocity b = 0%Q.

(** Every id of [deadCreatures] is the id of a live creature. *)
Definition accounted (c : SimulationController) : Prop :=
  forall k, In k (deadCreatures c) ->
            exists d, In d (creatures c) /\ Qeq_bool k (id d) = true.

(** Two creatures of two bodies each, the first one born at 0 and the second
    one at 10000. *)
Definition couple : SimulationController :=
  with_creatures (fresh 0)
    [ {| addr := 0; bodies := [ {| body := 0 |}; {| body := 1 |} ];
         muscles := []; bornAt := 0; maxX := 0; id := 7 |};
      {| addr := 1; bodies := [ {| body := 2 |}; {| body := 3 |} ];
         muscles := []; bornAt := 10000; maxX := 0; id := 8 |} ].

(** The calls a world receives; [Meanwhile] is whatever else runs between
    two of them. *)
Inductive Call :=
| AddCreature (c : Creature)
| RemoveCreature (cid : Q)
| Update (delta : Q)
| LoopTurn
| Meanwhile (f : Env -> Env).

Definition call (Engine_update : Env -> Q -> Store)
  (s : World.World * Env) (k : Call) : World.World * Env :=
  match k with
  | AddCreature c => (World.addCreature c (fst s), snd s)
  | RemoveCreature cid => World.removeCreature cid (fst s) (snd s)
  | Update delta => World.MainWorld_update Engine_update delta (fst s) (snd s)
  | LoopTurn => World.updateLoop Engine_update (fst s) (snd s)
  | Meanwhile f => (fst s, f (snd s))
  end.

Definition calls (Engine_update : Env -> Q -> Store) (ks : list Call)
  (s : World.World * Env) : World.World * Env :=
  fold_left (call Engine_update) ks s.

(** [dists.get(k) || 0]. *)
Definition best (dists : JS.Map Q Q) (k : Q) : Q :=
  World.orZero (JS.get Qeq_bool dists k).

(** A world with the creature [pair], whose bodies are at [x = 10]. *)
Definition paired : World.World := World.addCreature pair (World.empty 0).

Definition there : Env := with_store sampleEnv grounded.

(** [Math.cos] and [Math.sin] stay between -1 and 1. *)
Definition bounded (fl : JS.MathLib) : Prop :=
  forall a, ((- (1) <= JS.Math_cos fl a)%Q /\ (JS.Math_cos fl a <= 1)%Q) /\
            ((- (1) <= JS.Math_sin fl a)%Q /\ (JS.Math_sin fl a <= 1)%Q).

(** A body at rest in the box the generator places bodies in: at most 55
    away from [(-100, groundY - 100)] on each axis. *)
Definition nearSpawn (cfg : VisualConfig) (b : Body) : Prop :=
  ((- (155) <= x (position b))%Q /\ (x (position b) <= - (45))%Q) /\
  ((groundY cfg - 155 <= y (position b))%Q /\
   (y (position b) <= groundY cfg - 45)%Q) /\
  velocity b = {| x := 0; y := 0 |} /\ isStatic b = false.

(** From [e] to [e'] the bodies of [bs] have been created and added to the
    world, one after the other, and no body that existed has been written;
    no constraint has been created. *)
Definition placed (e e' : Env) (bs : list PhysicsBody) : Prop :=
  calm e e' /\
  map body bs = seq (nextBody e) (List.length bs) /\
  nextBody e' = nextBody e + List.length bs /\
  worldBodies e' = worldBodies e ++ map body bs /\
  nextConstraint e' = nextConstraint e /\
  worldConstraints e' = worldConstraints e /\
  forall h, h < nextBody e -> store e' h = store e h.

(** From [e] to [e'] the constraints of [ms] have been created and added to
    the world, one after the other; but for the draws, nothing else has
    changed. *)
Definition built (e e' : Env) (ms : list Muscle) : Prop :=
  steady e e' /\
  map (fun m => cid (constraint m)) ms
  = seq (nextConstraint e) (List.length ms) /\
  nextConstraint e' = nextConstraint e + List.length ms /\
  worldConstraints e' =
  worldConstraints e ++ map (fun m => cid (constraint m)) ms.

(** Muscle [m] joins body [i] of [bs] to the next one around the ring. *)
Definition linkAt (bs : list PhysicsBody) (i : nat) (m : Muscle) : Prop :=
  exists a b,
    nth_error bs i = Some a /\
    nth_error bs ((i + 1) mod List.length bs) = Some b /\
    bodyA (constraint m) = Some (body a) /\
    bodyB (constraint m) = Some (body b).

(** Both ends of [m] are bodies of [bs], and not the same one. *)
Definition linked (bs : list PhysicsBody) (m : Muscle) : Prop :=
  exists a b,
    In a bs /\ In b bs /\ body a <> body b /\
    bodyA (constraint m) = Some (body a) /\
    bodyB (constraint m) = Some (body b).

(** Stand-ins for [Math] with a cosine and a sine inside [-1, 1]. *)
Definition flatMath : JS.MathLib :=
  {| JS.Math_sqrt := JS.Math_sqrt sampleMath;
     JS.Math_cos := fun _ => 1%Q;
     JS.Math_sin := fun _ => 0%Q;
     JS.Math_PI := JS.Math_PI sampleMath |}.

(** The place and the state of the copy of a body: its offset from the
    point [(originX, originY)], scaled, from [(centerX, centerY)]. *)
Definition clonedAt (originX originY centerX centerY scale : Q)
  (original copy : Body) : Prop :=
  position copy
  = {| x := centerX + (x (position original) - originX) * scale;
       y := centerY + (y (position original) - originY) * scale |} /\
  velocity copy = {| x := 0; y := 0 |} /\
  angularVelocity copy = 0%Q /\
  isStatic copy = false.

(** What [clone] makes of the muscle [m], of a creature with the bodies
    [bs], given the copies [cb] of the bodies. *)
Definition clonedMuscle (bs cb : list PhysicsBody) (m m' : Muscle) : Prop :=
  (exists i j a b a' b',
      (nth_error bs i = Some a /\ nth_error bs j = Some b) /\
      (bodyA (constraint m) = Some (body a) /\
       bodyB (constraint m) = Some (body b)) /\
      (nth_error cb i = Some a' /\ nth_error cb j = Some b') /\
      (bodyA (constraint m') = Some (body a') /\
       bodyB (constraint m') = Some (body b'))) /\
  (restLength (config m') = restLength (config m) /\
   stiffness (config m') = stiffness (config m) /\
   activationType (config m') = activationType (config m) /\
   length (constraint m') = restLength (config m)) /\
  (exists k,
      ((95 # 100 <= k)%Q /\ (k <= 105 # 100)%Q) /\
      period (config m')
      = Some (JS.nullish (period (config m)) 1000 * k)%Q) /\
  (exists k,
      ((98 # 100 <= k)%Q /\ (k <= 102 # 100)%Q) /\
      extensionFactor (config m')
      = Some (JS.nullish (extensionFactor (config m)) (12 # 10) * k)%Q) /\
  timer m' = 0%Q /\ active m' = false.

(** A creature of two bodies and one muscle, in an environment where its
    bodies exist. *)
Definition biped : Creature :=
  {| addr := 0; bodies := [ {| body := 0 |}; {| body := 1 |} ];
     muscles := [ sample_muscle ]; bornAt := 0; maxX := 0; id := 7 |}.

Definition settledEnv : Env :=
  {| store := fun h => circle (inject_Z (Z.of_nat h) * 30) 500;
     nextBody := 2; nextConstraint := 1; nextObject := 1;
     worldBodies := [0; 1]; worldConstraints := [0];
     random := sampleRandom; drawn := 0; clock := 0 |}.

End MoreSpec.

(** * Properties *)
(** ** Properties of [Creature.ts] *)

Module CreatureFacts.
Import Matter Creature SampleData.

Lemma Math_max_from_ge (xs : list Q) (a : Q) :
(a <= JS.Math_max_from a xs)%Q.
Proof.
unfold JS.Math_max_from.
revert a; induction xs as [|v xs IH]; intros a; simpl.
- apply Qle_refl.
- eapply Qle_trans; [apply Q.le_max_l | apply IH].
Qed.

Lemma Math_max_from_upper (xs : list Q) (a v : Q) :
In v xs -> (v <= JS.Math_max_from a xs)%Q.
Proof.
unfold JS.Math_max_from.
revert a; induction xs as [|w xs IH]; intros a [].
- subst w. simpl. eapply Qle_trans; [apply Q.le_max_r |].
  apply (Math_max_from_ge xs).
- simpl. now apply IH.
Qed.

Lemma Creature_update_maxX st delta groundY c :
(maxX c <= maxX (Creature_update st delta groundY c))%Q.
Proof. simpl. apply Math_max_from_ge. Qed.

Lemma Creature_updates_app fs gs c :
Creature_updates (fs ++ gs) c = Creature_updates gs (Creature_updates fs c).
Proof. unfold Creature_updates. apply fold_left_app. Qed.

Lemma Creature_updates_maxX fs c :
(maxX c <= maxX (Creature_updates fs c))%Q.
Proof.
revert c; induction fs as [|[[st d] g] fs IH]; intros c; simpl.
- apply Qle_refl.
- eapply Qle_trans; [apply (Creature_update_maxX st d g) | apply IH].
Qed.

(** C5. [maxX] never decreases: one call of [Creature.update] leaves it
  greater than or equal to its previous value, whatever the positions of
  the bodies, and so does any further sequence of calls after any
  sequence of calls. *)
Theorem maxX_non_decreasing :
(forall st delta groundY c,
    (maxX c <= maxX (Creature_update st delta groundY c))%Q) /\
(forall fs gs c,
    (maxX (Creature_updates fs c)
     <= maxX (Creature_updates (fs ++ gs) c))%Q).
Proof.
split.
- apply Creature_update_maxX.
- intros fs gs c. rewrite Creature_updates_app. apply Creature_updates_maxX.
Qed.

Lemma activate_periodic st delta groundY m p :
  activationType (config m) = periodic ->
  period (config m) = Some p ->
  activate st delta groundY m
  = if Qle_bool p (timer m + delta)
    then (0%Q, negb (active m))
    else ((timer m + delta)%Q, active m).
Proof.
  intros Ht Hp. unfold activate. rewrite Ht, Hp. reflexivity.
Qed.

Lemma Muscle_update_fields st delta groundY m :
  timer (Muscle_update st delta groundY m) = fst (activate st delta groundY m) /\
  active (Muscle_update st delta groundY m) = snd (activate st delta groundY m) /\
  config (Muscle_update st delta groundY m) = config m.
Proof.
  unfold Muscle_update. destruct (activate st delta groundY m); auto.
Qed.

(** C6. A muscle whose activation type is periodic adds [delta] to its timer
    on each update and, exactly when the sum has reached the period, flips
    [active] and resets the timer to 0.  With a period of 100, at rest and
    inactive, ten updates of 16 leave [active] false for six updates, flip
    it at the seventh (the timer reached 112) and keep it true up to the
    tenth. *)
Theorem periodic_muscle_toggles :
  (forall st delta groundY m p,
      activationType (config m) = periodic ->
      period (config m) = Some p ->
      let m' := Muscle_update st delta groundY m in
      ((p <= timer m + delta)%Q ->
       active m' = negb (active m) /\ timer m' = 0%Q) /\
      (~ (p <= timer m + delta)%Q ->
       active m' = active m /\ timer m' = (timer m + delta)%Q)) /\
  (forall st groundY m,
      activationType (config m) = periodic ->
      period (config m) = Some 100%Q ->
      timer m = 0%Q ->
      active m = false ->
      let trace := Muscle_trace st 16 groundY 10 m in
      map active trace
      = [false; false; false; false; false; false; true; true; true; true] /\
      map timer trace
      = [16; 32; 48; 64; 80; 96; 0; 16; 32; 48]%Q).
Proof.
  split.
  - intros st delta groundY m p Ht Hp m'.
    destruct (Muscle_update_fields st delta groundY m) as (Et & Ea & _).
    fold m' in Et, Ea.
    rewrite (activate_periodic st delta groundY m p Ht Hp) in Et, Ea.
    split; intros H.
    + apply Qle_bool_iff in H. rewrite H in Et, Ea. auto.
    + destruct (Qle_bool p (timer m + delta)) eqn:E.
      * apply Qle_bool_iff in E. contradiction.
      * auto.
  - intros st groundY [c [rl sf ty pe ex] t a]. simpl.
    intros -> -> -> ->. split; reflexivity.
Qed.

Lemma periodic_muscle_toggles_witness :
  let st : Store := fun _ => circle 0 0 in
  (active (Muscle_update st 16 600 sample_muscle) = active sample_muscle /\
   timer (Muscle_update st 16 600 sample_muscle) = (0 + 16)%Q) /\
  map active (Muscle_trace st 16 600 10 sample_muscle)
  = [false; false; false; false; false; false; true; true; true; true].
Proof.
  intros st. split.
  - apply (proj1 periodic_muscle_toggles st 16%Q 600%Q sample_muscle 100%Q
             eq_refl eq_refl).
    vm_compute. intros H. apply H. reflexivity.
  - apply (proj2 periodic_muscle_toggles st 600%Q sample_muscle
             eq_refl eq_refl eq_refl eq_refl).
Defined.

End CreatureFacts.



(** ** Properties of [SimulationController]: freezing and the leaderboard *)

Module ControllerFacts.
Import Matter Creature Eff Generator Controller ControllerSpec.

Lemma frozen_idempotent b : frozen (frozen b) = frozen b.
Proof. reflexivity. Qed.

Lemma freezeBodies_store bs e h :
  store (freezeBodies bs e) h
  = if existsb (fun b => Nat.eqb h (body b)) bs
    then frozen (store e h) else store e h.
Proof.
  unfold freezeBodies.
  revert e; induction bs as [|b bs IH]; intros e; simpl; [reflexivity|].
  rewrite IH. simpl. unfold write.
  destruct (Nat.eqb h (body b)) eqn:E; simpl.
  - apply Nat.eqb_eq in E. subst h.
    destruct (existsb _ bs); reflexivity.
  - reflexivity.
Qed.

Lemma freezeBodies_frame bs e :
  let e' := freezeBodies bs e in
  nextBody e' = nextBody e /\ nextConstraint e' = nextConstraint e /\
  nextObject e' = nextObject e /\ worldBodies e' = worldBodies e /\
  worldConstraints e' = worldConstraints e /\ random e' = random e /\
  drawn e' = drawn e /\ clock e' = clock e.
Proof.
  unfold freezeBodies.
  revert e; induction bs as [|b bs IH]; intros e; simpl.
  - repeat split.
  - specialize (IH (with_store e (write (store e) (body b)
                                        (frozen (store e (body b)))))).
    simpl in IH. exact IH.
Qed.

Lemma set_add_idempotent (s : JS.SetOf Q) k :
  JS.set_add Qeq_bool (JS.set_add Qeq_bool s k) k = JS.set_add Qeq_bool s k.
Proof.
  unfold JS.set_add.
  destruct (existsb (Qeq_bool k) s) eqn:E.
  - now rewrite E.
  - rewrite existsb_app. simpl.
    assert (Qeq_bool k k = true) as -> by (apply Qeq_bool_iff; reflexivity).
    now rewrite orb_true_r.
Qed.

(** C10. Freezing a creature leaves each of its bodies static, with velocity
    (0, 0) and angular velocity 0; freezing it a second time changes neither
    the controller nor any body, nor anything else of the environment. *)
Theorem freezeCreature_idempotent :
  forall creature c e,
    let s1 := freezeCreature creature c e in
    let s2 := freezeCreature creature (fst s1) (snd s1) in
    (forall b, In b (bodies creature) ->
               isStatic (store (snd s1) (body b)) = true /\
               velocity (store (snd s1) (body b)) = {| x := 0; y := 0 |} /\
               angularVelocity (store (snd s1) (body b)) = 0%Q) /\
    fst s2 = fst s1 /\
    (forall h, store (snd s2) h = store (snd s1) h) /\
    nextBody (snd s2) = nextBody (snd s1) /\
    nextConstraint (snd s2) = nextConstraint (snd s1) /\
    nextObject (snd s2) = nextObject (snd s1) /\
    worldBodies (snd s2) = worldBodies (snd s1) /\
    worldConstraints (snd s2) = worldConstraints (snd s1) /\
    random (snd s2) = random (snd s1) /\
    drawn (snd s2) = drawn (snd s1) /\
    clock (snd s2) = clock (snd s1).
Proof.
  intros creature c e s1 s2.
  assert (E1 : snd s1 = freezeBodies (bodies creature) e) by reflexivity.
  assert (E2 : snd s2 = freezeBodies (bodies creature) (snd s1)) by reflexivity.
  split; [|split; [|split]].
  - intros b Hb. rewrite E1, freezeBodies_store.
    assert (existsb (fun b0 => Nat.eqb (body b) (body b0)) (bodies creature)
            = true) as ->.
    { apply existsb_exists. exists b. split; [exact Hb | apply Nat.eqb_refl]. }
    repeat split.
  - unfold s2, s1, freezeCreature, with_deadCreatures; simpl.
    now rewrite set_add_idempotent.
  - intros h. rewrite E2, freezeBodies_store, E1, freezeBodies_store.
    destruct (existsb _ (bodies creature)); reflexivity.
  - rewrite E2.
    destruct (freezeBodies_frame (bodies creature) (snd s1))
      as (A & B & C & D & F & G & H & I).
    repeat split; assumption.
Qed.

(** The leaderboard of the controller. *)

Lemma updateTop3HighScores_empty c :
  allCreatures c = [] ->
  top3HighScores (updateTop3HighScores c) = [] /\
  allCreatures (updateTop3HighScores c) = [].
Proof.
  intros H. unfold updateTop3HighScores. rewrite H. simpl. auto.
Qed.

Lemma getTop3HighScores_empty c :
  top3HighScores c = [] -> getTop3HighScores c = [].
Proof. intros H. unfold getTop3HighScores. now rewrite H. Qed.

Section Reachable.
Variable fl : JS.MathLib.
Variable cfg : VisualConfig.
Variable Engine_update : Env -> Q -> Store.

Lemma run_invariant (P : SimulationController * Env -> Prop) :
  (forall ev s s', P s -> step fl cfg Engine_update ev s = Some s' -> P s') ->
  forall evs s s',
    P s -> run fl cfg Engine_update evs s = Some s' -> P s'.
Proof.
  intros Hstep evs; induction evs as [|ev evs IH]; intros s s' Hs; simpl.
  - intros H; injection H as <-; exact Hs.
  - destruct (step fl cfg Engine_update ev s) as [s1|] eqn:E; [|discriminate].
    apply IH. eapply Hstep; eauto.
Qed.

Lemma cull_allCreatures c e :
  allCreatures (fst (cull c e)) = allCreatures c /\
  top3HighScores (fst (cull c e)) = top3HighScores c.
Proof.
  unfold cull.
  destruct (generationSize <=? _); [|auto].
  destruct (JS.reduce older _) as [oldest|]; [|auto].
  destruct (World.removeCreature _ _ _) as [w e1]. auto.
Qed.

(** What a trickle step that returns has done. *)
Lemma trickleAddCreature_inv c e c' e' :
  trickleAddCreature fl cfg c e = Some (c', e') ->
  exists cr,
    createRandomCreature fl cfg (snd (cull c e)) = Some (cr, e') /\
    creatures c' = creatures (fst (cull c e)) ++ [set_bornAt (clock e') cr] /\
    allCreatures c' = allCreatures (fst (cull c e)) /\
    top3HighScores c' = top3HighScores (fst (cull c e)).
Proof.
  unfold trickleAddCreature.
  destruct (cull c e) as [c1 e1]. unfold bind; simpl.
  destruct (createRandomCreature fl cfg e1) as [[cr e2]|]; [|discriminate].
  unfold Date_now, gets, ret.
  intros H. exists cr.
  destruct (_ =? 0); injection H as <- <-; auto.
Qed.

Lemma tick_allCreatures now s creature :
  allCreatures (fst (tick cfg now s creature)) = allCreatures (fst s).
Proof.
  destruct s as [c e]. unfold tick.
  destruct (lifetime <? _)%Z; reflexivity.
Qed.

Lemma ticks_allCreatures now cs s :
  allCreatures (fst (fold_left (tick cfg now) cs s)) = allCreatures (fst s).
Proof.
  revert s; induction cs as [|cr cs IH]; intros s; simpl; [reflexivity|].
  rewrite IH. apply tick_allCreatures.
Qed.

Lemma mainLoop_allCreatures c e :
  allCreatures c = [] ->
  allCreatures (fst (mainLoop cfg c e)) = [] /\
  top3HighScores (fst (mainLoop cfg c e)) = [].
Proof.
  intros H. unfold mainLoop.
  pose proof (ticks_allCreatures (clock e) (creatures c) (c, e)) as T.
  destruct (fold_left _ _ _) as [c1 e1]. simpl in *.
  rewrite H in T.
  destruct (updateTop3HighScores_empty c1 T). auto.
Qed.

Lemma step_leaderboard_empty ev s s' :
  leaderboard_empty s -> step fl cfg Engine_update ev s = Some s' ->
  leaderboard_empty s'.
Proof.
  destruct s as [c e]. intros [Ha Ht]. simpl in Ha, Ht.
  destruct ev as [now|now|now]; unfold step.
  - intros H. destruct s' as [c' e'].
    apply trickleAddCreature_inv in H. destruct H as (cr & _ & _ & Ea & Et).
    destruct (cull_allCreatures c (with_clock e now)) as [Ca Ct].
    split; simpl; congruence.
  - intros H; injection H as <-.
    apply mainLoop_allCreatures. exact Ha.
  - destruct (World.updateLoop _ _ _) as [w e1].
    intros H; injection H as <-. split; assumption.
Qed.

Lemma construct_leaderboard_empty e :
  leaderboard_empty (construct cfg Engine_update e).
Proof.
  unfold construct. destruct (World.updateLoop _ _ _) as [w e1].
  apply mainLoop_allCreatures. reflexivity.
Qed.

End Reachable.

(** C2. In every state the controller reaches from its construction, by any
    sequence of trickle steps, frames and world frames, [allCreatures] is
    empty and the leaderboard is empty; refreshing it again leaves
    [getTop3HighScores()] empty, whatever creatures are alive. *)
Theorem allCreatures_always_empty :
  forall fl cfg Engine_update evs e0 c e,
    run fl cfg Engine_update evs (construct cfg Engine_update e0) = Some (c, e) ->
    allCreatures c = [] /\
    getTop3HighScores c = [] /\
    getTop3HighScores (updateTop3HighScores c) = [].
Proof.
  intros fl cfg eu evs e0 c e H.
  assert (I : leaderboard_empty (c, e)).
  { eapply run_invariant; [| apply construct_leaderboard_empty | exact H].
    intros ev s s'. apply step_leaderboard_empty. }
  destruct I as [Ha Ht]. simpl in Ha, Ht.
  split; [exact Ha|]. split.
  - now apply getTop3HighScores_empty.
  - apply getTop3HighScores_empty. now apply updateTop3HighScores_empty.
Qed.

End ControllerFacts.



(** ** Properties of [CreatureGenerator] *)

Module GeneratorFacts.
Import Matter Creature Eff Generator GeneratorSpec.

Lemma steady_refl e : steady e e.
Proof. split; reflexivity. Qed.

Lemma steady_trans e1 e2 e3 : steady e1 e2 -> steady e2 e3 -> steady e1 e3.
Proof. intros [] []; split; congruence. Qed.

Lemma steady_calm e e' : steady e e' -> calm e e'.
Proof. intros []; split; assumption. Qed.

Lemma calm_refl e : calm e e.
Proof. split; reflexivity. Qed.

Lemma calm_trans e1 e2 e3 : calm e1 e2 -> calm e2 e3 -> calm e1 e3.
Proof. intros [] []; split; congruence. Qed.

Lemma calm_valid e e' : calm e e' -> validRandom e -> validRandom e'.
Proof. intros [_ R _] V n. rewrite R. apply V. Qed.

Lemma steady_valid e e' : steady e e' -> validRandom e -> validRandom e'.
Proof. intros S. apply calm_valid, steady_calm, S. Qed.

Create HintDb eff.
#[local] Hint Resolve steady_refl steady_trans calm_refl calm_trans
  steady_calm calm_valid steady_valid : eff.

Lemma returns_ret {A} (a : A) e (post : A -> Env -> Prop) :
  post a e -> returns (ret a) e post.
Proof. intros H. exists a, e. auto. Qed.

Lemma returns_bind {A B} (m : M A) (f : A -> M B) e post :
  returns m e (fun a e' => returns (f a) e' post) ->
  returns (bind m f) e post.
Proof.
  intros (a & e1 & E & b & e2 & F & H).
  exists b, e2. unfold bind. rewrite E. auto.
Qed.

Lemma returns_weaken {A} (m : M A) e (p q : A -> Env -> Prop) :
  returns m e p -> (forall a e', p a e' -> q a e') -> returns m e q.
Proof. intros (a & e' & E & H) W. exists a, e'. auto. Qed.

Lemma returns_gets {A} (f : Env -> A) e post :
  post (f e) e -> returns (gets f) e post.
Proof. intros H. exists (f e), e. auto. Qed.

Lemma Math_random_returns e :
  validRandom e ->
  returns Math_random e
    (fun r e' => (0 <= r)%Q /\ (r < 1)%Q /\ steady e e').
Proof.
  intros V. eexists _, _. split; [reflexivity|].
  destruct (V (drawn e)). repeat split; assumption.
Qed.

(** [Math.floor(Math.random() * n)] is an index below [n]. *)
Lemma floor_scaled r (n : Z) :
  (0 <= r)%Q -> (r < 1)%Q -> (0 < n)%Z ->
  (0 <= JS.Math_floor (r * inject_Z n) < n)%Z.
Proof.
  intros H0 H1 Hn. unfold JS.Math_floor.
  pose proof Hn as Hq. rewrite Zlt_Qlt in Hq.
  change (inject_Z 0) with 0%Q in Hq.
  split.
  - change 0%Z with (Qfloor 0). apply Qfloor_resp_le. nra.
  - rewrite Zlt_Qlt.
    eapply Qle_lt_trans; [apply Qfloor_le|]. nra.
Qed.

Lemma at_in_range {A} (l : list A) (i : Z) :
  (0 <= i < Z.of_nat (List.length l))%Z ->
  exists a, JS.at_ l i = Some a /\ nth_error l (Z.to_nat i) = Some a /\ In a l.
Proof.
  intros [H0 H1]. unfold JS.at_.
  destruct (i <? 0)%Z eqn:E; [apply Z.ltb_lt in E; lia|].
  destruct (nth_error l (Z.to_nat i)) as [a|] eqn:N.
  - exists a. repeat split. eapply nth_error_In; eauto.
  - apply nth_error_None in N. lia.
Qed.

Lemma randomMuscle_returns a b distance s0 s1 p0 p1 x0 x1 e :
  validRandom e -> (0 < s1)%Q -> (0 < p1)%Q -> (0 < x1)%Q ->
  returns (randomMuscle a b distance s0 s1 p0 p1 x0 x1) e
    (fun m e' => steady e e' /\ drawnMuscle a b distance s0 s1 p0 p1 x0 x1 m).
Proof.
  intros V Hs Hp Hx. unfold randomMuscle.
  destruct (V (drawn e)) as [A1 B1].
  destruct (V (S (drawn e))) as [A2 B2].
  destruct (V (S (S (drawn e)))) as [A3 B3].
  destruct (V (S (S (S (drawn e))))) as [A4 B4].
  eexists _, _. split; [reflexivity|]. split.
  - split; reflexivity.
  - split; simpl; try reflexivity.
    + split; nra.
    + eexists; split; [reflexivity|]. split; nra.
    + eexists; split; [reflexivity|]. split; nra.
Qed.

(** *** Connectivity repair *)

Lemma incident_app ms ms' b :
  incident (ms ++ ms') b = incident ms b + incident ms' b.
Proof. unfold incident. now rewrite map_app, list_sum_app. Qed.

Lemma same_spec a b : same a b = true <-> body a = body b.
Proof. unfold same. apply Nat.eqb_eq. Qed.

Lemma same_false a b : same a b = false <-> body a <> body b.
Proof. unfold same. apply Nat.eqb_neq. Qed.

Lemma degree_set cm t v b :
  degree (JS.set same cm t v) b = if same b t then v else degree cm b.
Proof.
  unfold degree.
  induction cm as [|[k w] cm IH]; simpl.
  - destruct (same b t); reflexivity.
  - destruct (same t k) eqn:Etk; simpl.
    + destruct (same b k) eqn:Ebk, (same b t) eqn:Ebt;
        try reflexivity; exfalso;
        rewrite ?same_spec, ?same_false in *; congruence.
    + destruct (same b k) eqn:Ebk.
      * destruct (same b t) eqn:Ebt; [exfalso|reflexivity].
        rewrite ?same_spec, ?same_false in *; congruence.
      * exact IH.
Qed.

Lemma degree_same cm a b : body a = body b -> degree cm a = degree cm b.
Proof.
  intros H. unfold degree.
  induction cm as [|[k w] cm IH]; simpl; [reflexivity|].
  unfold same at 1 3. rewrite H.
  destruct (Nat.eqb (body b) (body k)); [reflexivity | exact IH].
Qed.

Lemma degree_increment cm t b :
  degree (increment cm t) b = degree cm b + (if same b t then 1 else 0).
Proof.
  unfold increment. rewrite degree_set.
  destruct (same b t) eqn:E; [|lia].
  apply same_spec in E. now rewrite (degree_same cm _ _ E).
Qed.

Lemma findBody_some bs h a : findBody bs h = Some a -> h = Some (body a).
Proof.
  unfold findBody. intros H. apply find_some in H. destruct H as [_ H].
  destruct h as [h|]; [|discriminate].
  apply Nat.eqb_eq in H. now subst.
Qed.

Lemma findBody_none bs h b : findBody bs h = None -> In b bs -> touches h b = 0.
Proof.
  unfold findBody, touches. intros H Hb.
  destruct h as [h|]; [|reflexivity].
  now rewrite (find_none _ _ H b Hb).
Qed.

Lemma touches_same h a b : h = Some (body a) ->
  touches h b = if same b a then 1 else 0.
Proof. intros ->. reflexivity. Qed.

Lemma countEnds_degree bs cm m b :
  In b bs -> degree (countEnds bs cm m) b = degree cm b + ends m b.
Proof.
  intros Hb. unfold countEnds, ends.
  destruct (findBody bs (bodyA (constraint m))) as [a|] eqn:EA;
    destruct (findBody bs (bodyB (constraint m))) as [t|] eqn:EB;
    rewrite ?degree_increment;
    try (rewrite (touches_same _ _ b (findBody_some _ _ _ EA)));
    try (rewrite (touches_same _ _ b (findBody_some _ _ _ EB)));
    try (rewrite (findBody_none _ _ b EA Hb));
    try (rewrite (findBody_none _ _ b EB Hb)); lia.
Qed.

Lemma countAll_degree bs ms cm b :
  In b bs ->
  degree (fold_left (countEnds bs) ms cm) b = degree cm b + incident ms b.
Proof.
  intros Hb. revert cm; induction ms as [|m ms IH]; intros cm; simpl.
  - unfold incident; simpl; lia.
  - rewrite IH, (countEnds_degree _ _ _ _ Hb). unfold incident. simpl. lia.
Qed.

Lemma zeroed_degree (l : list PhysicsBody) cm b :
  (forall k, degree cm k = 0) ->
  degree (fold_left (fun cm b => JS.set same cm b 0) l cm) b = 0.
Proof.
  revert cm; induction l as [|t l IH]; intros cm H; simpl; [apply H|].
  apply IH. intros k. rewrite degree_set. destruct (same k t); auto.
Qed.

Lemma initialConnections_degree bs ms b :
  In b bs -> degree (initialConnections bs ms) b = incident ms b.
Proof.
  intros Hb. unfold initialConnections.
  rewrite (countAll_degree _ _ _ _ Hb), zeroed_degree; auto.
Qed.

Lemma settled_grown bs s s' b : grown s s' -> settled bs s b -> settled bs s' b.
Proof.
  intros G [H|H]; [left|right].
  - specialize (G b). lia.
  - intros t Ht Hn. specialize (H t Ht Hn). specialize (G t). lia.
Qed.

Lemma potentialTargets_in bs cm b t :
  In t (potentialTargets bs cm b) ->
  In t bs /\ body t <> body b /\ degree cm t < 2.
Proof.
  unfold potentialTargets. intros H. apply filter_In in H.
  destruct H as [Ht H]. apply andb_prop in H. destruct H as [H1 H2].
  apply negb_true_iff, same_false in H1. apply Nat.ltb_lt in H2. auto.
Qed.

Lemma potentialTargets_nil bs cm b :
  potentialTargets bs cm b = [] ->
  forall t, In t bs -> body t <> body b -> 2 <= degree cm t.
Proof.
  unfold potentialTargets. intros H t Ht Hn.
  destruct (degree cm t <? 2) eqn:E.
  - assert (In t (filter (fun target => negb (same target b)
                                         && (degree cm target <? 2)) bs)).
    { apply filter_In. split; [exact Ht|]. rewrite E.
      apply same_false in Hn. now rewrite Hn. }
    rewrite H in H0. destruct H0.
  - apply Nat.ltb_ge in E. exact E.
Qed.

Section Repair.
Variable fl : JS.MathLib.

Lemma connectWhile_body bs b s e :
  connectWhile fl bs b s e
  = if degree (connectionMap s) b <? 2
    then match connectOnce fl bs b s e with
         | None => None
         | Some (None, e') => Some (s, e')
         | Some (Some s', e') => connectWhile fl bs b s' e'
         end
    else Some (s, e).
Proof.
  funelim (connectWhile fl bs b s e);
    match goal with H : (_ <? _) = _ |- _ => rewrite H end;
    try match goal with H : connectOnce _ _ _ _ _ = _ |- _ => rewrite H end;
    reflexivity.
Qed.

(** One round, entered with a deficient [b]: it breaks on no partner, or it
    pushes a muscle from [b] to a partner that is deficient too. *)
Lemma connectOnce_returns bs b s e :
  validRandom e ->
  returns (connectOnce fl bs b s) e
    (fun r e' =>
       steady e e' /\
       match r with
       | None => potentialTargets bs (connectionMap s) b = []
       | Some s' =>
           exists t m,
             In t (potentialTargets bs (connectionMap s) b) /\
             bodyA (constraint m) = Some (body b) /\
             bodyB (constraint m) = Some (body t) /\
             connectionMap s'
             = increment (increment (connectionMap s) b) t /\
             repaired s' = repaired s ++ [m]
       end).
Proof.
  intros V. unfold connectOnce.
  destruct (potentialTargets bs (connectionMap s) b) as [|t0 ts] eqn:ET.
  { apply returns_ret. split; [apply steady_refl | reflexivity]. }
  rewrite <- ET. apply returns_bind.
  eapply returns_weaken; [apply (Math_random_returns _ V)|].
  intros r e1 (R0 & R1 & S1).
  assert (L : (0 < Z.of_nat (List.length (potentialTargets bs (connectionMap s) b)))%Z)
    by (rewrite ET; simpl; lia).
  destruct (at_in_range _ _ (floor_scaled _ _ R0 R1 L)) as (t & -> & _ & Ht).
  apply returns_bind, returns_gets, returns_bind.
  eapply returns_weaken.
  { apply randomMuscle_returns; [eauto with eff | reflexivity ..]. }
  intros m e2 (S2 & D). apply returns_ret. split; [eauto with eff|].
  exists t, m. simpl. destruct D. auto.
Qed.

(** The [while] loop on [b] returns, with [b] settled. *)
Lemma connectWhile_returns bs ms0 b :
  In b bs ->
  forall n s e,
    2 - degree (connectionMap s) b <= n ->
    validRandom e -> counted bs s -> repairs bs ms0 (repaired s) ->
    exists s' e',
      connectWhile fl bs b s e = Some (s', e') /\
      steady e e' /\ counted bs s' /\ repairs bs ms0 (repaired s') /\
      grown s s' /\ settled bs s' b.
Proof.
  intros Hb n; induction n as [|n IH]; intros s e Hn V C R;
    rewrite connectWhile_body;
    destruct (degree (connectionMap s) b <? 2) eqn:E.
  - apply Nat.ltb_lt in E. lia.
  - apply Nat.ltb_ge in E. exists s, e.
    split; [reflexivity|]. split; [apply steady_refl|].
    do 2 (split; [assumption|]). split; [intros t; lia | now left].
  - apply Nat.ltb_lt in E.
    destruct (connectOnce_returns bs b s e V) as (r & e1 & -> & S1 & H).
    destruct r as [s1|].
    + destruct H as (t & m & Ht & HA & HB & Ecm & Ems).
      apply potentialTargets_in in Ht. destruct Ht as (Ht & Hne & Hdt).
      assert (C1 : counted bs s1).
      { intros k Hk. rewrite Ecm, Ems, incident_app, !degree_increment.
        rewrite (C k Hk). change (incident [m] k) with (ends m k + 0).
        unfold ends. rewrite HA, HB. unfold touches, same. lia. }
      assert (G1 : grown s s1).
      { intros k. rewrite Ecm, !degree_increment. lia. }
      assert (D1 : degree (connectionMap s1) b = degree (connectionMap s) b + 1).
      { rewrite Ecm, !degree_increment.
        assert (same b b = true) as -> by now apply same_spec.
        assert (same b t = false) as ->
            by (apply same_false; congruence).
        lia. }
      assert (R1 : repairs bs ms0 (repaired s1)).
      { rewrite Ems. eapply repairs_push with (a := b) (t := t); eauto.
        - rewrite <- (C b Hb). exact E.
        - rewrite <- (C t Ht). exact Hdt. }
      destruct (IH s1 e1) as (s' & e' & -> & S' & C' & R' & G' & T');
        eauto with eff; [lia|].
      exists s', e'.
      split; [reflexivity|]. split; [eauto with eff|].
      do 2 (split; [assumption|]). split; [|assumption].
      intros k. specialize (G1 k). specialize (G' k). lia.
    + exists s, e1.
      split; [reflexivity|]. split; [assumption|].
      do 2 (split; [assumption|]). split; [intros t; lia|].
      right. now apply potentialTargets_nil.
  - apply Nat.ltb_ge in E. exists s, e.
    split; [reflexivity|]. split; [apply steady_refl|].
    do 2 (split; [assumption|]). split; [intros t; lia | now left].
Qed.

Lemma repairAll_returns bs ms0 l :
  incl l bs ->
  forall done s e,
    validRandom e -> counted bs s -> repairs bs ms0 (repaired s) ->
    (forall b, In b done -> settled bs s b) ->
    exists s' e',
      foldM (fun s b => connectWhile fl bs b s) l s e = Some (s', e') /\
      steady e e' /\ counted bs s' /\ repairs bs ms0 (repaired s') /\
      (forall b, In b done \/ In b l -> settled bs s' b).
Proof.
  induction l as [|b l IH]; intros Hl done s e V C R D; simpl.
  - exists s, e.
    split; [reflexivity|]. split; [apply steady_refl|].
    do 2 (split; [assumption|]).
    intros b [H|[]]. auto.
  - assert (Hb : In b bs) by (apply Hl; now left).
    destruct (connectWhile_returns bs ms0 b Hb _ s e (le_n _) V C R)
      as (s1 & e1 & E1 & S1 & C1 & R1 & G1 & T1).
    unfold bind at 1. rewrite E1.
    destruct (IH (fun k Hk => Hl k (or_intror Hk)) (b :: done) s1 e1)
      as (s' & e' & E' & S' & C' & R' & D'); eauto with eff.
    { intros k [<-|Hk]; [exact T1|]. eapply settled_grown; eauto. }
    exists s', e'.
    split; [exact E'|]. split; [eauto with eff|].
    do 2 (split; [assumption|]).
    intros k [Hk|[<-|Hk]]; apply D'; simpl; auto.
Qed.

Lemma ensureMinimumConnections_returns bs ms e :
  validRandom e ->
  returns (ensureMinimumConnections fl bs ms) e
    (fun ms' e' =>
       steady e e' /\
       repairs bs ms ms' /\
       (forall a b, In a bs -> In b bs ->
                    incident ms' a < 2 -> incident ms' b < 2 ->
                    body a = body b)).
Proof.
  intros V. unfold ensureMinimumConnections.
  destruct (repairAll_returns bs ms bs (incl_refl bs) []
              {| connectionMap := initialConnections bs ms; repaired := ms |}
              e V)
    as (s' & e' & E & S & C & R & D).
  - intros t Ht. simpl. now apply initialConnections_degree.
  - apply repairs_none.
  - intros b [].
  - exists (repaired s'), e'. unfold bind. rewrite E. split; [reflexivity|].
    split; [exact S|]. split; [exact R|].
    intros a b Ha Hb Da Db.
    destruct (Nat.eq_dec (body a) (body b)) as [|N]; [assumption|exfalso].
    rewrite <- (C a Ha) in Da. rewrite <- (C b Hb) in Db.
    destruct (D a (or_intror Ha)) as [H|H]; [lia|].
    specialize (H b Hb (fun x => N (eq_sym x))). lia.
Qed.

End Repair.

(** C7. [ensureMinimumConnections] returns; what it added to the muscle
    array are muscles between two different bodies that both had fewer than
    two incident muscles at that time; and when it is done two bodies with
    fewer than two incident muscles are one and the same body: a body stays
    below degree 2 only when no other body is left to pair it with. *)
Theorem ensureMinimumConnections_repairs :
  forall fl bs ms e,
    validRandom e ->
    exists ms' e',
      ensureMinimumConnections fl bs ms e = Some (ms', e') /\
      repairs bs ms ms' /\
      (forall a b, In a bs -> In b bs ->
                   incident ms' a < 2 -> incident ms' b < 2 ->
                   body a = body b).
Proof.
  intros fl bs ms e V.
  destruct (ensureMinimumConnections_returns fl bs ms e V)
    as (ms' & e' & E & _ & R & U).
  exists ms', e'. auto.
Qed.

(** *** The ring of a new creature *)

Lemma mapM_returns {A B} (f : A -> M B) (inv : Env -> Prop)
  (P : A -> B -> Prop) l :
  (forall a e, In a l -> inv e ->
               returns (f a) e (fun b e' => inv e' /\ P a b)) ->
  forall e, inv e ->
            returns (mapM f l) e (fun bs e' => inv e' /\ Forall2 P l bs).
Proof.
  induction l as [|a l IH]; intros H e He; simpl.
  - apply returns_ret. auto.
  - apply returns_bind.
    eapply returns_weaken; [apply H; simpl; auto|].
    intros b e1 [I1 Pb]. apply returns_bind.
    eapply returns_weaken; [apply IH; [|exact I1]|].
    + intros a' e' Ha'. apply H. now right.
    + intros bs e2 [I2 F]. apply returns_ret. auto.
Qed.

Lemma foldM_returns {A S} (f : S -> A -> M S) (inv : S -> Env -> Prop) l :
  (forall s a e, In a l -> inv s e -> returns (f s a) e inv) ->
  forall s e, inv s e -> returns (foldM f l s) e inv.
Proof.
  induction l as [|a l IH]; intros H s e He; simpl.
  - apply returns_ret. exact He.
  - apply returns_bind.
    eapply returns_weaken; [apply H; simpl; auto|].
    intros s1 e1 I1. apply IH; [|exact I1].
    intros s' a' e' Ha'. apply H. now right.
Qed.

Lemma Forall2_seq_nth {B} (P : nat -> B -> Prop) n :
  forall a l, Forall2 P (seq a n) l ->
              forall i, i < n ->
                        exists m, nth_error l i = Some m /\ P (a + i) m.
Proof.
  induction n as [|n IH]; intros a l F i Hi; [lia|].
  simpl in F. inversion F as [|x m xs ms Pm F' Ex Em]; subst.
  destruct i as [|i].
  - exists m. rewrite Nat.add_0_r. auto.
  - destruct (IH (S a) ms F' i) as (m' & E & Pm'); [lia|].
    exists m'. simpl. rewrite Nat.add_succ_r. auto.
Qed.

Lemma repairs_extends bs ms ms' :
  repairs bs ms ms' -> exists extra, ms' = ms ++ extra.
Proof.
  induction 1 as [|ms' m a t R [extra ->]].
  - exists []. now rewrite app_nil_r.
  - exists (extra ++ [m]). now rewrite app_assoc.
Qed.

Section Creation.
Variable fl : JS.MathLib.
Variable cfg : VisualConfig.

Lemma placeBody_returns count radius i e :
  validRandom e ->
  returns (placeBody fl cfg count radius i) e (fun _ e' => calm e e').
Proof.
  intros V. unfold placeBody, new_PhysicsBody.
  eexists _, _. split; [reflexivity|]. split; reflexivity.
Qed.

Lemma placeBodies_returns count radius l e :
  validRandom e ->
  returns (mapM (placeBody fl cfg count radius) l) e
    (fun bs e' => calm e e' /\ List.length bs = List.length l).
Proof.
  intros V.
  eapply returns_weaken.
  - apply (mapM_returns (placeBody fl cfg count radius)
             (fun e' => calm e e') (fun _ _ => True)).
    + intros a e1 _ C1.
      eapply returns_weaken;
        [apply placeBody_returns; eauto with eff|].
      simpl. intros b e2 C2. eauto with eff.
    + apply calm_refl.
  - simpl. intros bs e' [C F]. split; [exact C|].
    symmetry. eapply Forall2_length; eauto.
Qed.

Lemma ringMuscle_returns bs i e :
  validRandom e -> i < List.length bs ->
  returns (ringMuscle fl bs (List.length bs) i) e
    (fun m e' => steady e e' /\ ringLink fl (store e) bs i m).
Proof.
  intros V Hi. unfold ringMuscle.
  destruct (nth_error bs i) as [a|] eqn:Ea;
    [|apply nth_error_None in Ea; lia].
  assert (Hn : (i + 1) mod List.length bs < List.length bs)
    by (apply Nat.mod_upper_bound; lia).
  destruct (nth_error bs ((i + 1) mod List.length bs)) as [b|] eqn:Eb;
    [|apply nth_error_None in Eb; lia].
  apply returns_bind, returns_gets.
  eapply returns_weaken.
  { apply randomMuscle_returns; [exact V | reflexivity ..]. }
  simpl. intros m e' [S D]. split; [exact S|].
  exists a, b. auto.
Qed.

Lemma ring_returns bs e :
  validRandom e ->
  returns (mapM (ringMuscle fl bs (List.length bs)) (seq 0 (List.length bs))) e
    (fun ring e' =>
       steady e e' /\
       forall i, i < List.length bs ->
                 exists m, nth_error ring i = Some m /\
                           ringLink fl (store e) bs i m).
Proof.
  intros V.
  eapply returns_weaken.
  - apply (mapM_returns (ringMuscle fl bs (List.length bs))
             (fun e' => steady e e') (ringLink fl (store e) bs)).
    + intros i e1 Hi S1. apply in_seq in Hi.
      eapply returns_weaken;
        [apply ringMuscle_returns; [eauto with eff | lia]|].
      simpl. intros m e2 [S2 L]. split; [eauto with eff|].
      now rewrite <- (steady_store _ _ S1).
    + apply steady_refl.
  - simpl. intros ring e' [S F]. split; [exact S|].
    intros i Hi. apply (Forall2_seq_nth _ _ 0 ring F i Hi).
Qed.

Lemma crossMuscle_returns bs ms k e :
  validRandom e -> 0 < List.length bs ->
  returns (crossMuscle fl bs (List.length bs) ms k) e
    (fun ms' e' => steady e e' /\ exists extra, ms' = ms ++ extra).
Proof.
  intros V Hn. unfold crossMuscle.
  apply returns_bind.
  eapply returns_weaken; [apply (Math_random_returns _ V)|].
  intros ra e1 (A0 & A1 & S1). apply returns_bind.
  eapply returns_weaken; [apply Math_random_returns; eauto with eff|].
  cbv beta. intros rb e2 (B0 & B1 & S2).
  assert (L : (0 < Z.of_nat (List.length bs))%Z) by lia.
  cbv zeta.
  destruct (at_in_range _ _ (floor_scaled _ _ A0 A1 L)) as (a & -> & _ & _).
  destruct (at_in_range _ _ (floor_scaled _ _ B0 B1 L)) as (b & -> & _ & _).
  destruct (same a b).
  - apply returns_ret. split; [eauto with eff|].
    exists []. now rewrite app_nil_r.
  - apply returns_bind, returns_gets, returns_bind.
    eapply returns_weaken.
    { apply randomMuscle_returns; [eauto with eff | reflexivity ..]. }
    simpl. intros m e3 [S3 _]. apply returns_ret.
    split; [eauto with eff|]. now exists [m].
Qed.

Lemma cross_returns bs ms l e :
  validRandom e -> 0 < List.length bs ->
  returns (foldM (crossMuscle fl bs (List.length bs)) l ms) e
    (fun ms' e' => steady e e' /\ exists extra, ms' = ms ++ extra).
Proof.
  intros V Hn.
  apply (foldM_returns (crossMuscle fl bs (List.length bs))
           (fun ms' e' => steady e e' /\ exists extra, ms' = ms ++ extra)).
  - intros ms1 k e1 _ [S1 [x1 ->]].
    eapply returns_weaken;
      [apply crossMuscle_returns; eauto with eff|].
    simpl. intros ms2 e2 [S2 [x2 ->]]. split; [eauto with eff|].
    exists (x1 ++ x2). now rewrite app_assoc.
  - split; [apply steady_refl|]. exists []. now rewrite app_nil_r.
Qed.

Lemma new_Creature_returns bs ms e :
  validRandom e ->
  returns (new_Creature bs ms) e
    (fun c e' =>
       bodies c = bs /\ muscles c = ms /\ addr c = nextObject e /\
       maxX c = 0%Q /\
       nextObject e' = S (nextObject e) /\ store e' = store e /\
       random e' = random e /\ clock e' = clock e).
Proof.
  intros V. unfold new_Creature.
  eexists _, _. split; [reflexivity|]. simpl. repeat split.
Qed.

(** [createRandomCreature] returns a creature at a new address, whose first
    muscles are the ring. *)
Lemma createRandomCreature_returns e :
  validRandom e ->
  returns (createRandomCreature fl cfg) e
    (fun c e' =>
       addr c = nextObject e /\ nextObject e' = S (nextObject e) /\
       random e' = random e /\ clock e' = clock e /\ maxX c = 0%Q /\
       4 <= List.length (bodies c) <= 11 /\
       forall i, i < List.length (bodies c) ->
                 exists m, nth_error (muscles c) i = Some m /\
                           ringLink fl (store e') (bodies c) i m).
Proof.
  intros V. unfold createRandomCreature.
  apply returns_bind.
  eapply returns_weaken; [apply (Math_random_returns _ V)|].
  intros r e1 (R0 & R1 & S1).
  pose proof (floor_scaled r 8 R0 R1 eq_refl) as Hc.
  change (inject_Z 8) with 8%Q in Hc.
  set (count := Z.to_nat (4 + JS.Math_floor (r * 8))).
  assert (Hcount : 4 <= count <= 11) by (unfold count; lia).
  apply returns_bind.
  eapply returns_weaken; [apply Math_random_returns; eauto with eff|].
  simpl. intros rr e2 (_ & _ & S2).
  apply returns_bind.
  eapply returns_weaken; [apply placeBodies_returns; eauto with eff|].
  simpl. intros bs e3 [C3 Hlen]. rewrite length_seq in Hlen.
  assert (V3 : validRandom e3) by eauto 6 with eff.
  rewrite <- Hlen in *. clearbody count.
  apply returns_bind.
  eapply returns_weaken; [apply ring_returns; exact V3|].
  simpl. intros ring e4 [S4 Hring].
  apply returns_bind.
  eapply returns_weaken; [apply Math_random_returns; eauto with eff|].
  simpl. intros rc e5 (_ & _ & S5).
  apply returns_bind.
  eapply returns_weaken; [apply cross_returns; [eauto 6 with eff | lia]|].
  simpl. intros ms e6 [S6 [x6 ->]].
  apply returns_bind.
  eapply returns_weaken;
    [apply ensureMinimumConnections_returns; eauto 8 with eff|].
  simpl. intros ms' e7 (S7 & R7 & _).
  destruct (repairs_extends _ _ _ R7) as [x7 ->].
  assert (S37 : steady e3 e7) by eauto 8 with eff.
  assert (C07 : calm e e7) by eauto 8 with eff.
  eapply returns_weaken; [apply new_Creature_returns; eauto 8 with eff|].
  simpl. intros c e8 (Eb & Em & Ea & Ex & En & Es & Er & Ec).
  destruct C07 as [N07 R07 K07].
  rewrite Eb, Em, Ea, En, Er, Ec, Es.
  rewrite (steady_store _ _ S37).
  repeat (split; [congruence || lia|]).
  intros i Hi. destruct (Hring i Hi) as (m & Nm & L).
  exists m. split; [|exact L].
  rewrite <- !app_assoc. rewrite nth_error_app1; [exact Nm|].
  apply nth_error_Some. congruence.
Qed.

End Creation.

(** C8. Whatever [Math.random()] draws in [0, 1), [createRandomCreature]
    returns a creature with between 4 and 11 bodies; for each body [i] the
    [i]-th muscle connects it to body [(i + 1) mod n]; its rest length is
    the Euclidean distance between the two bodies, the square root of the
    sum of the squares of the differences of their coordinates, where the
    bodies are when the call returns, which is where they have been
    created, as the call moves no body; its stiffness is in [0.3, 1.0),
    its period in [250, 1450) and its extension factor in [1.0, 1.7). *)
Theorem createRandomCreature_ring :
  forall fl cfg e,
    validRandom e ->
    exists c e',
      createRandomCreature fl cfg e = Some (c, e') /\
      let n := List.length (bodies c) in
      4 <= n <= 11 /\
      forall i, i < n ->
        exists m a b p f,
          nth_error (muscles c) i = Some m /\
          nth_error (bodies c) i = Some a /\
          nth_error (bodies c) ((i + 1) mod n) = Some b /\
          bodyA (constraint m) = Some (body a) /\
          bodyB (constraint m) = Some (body b) /\
          (let pa := position (store e' (body a)) in
           let pb := position (store e' (body b)) in
           restLength (config m)
           = JS.Math_sqrt fl ((x pa - x pb) * (x pa - x pb)
                              + (y pa - y pb) * (y pa - y pb))%Q) /\
          ((3 # 10) <= stiffness (config m))%Q /\
          (stiffness (config m) < 1)%Q /\
          period (config m) = Some p /\
          (250 <= p)%Q /\ (p < 1450)%Q /\
          extensionFactor (config m) = Some f /\
          (1 <= f)%Q /\ (f < 17 # 10)%Q.
Proof.
  intros fl cfg e V.
  destruct (createRandomCreature_returns fl cfg e V)
    as (c & e' & E & _ & _ & _ & _ & _ & Hn & Hring).
  exists c, e'. split; [exact E|]. split; [exact Hn|].
  intros i Hi. destruct (Hring i Hi) as (m & Nm & a & b & Na & Nb & D).
  destruct D as [DA DB DR _ [S0 S1] (p & Ep & P0 & P1) (f & Ef & F0 & F1) _ _].
  exists m, a, b, p, f.
  repeat (split; [assumption|]).
  split; [lra|]. split; [assumption|].
  split; [assumption|]. split; [lra|].
  split; [assumption|]. split; [assumption|]. lra.
Qed.

End GeneratorFacts.



(** ** Properties of the sort by [maxX] *)

Module SortFacts.
Import Matter Creature Controller MoreSpec.

Lemma insert_perm {A} (cmp : A -> A -> Q) a l :
  Permutation (JS.insert cmp a l) (a :: l).
Proof.
  induction l as [|b l IH]; simpl; [reflexivity|].
  destruct (Qle_bool (cmp a b) 0); [reflexivity|].
  rewrite IH. apply perm_swap.
Qed.

Lemma sort_perm {A} (cmp : A -> A -> Q) l : Permutation (JS.sort cmp l) l.
Proof.
  unfold JS.sort. induction l as [|a l IH]; simpl; [reflexivity|].
  rewrite insert_perm. now constructor.
Qed.

Lemma further_trans a b c : further a b -> further b c -> further a c.
Proof. unfold further. intros. lra. Qed.

Lemma insert_sorted a l :
  StronglySorted further l ->
  StronglySorted further (JS.insert byMaxXDesc a l).
Proof.
  induction l as [|b l IH]; simpl; intros S.
  - constructor; constructor.
  - apply StronglySorted_inv in S. destruct S as [S F].
    destruct (Qle_bool (byMaxXDesc a b) 0) eqn:E.
    + apply Qle_bool_iff in E. unfold byMaxXDesc in E.
      assert (Hab : further a b) by (unfold further; lra).
      constructor; [constructor; assumption|].
      constructor; [exact Hab|].
      eapply Forall_impl; [|exact F]. intros d Hd.
      eapply further_trans; eauto.
    + constructor; [now apply IH|].
      assert (Hba : further b a).
      { unfold further. destruct (Qlt_le_dec (maxX b) (maxX a)) as [L|L];
          [|exact L].
        assert (Qle_bool (byMaxXDesc a b) 0 = true); [|congruence].
        apply Qle_bool_iff. unfold byMaxXDesc. lra. }
      eapply Permutation_Forall; [symmetry; apply insert_perm|].
      constructor; assumption.
Qed.

Lemma sort_sorted l : StronglySorted further (JS.sort byMaxXDesc l).
Proof.
  unfold JS.sort. induction l as [|a l IH]; simpl; [constructor|].
  now apply insert_sorted.
Qed.

Lemma sorted_app {A} (R : A -> A -> Prop) l1 l2 :
  StronglySorted R (l1 ++ l2) ->
  StronglySorted R l1 /\
  forall a b, In a l1 -> In b l2 -> R a b.
Proof.
  induction l1 as [|a l1 IH]; simpl; intros S.
  - split; [constructor | intros a b []].
  - apply StronglySorted_inv in S. destruct S as [S F].
    destruct (IH S) as [S1 C]. split.
    + constructor; [exact S1|].
      apply Forall_forall. intros d Hd.
      apply (proj1 (Forall_forall _ _) F). apply in_or_app. now left.
    + intros d b [<-|Hd] Hb; [|now apply C].
      apply (proj1 (Forall_forall _ _) F). apply in_or_app. now right.
Qed.

(** The first [n] of the live creatures sorted by descending [maxX] are
    [n] of them, or all of them, and none of the others has a greater
    [maxX]. *)
Lemma slice_of_sort_furthest n l :
  let top := JS.slice0 n (JS.sort byMaxXDesc l) in
  List.length top = Nat.min n (List.length l) /\
  exists rest,
    Permutation l (top ++ rest) /\
    forall t r, In t top -> In r rest -> (maxX r <= maxX t)%Q.
Proof.
  intros top.
  pose proof (sort_sorted l) as S.
  pose proof (sort_perm byMaxXDesc l) as P.
  unfold top, JS.slice0.
  rewrite <- (firstn_skipn n (JS.sort byMaxXDesc l)) in S.
  apply sorted_app in S. destruct S as [_ C].
  split.
  - rewrite length_firstn. now rewrite (Permutation_length P).
  - exists (skipn n (JS.sort byMaxXDesc l)).
    split; [rewrite firstn_skipn; now symmetry|].
    intros t r Ht Hr. exact (C t r Ht Hr).
Qed.

End SortFacts.

(** ** Properties of [SimulationController]: the trickle step *)

Module TrickleFacts.
Import Matter Creature Eff Generator Controller.
Import GeneratorSpec ControllerSpec GeneratorFacts ControllerFacts SortFacts.

Lemma insert_In {A} (cmp : A -> A -> Q) a l v :
  In v (JS.insert cmp a l) <-> v = a \/ In v l.
Proof.
  induction l as [|b l IH]; simpl.
  - intuition.
  - destruct (Qle_bool (cmp a b) 0); simpl; [intuition|].
    rewrite IH. intuition.
Qed.

Lemma sort_In {A} (cmp : A -> A -> Q) l v :
  In v (JS.sort cmp l) <-> In v l.
Proof.
  unfold JS.sort. induction l as [|a l IH]; simpl; [tauto|].
  rewrite insert_In, IH. intuition.
Qed.

Lemma insert_length {A} (cmp : A -> A -> Q) a l :
  List.length (JS.insert cmp a l) = S (List.length l).
Proof.
  induction l as [|b l IH]; simpl; [reflexivity|].
  destruct (Qle_bool (cmp a b) 0); simpl; auto.
Qed.

Lemma slice0_In {A} n (l : list A) v : In v (JS.slice0 n l) -> In v l.
Proof.
  unfold JS.slice0. intros H.
  rewrite <- (firstn_skipn n l). apply in_or_app. now left.
Qed.

Lemma top10_In c d : In d (top10 c) -> In d (creatures c).
Proof. intros H. apply slice0_In in H. now apply sort_In in H. Qed.

Lemma top10_length c : List.length (top10 c) <= 10.
Proof. unfold top10, JS.slice0. apply firstn_le_length. Qed.

Lemma includes_false l d :
  includes l d = false <-> forall t, In t l -> addr d <> addr t.
Proof.
  unfold includes, same. induction l as [|x l IH]; simpl.
  - split; [intros _ t [] | reflexivity].
  - rewrite orb_false_iff, IH, Nat.eqb_neq. split.
    + intros [H1 H2] t [<-|Ht]; auto.
    + intros H. split; [apply H; now left | intros t Ht; apply H; now right].
Qed.

(** [reduce] with [older] returns an element born no later than any other. *)
Lemma fold_older rest :
  forall a,
    let o := fold_left older rest a in
    In o (a :: rest) /\ (bornAt o <= bornAt a)%Z /\
    forall d, In d rest -> (bornAt o <= bornAt d)%Z.
Proof.
  induction rest as [|b rest IH]; intros a; simpl.
  - split; [now left|]. split; [lia | intros d []].
  - destruct (IH (older a b)) as (Hin & Hle & Hall).
    assert (Ho : (bornAt (older a b) <= bornAt a)%Z /\
                 (bornAt (older a b) <= bornAt b)%Z /\
                 (older a b = a \/ older a b = b)).
    { unfold older. destruct (bornAt a <? bornAt b)%Z eqn:E.
      - apply Z.ltb_lt in E. split; [lia|]. split; [lia|now left].
      - apply Z.ltb_ge in E. split; [lia|]. split; [lia|now right]. }
    destruct Ho as (Ha & Hb & Hc).
    split; [|split].
    + destruct Hin as [Hin|Hin]; [|now right; right].
      rewrite <- Hin. destruct Hc as [->| ->]; [now left | now right; left].
    + lia.
    + intros d [<-|Hd]; [lia | now apply Hall].
Qed.

Lemma reduce_older l o :
  JS.reduce older l = Some o ->
  In o l /\ forall d, In d l -> (bornAt o <= bornAt d)%Z.
Proof.
  destruct l as [|a rest]; simpl; [discriminate|].
  intros H; injection H as <-.
  destruct (fold_older rest a) as (Hin & Hle & Hall).
  split; [exact Hin|]. intros d [<-|Hd]; auto.
Qed.

Lemma reduce_none {A} (f : A -> A -> A) l : JS.reduce f l = None -> l = [].
Proof. destruct l; [reflexivity | discriminate]. Qed.

(** The live array after the cull. *)
Lemma cull_creatures c e :
  creatures (fst (cull c e))
  = if generationSize <=? List.length (creatures c)
    then match JS.reduce older (nonTop10 c) with
         | Some oldest =>
             filter (fun d => negb (same d oldest)) (creatures c)
         | None => creatures c
         end
    else creatures c.
Proof.
  unfold cull. fold (top10 c). fold (nonTop10 c).
  destruct (generationSize <=? _); [|reflexivity].
  destruct (JS.reduce older (nonTop10 c)) as [oldest|]; [|reflexivity].
  destruct (World.removeCreature _ _ _). reflexivity.
Qed.

(** What the trickle step does to the live array, entered with at least 50
    live creatures, in the words of the code. *)
Lemma trickle_cull_step :
  forall fl cfg c e c' e',
    trickleAddCreature fl cfg c e = Some (c', e') ->
    generationSize <= List.length (creatures c) ->
    exists new,
      (forall d, In d (top10 c) -> In d (creatures c')) /\
      ((nonTop10 c = [] /\ creatures c' = creatures c ++ [new]) \/
       (exists oldest,
           In oldest (nonTop10 c) /\
           includes (top10 c) oldest = false /\
           (forall d, In d (nonTop10 c) -> (bornAt oldest <= bornAt d)%Z) /\
           creatures c'
           = filter (fun d => negb (same d oldest)) (creatures c) ++ [new])).
Proof.
  intros fl cfg c e c' e' H Hfull.
  apply trickleAddCreature_inv in H.
  destruct H as (cr & _ & Hc & _).
  rewrite cull_creatures in Hc.
  apply Nat.leb_le in Hfull. rewrite Hfull in Hc.
  exists (set_bornAt (clock e') cr).
  destruct (JS.reduce older (nonTop10 c)) as [oldest|] eqn:R.
  - apply reduce_older in R. destruct R as [Hin Hmin].
    assert (Hout : includes (top10 c) oldest = false).
    { unfold nonTop10 in Hin. apply filter_In in Hin.
      destruct Hin as [_ Hn]. now apply negb_true_iff in Hn. }
    split.
    + intros d Hd. rewrite Hc. apply in_or_app. left.
      apply filter_In. split; [now apply top10_In|].
      apply negb_true_iff. unfold same. apply Nat.eqb_neq.
      intros E. apply (proj1 (includes_false _ _) Hout d Hd). now symmetry.
    + right. exists oldest. auto.
  - apply reduce_none in R. split.
    + intros d Hd. rewrite Hc. apply in_or_app. left. now apply top10_In.
    + left. auto.
Qed.

(** The creatures the code finds outside of its snapshot are the live
    creatures that are none of the objects of the snapshot. *)
Lemma outside_snapshot c d :
  In d (nonTop10 c) <->
  In d (creatures c) /\ ~ In (addr d) (map addr (top10 c)).
Proof.
  unfold nonTop10. rewrite filter_In, negb_true_iff, includes_false.
  split; intros [H N]; (split; [exact H|]).
  - intros I. apply in_map_iff in I. destruct I as (t & E & Ht).
    apply (N t Ht). now symmetry.
  - intros t Ht E. apply N. rewrite E. now apply in_map.
Qed.

(** C3. In a trickle step entered with at least 50 live creatures there is
    a snapshot of ten live creatures such that no other live creature has a
    greater [maxX] than one of the ten: a top ten by [maxX].  Every
    creature of the snapshot is still alive after the step.  Either every
    live creature is one of the objects of the snapshot and none is
    removed, or the creature removed is a live creature that is none of
    them and was born no later than any other such creature; and the step
    removes no other creature. *)
Theorem trickle_culls_oldest_outsider :
  forall fl cfg c e c' e',
    trickleAddCreature fl cfg c e = Some (c', e') ->
    generationSize <= List.length (creatures c) ->
    exists snapshot rest new,
      List.length snapshot = 10 /\
      Permutation (creatures c) (snapshot ++ rest) /\
      (forall t r, In t snapshot -> In r rest -> (maxX r <= maxX t)%Q) /\
      (forall t, In t snapshot -> In t (creatures c')) /\
      (((forall d, In d (creatures c) -> In (addr d) (map addr snapshot)) /\
        creatures c' = creatures c ++ [new]) \/
       (exists oldest,
           In oldest (creatures c) /\
           ~ In (addr oldest) (map addr snapshot) /\
           (forall d, In d (creatures c) ->
                      ~ In (addr d) (map addr snapshot) ->
                      (bornAt oldest <= bornAt d)%Z) /\
           creatures c'
           = filter (fun d => negb (addr d =? addr oldest)) (creatures c)
             ++ [new])).
Proof.
  intros fl cfg c e c' e' H Hfull.
  destruct (trickle_cull_step fl cfg c e c' e' H Hfull) as (new & Keep & Cull).
  destruct (slice_of_sort_furthest 10 (creatures c)) as (Len & rest & P & Far).
  fold (top10 c) in Len, P, Far.
  exists (top10 c), rest, new.
  split; [unfold generationSize in Hfull; lia|].
  split; [exact P|]. split; [exact Far|]. split; [exact Keep|].
  destruct Cull as [[None Same]|(oldest & Hin & _ & Hmin & Gone)].
  - left. split; [|exact Same].
    intros d Hd.
    destruct (in_dec Nat.eq_dec (addr d) (map addr (top10 c))) as [I|N];
      [exact I|exfalso].
    assert (Hn : In d (nonTop10 c)) by (apply outside_snapshot; auto).
    rewrite None in Hn. destruct Hn.
  - right. exists oldest.
    apply outside_snapshot in Hin. destruct Hin as [Hl Ho].
    split; [exact Hl|]. split; [exact Ho|]. split; [|exact Gone].
    intros d Hd Nd. apply Hmin. apply outside_snapshot. auto.
Qed.

(** *** The size of the population *)

Lemma filter_or_length {A} (p q : A -> bool) l :
  List.length (filter (fun v => p v || q v) l)
  <= List.length (filter p l) + List.length (filter q l).
Proof.
  induction l as [|a l IH]; simpl; [lia|].
  destruct (p a), (q a); simpl; lia.
Qed.

Lemma filter_none {A} (p : A -> bool) l :
  (forall v, In v l -> p v = false) -> filter p l = [].
Proof.
  induction l as [|a l IH]; simpl; intros H; [reflexivity|].
  rewrite (H a (or_introl eq_refl)). apply IH. intros v Hv. apply H. now right.
Qed.

Lemma filter_split {A} (p : A -> bool) l :
  List.length (filter p l) + List.length (filter (fun v => negb (p v)) l)
  = List.length l.
Proof.
  induction l as [|a l IH]; simpl; [reflexivity|].
  destruct (p a); simpl; lia.
Qed.

Lemma same_once l t :
  NoDup (map addr l) ->
  List.length (filter (fun d => same d t) l) <= 1.
Proof.
  induction l as [|a l IH]; simpl; intros N; [lia|].
  inversion N as [|v vs Hnot N']; subst.
  destruct (same a t) eqn:E; simpl; [|now apply IH].
  rewrite filter_none; [simpl; lia|].
  intros d Hd. unfold same in *. apply Nat.eqb_eq in E. apply Nat.eqb_neq.
  intros E'. apply Hnot. rewrite E, <- E'. now apply in_map.
Qed.

Lemma included_count l t :
  NoDup (map addr l) ->
  List.length (filter (includes t) l) <= List.length t.
Proof.
  intros N. induction t as [|v t IH]; simpl.
  - rewrite filter_none; [simpl; lia | reflexivity].
  - pose proof (filter_or_length (fun d => same d v) (includes t) l) as H.
    pose proof (same_once l v N).
    change (List.length (filter (fun d => same d v || includes t d) l)
            <= S (List.length t)).
    lia.
Qed.

Lemma nonTop10_length c :
  NoDup (map addr (creatures c)) ->
  List.length (creatures c) <= List.length (nonTop10 c) + 10.
Proof.
  intros N. unfold nonTop10.
  pose proof (filter_split (includes (top10 c)) (creatures c)).
  pose proof (included_count (creatures c) (top10 c) N).
  pose proof (top10_length c). lia.
Qed.

Lemma NoDup_map_filter {A B} (f : A -> B) (p : A -> bool) l :
  NoDup (map f l) -> NoDup (map f (filter p l)).
Proof.
  induction l as [|a l IH]; simpl; intros N; [constructor|].
  inversion N as [|v vs Hnot N']; subst.
  destruct (p a); simpl; [|auto].
  constructor; [|auto].
  intros H. apply Hnot. apply in_map_iff in H. destruct H as (d & E & Hd).
  apply filter_In in Hd. rewrite <- E. apply in_map. tauto.
Qed.

Lemma NoDup_snoc {A} (l : list A) a :
  NoDup l -> ~ In a l -> NoDup (l ++ [a]).
Proof.
  induction l as [|b l IH]; simpl; intros N H.
  - constructor; [intros [] | constructor].
  - inversion N as [|v vs Hnot N']; subst. constructor.
    + intros Hb. apply in_app_or in Hb. destruct Hb as [Hb|[->|[]]]; tauto.
    + apply IH; tauto.
Qed.

Lemma cull_env c e :
  random (snd (cull c e)) = random e /\
  nextObject (snd (cull c e)) = nextObject e /\
  clock (snd (cull c e)) = clock e.
Proof.
  unfold cull.
  destruct (generationSize <=? _); [|auto].
  destruct (JS.reduce older _) as [oldest|]; [|auto].
  unfold World.removeCreature.
  destruct (JS.get Qeq_bool _ _); simpl; auto.
Qed.

Lemma cull_wellFormed c e :
  wellFormed (c, e) ->
  let cs := creatures (fst (cull c e)) in
  NoDup (map addr cs) /\
  (forall d, In d cs -> In d (creatures c)) /\
  S (List.length cs) = afterTrickle (List.length (creatures c)).
Proof.
  intros (V & N & F & L). simpl in *. rewrite cull_creatures.
  unfold afterTrickle.
  destruct (generationSize <=? List.length (creatures c)) eqn:E;
    [|split; [exact N|]; split; [auto | reflexivity]].
  apply Nat.leb_le in E.
  pose proof (nonTop10_length c N) as HL. unfold generationSize in *.
  destruct (JS.reduce older (nonTop10 c)) as [oldest|] eqn:R.
  - apply reduce_older in R. destruct R as [Hin _].
    assert (Ho : In oldest (creatures c)).
    { unfold nonTop10 in Hin. apply filter_In in Hin. tauto. }
    split; [now apply NoDup_map_filter|].
    split; [intros d Hd; apply filter_In in Hd; tauto|].
    pose proof (filter_split (fun d => same d oldest) (creatures c)) as HS.
    pose proof (same_once (creatures c) oldest N) as H1.
    assert (H0 : In oldest (filter (fun d => same d oldest) (creatures c))).
    { apply filter_In. split; [exact Ho|]. unfold same. apply Nat.eqb_refl. }
    destruct (filter (fun d => same d oldest) (creatures c)); [destruct H0|].
    simpl in *. lia.
  - apply reduce_none in R. rewrite R in HL. simpl in HL. lia.
Qed.

Section Population.
Variable fl : JS.MathLib.
Variable cfg : VisualConfig.
Variable Engine_update : Env -> Q -> Store.

(** A trickle step returns, and keeps the population well formed. *)
Lemma trickle_wellFormed c e :
  wellFormed (c, e) ->
  exists c' e',
    trickleAddCreature fl cfg c e = Some (c', e') /\
    wellFormed (c', e') /\
    List.length (creatures c') = afterTrickle (List.length (creatures c)).
Proof.
  intros W. pose proof W as (V & N & F & L). simpl in V, N, F, L.
  destruct (cull_wellFormed c e W) as (N1 & I1 & L1).
  destruct (cull_env c e) as (R1 & O1 & K1).
  assert (V1 : validRandom (snd (cull c e))).
  { intros n. rewrite R1. apply V. }
  destruct (createRandomCreature_returns fl cfg _ V1)
    as (cr & e' & E & Ea & Eo & Er & _).
  unfold trickleAddCreature.
  destruct (cull c e) as [c1 e1]. simpl in *.
  unfold bind. rewrite E. unfold Date_now, gets, ret.
  assert (Hlen : List.length (creatures c1 ++ [set_bornAt (clock e') cr])
                 = afterTrickle (List.length (creatures c))).
  { rewrite length_app. simpl. lia. }
  assert (W' : forall c',
             creatures c' = creatures c1 ++ [set_bornAt (clock e') cr] ->
             wellFormed (c', e')).
  { intros c' Hc. unfold wellFormed; simpl. rewrite Hc.
    split; [intros n; rewrite Er, R1; apply V|].
    split; [|split].
    - rewrite map_app. simpl. apply NoDup_snoc; [exact N1|].
      intros H. apply in_map_iff in H. destruct H as (d & Ed & Hd).
      specialize (F d (I1 d Hd)). lia.
    - intros d Hd. apply in_app_or in Hd. destruct Hd as [Hd|[<-|[]]].
      + specialize (F d (I1 d Hd)). lia.
      + simpl. lia.
    - rewrite Hlen. unfold afterTrickle, generationSize in *.
      destruct (50 <=? List.length (creatures c)) eqn:E5; [exact L|].
      apply Nat.leb_gt in E5. lia. }
  destruct (_ =? 0); eexists _, _; (split; [reflexivity|]);
    (split; [apply W'; reflexivity | exact Hlen]).
Qed.

Lemma tick_frame now s creature :
  let s' := tick cfg now s creature in
  map addr (creatures (fst s')) = map addr (creatures (fst s)) /\
  random (snd s') = random (snd s) /\
  nextObject (snd s') = nextObject (snd s).
Proof.
  destruct s as [c e]. unfold tick.
  destruct (lifetime <? _)%Z; simpl.
  - destruct (freezeBodies_frame (bodies creature) e)
      as (_ & _ & O & _ & _ & R & _).
    unfold freezeBodies in *. auto.
  - split; [|auto]. rewrite map_map. apply map_ext.
    intros d. destruct (same d creature); reflexivity.
Qed.

Lemma mainLoop_frame c e :
  let s' := mainLoop cfg c e in
  map addr (creatures (fst s')) = map addr (creatures c) /\
  random (snd s') = random e /\
  nextObject (snd s') = nextObject e.
Proof.
  unfold mainLoop.
  assert (H : forall cs s,
             let s' := fold_left (tick cfg (clock e)) cs s in
             map addr (creatures (fst s')) = map addr (creatures (fst s)) /\
             random (snd s') = random (snd s) /\
             nextObject (snd s') = nextObject (snd s)).
  { induction cs as [|cr cs IH]; intros s; simpl; [auto|].
    destruct (IH (tick cfg (clock e) s cr)) as (A & B & C).
    destruct (tick_frame (clock e) s cr) as (A' & B' & C').
    repeat split; congruence. }
  specialize (H (creatures c) (c, e)).
  destruct (fold_left _ _ _) as [c1 e1]. exact H.
Qed.

Lemma wellFormed_frame c e c' e' :
  wellFormed (c, e) ->
  map addr (creatures c') = map addr (creatures c) ->
  random e' = random e -> nextObject e' = nextObject e ->
  wellFormed (c', e').
Proof.
  intros (V & N & F & L) Ha Hr Ho. unfold wellFormed in *; simpl in *.
  split; [intros n; rewrite Hr; apply V|].
  split; [now rewrite Ha|]. split.
  - intros d Hd. rewrite Ho.
    assert (In (addr d) (map addr (creatures c)))
      by (rewrite <- Ha; now apply in_map).
    apply in_map_iff in H. destruct H as (d' & <- & Hd'). auto.
  - rewrite <- (length_map addr), Ha, length_map. exact L.
Qed.

Lemma step_wellFormed ev s :
  wellFormed s ->
  exists s', step fl cfg Engine_update ev s = Some s' /\ wellFormed s'.
Proof.
  destruct s as [c e]. intros W.
  destruct ev as [now|now|now]; unfold step.
  - destruct (trickle_wellFormed c (with_clock e now)) as (c' & e' & E & W' & _).
    { eapply wellFormed_frame; eauto. }
    exists (c', e'). auto.
  - eexists. split; [reflexivity|].
    destruct (mainLoop_frame c (with_clock e now)) as (A & B & C).
    destruct (mainLoop cfg c (with_clock e now)) as [c' e'].
    eapply wellFormed_frame; eauto.
  - unfold World.updateLoop, World.MainWorld_update, World.update.
    eexists. split; [reflexivity|].
    eapply wellFormed_frame; eauto.
Qed.

Lemma construct_wellFormed e :
  validRandom e -> wellFormed (construct cfg Engine_update e).
Proof.
  intros V. unfold construct, World.updateLoop, World.MainWorld_update,
    World.update.
  split; [exact V|]. simpl. split; [constructor|].
  split; [intros d []|]. unfold generationSize. lia.
Qed.

Lemma run_wellFormed evs :
  forall s, wellFormed s ->
            exists s', run fl cfg Engine_update evs s = Some s' /\
                       wellFormed s'.
Proof.
  induction evs as [|ev evs IH]; intros s W; simpl.
  - exists s. auto.
  - destruct (step_wellFormed ev s W) as (s1 & -> & W1). now apply IH.
Qed.

End Population.

(** C4. From the construction of the controller, with no creature, any
    sequence of callbacks runs to completion and leaves at most 50 live
    creatures; a trickle step run next returns as well, with at most 50 live
    creatures: the same number as before when there were 50 (one culled, one
    added), one more otherwise. *)
Theorem live_count_bounded :
  forall fl cfg Engine_update evs now e0,
    validRandom e0 ->
    exists c e c' e',
      run fl cfg Engine_update evs (construct cfg Engine_update e0)
      = Some (c, e) /\
      step fl cfg Engine_update (Trickle now) (c, e) = Some (c', e') /\
      List.length (creatures c) <= 50 /\
      List.length (creatures c') <= 50 /\
      List.length (creatures c')
      = if 50 <=? List.length (creatures c)
        then List.length (creatures c)
        else S (List.length (creatures c)).
Proof.
  intros fl cfg eu evs now e0 V.
  destruct (run_wellFormed fl cfg eu evs _ (construct_wellFormed cfg eu e0 V))
    as ([c e] & E & W).
  destruct (trickle_wellFormed fl cfg c (with_clock e now))
    as (c' & e' & E' & W' & L').
  { eapply wellFormed_frame; eauto. }
  exists c, e, c', e'.
  split; [exact E|]. split; [exact E'|].
  destruct W as (_ & _ & _ & L). destruct W' as (_ & _ & _ & L2).
  simpl in L, L2. unfold generationSize in *.
  split; [exact L|]. split; [exact L2|]. exact L'.
Qed.

End TrickleFacts.



(** ** Properties of the physics world: the histogram of distances *)

Module WorldFacts.
Import Matter Creature Eff Generator World WorldSpec.

(** *** Maps keyed by creature ids *)

Section QMap.
Context {V : Type}.
Implicit Types (m : JS.Map Q V) (k : Q).

Lemma get_compat m k k' :
  Qeq_bool k k' = true -> JS.get Qeq_bool m k = JS.get Qeq_bool m k'.
Proof.
  intros E. induction m as [|[k0 v0] m IH]; simpl; [reflexivity|].
  assert (Qeq_bool k k0 = Qeq_bool k' k0) as ->.
  { apply eq_true_iff_eq. rewrite !Qeq_bool_iff.
    apply Qeq_bool_iff in E. now rewrite E. }
  now rewrite IH.
Qed.

Lemma get_set m k v k' :
  JS.get Qeq_bool (JS.set Qeq_bool m k v) k'
  = if Qeq_bool k' k then Some v else JS.get Qeq_bool m k'.
Proof.
  induction m as [|[k0 v0] m IH]; simpl; [reflexivity|].
  destruct (Qeq_bool k k0) eqn:E0; simpl.
  - destruct (Qeq_bool k' k0) eqn:E1, (Qeq_bool k' k) eqn:E2;
      try reflexivity; exfalso.
    + rewrite (Qeq_bool_trans _ _ _ E1 (Qeq_bool_sym _ _ E0)) in E2.
      discriminate.
    + rewrite (Qeq_bool_trans _ _ _ E2 E0) in E1. discriminate.
  - destruct (Qeq_bool k' k0) eqn:E1; [|exact IH].
    destruct (Qeq_bool k' k) eqn:E2; [exfalso|reflexivity].
    rewrite (Qeq_bool_trans _ _ _ (Qeq_bool_sym _ _ E2) E1) in E0.
    discriminate.
Qed.

Lemma uniqueKeys_set m k v : uniqueKeys m -> uniqueKeys (JS.set Qeq_bool m k v).
Proof.
  induction m as [|[k0 v0] m IH]; simpl; [auto|].
  intros [H U]. destruct (Qeq_bool k k0) eqn:E; simpl; [auto|].
  split; [|auto]. rewrite get_set.
  now rewrite Qeq_bool_comm, E.
Qed.

Lemma get_snoc m k v k' :
  JS.get Qeq_bool (m ++ [(k, v)]) k'
  = match JS.get Qeq_bool m k' with
    | Some w => Some w
    | None => if Qeq_bool k' k then Some v else None
    end.
Proof.
  induction m as [|[k0 v0] m IH]; simpl; [reflexivity|].
  destruct (Qeq_bool k' k0); [reflexivity | exact IH].
Qed.

Lemma uniqueKeys_snoc m k v :
  uniqueKeys m -> JS.get Qeq_bool m k = None -> uniqueKeys (m ++ [(k, v)]).
Proof.
  induction m as [|[k0 v0] m IH]; simpl; [auto|].
  intros [H U]. destruct (Qeq_bool k k0) eqn:E; [discriminate|].
  intros G. split; [|auto].
  rewrite get_snoc, H. now rewrite Qeq_bool_comm, E.
Qed.

Lemma get_delete m k k' :
  uniqueKeys m ->
  JS.get Qeq_bool (JS.delete Qeq_bool m k) k'
  = if Qeq_bool k' k then None else JS.get Qeq_bool m k'.
Proof.
  induction m as [|[k0 v0] m IH]; simpl.
  - now destruct (Qeq_bool k' k).
  - intros [H U]. destruct (Qeq_bool k k0) eqn:E; simpl.
    + destruct (Qeq_bool k' k) eqn:E2.
      * rewrite (get_compat m k' k0); [exact H|].
        eapply Qeq_bool_trans; eauto.
      * destruct (Qeq_bool k' k0) eqn:E1; [exfalso|reflexivity].
        rewrite (Qeq_bool_trans _ _ _ E1 (Qeq_bool_sym _ _ E)) in E2.
        discriminate.
    + rewrite (IH U).
      destruct (Qeq_bool k' k0) eqn:E1; [|reflexivity].
      destruct (Qeq_bool k' k) eqn:E2; [exfalso|reflexivity].
      rewrite (Qeq_bool_trans _ _ _ (Qeq_bool_sym _ _ E2) E1) in E.
      discriminate.
Qed.

Lemma uniqueKeys_delete m k : uniqueKeys m -> uniqueKeys (JS.delete Qeq_bool m k).
Proof.
  induction m as [|[k0 v0] m IH]; simpl; [auto|].
  intros [H U]. destruct (Qeq_bool k k0) eqn:E; simpl; [auto|].
  split; [|auto]. rewrite (get_delete _ _ _ U), H.
  now destruct (Qeq_bool k0 k).
Qed.

Lemma countIf_delete p m k v :
  JS.get Qeq_bool m k = Some v ->
  countIf p m = (if p v then 1 else 0) + countIf p (JS.delete Qeq_bool m k).
Proof.
  unfold countIf.
  induction m as [|[k0 v0] m IH]; simpl; [discriminate|].
  destruct (Qeq_bool k k0).
  - intros H; injection H as ->. destruct (p v); reflexivity.
  - intros H. specialize (IH H). simpl.
    destruct (p v0), (p v); simpl in *; lia.
Qed.

(** Two maps with the same lookups hold the same values, in some order. *)
Lemma countIf_agree p m1 :
  forall m2,
    uniqueKeys m1 -> uniqueKeys m2 ->
    (forall k, JS.get Qeq_bool m1 k = JS.get Qeq_bool m2 k) ->
    countIf p m1 = countIf p m2.
Proof.
  induction m1 as [|[k v] m1 IH]; intros m2 U1 U2 H.
  - destruct m2 as [|[k0 v0] m2]; [reflexivity|].
    specialize (H k0). simpl in H. rewrite Qeq_bool_refl in H. discriminate.
  - destruct U1 as [F U1].
    assert (G : JS.get Qeq_bool m2 k = Some v).
    { rewrite <- H. simpl. now rewrite Qeq_bool_refl. }
    rewrite (countIf_delete p m2 k v G).
    rewrite <- (IH (JS.delete Qeq_bool m2 k)); auto using uniqueKeys_delete.
    + unfold countIf. simpl. destruct (p v); reflexivity.
    + intros k'. rewrite (get_delete _ _ _ U2), <- H. simpl.
      destruct (Qeq_bool k' k) eqn:E; [|reflexivity].
      now rewrite (get_compat m1 k' k E).
Qed.

End QMap.

(** *** The bins *)

Lemma pad_nth bins j k : nth k (pad bins j) 0 = nth k bins 0.
Proof.
  unfold pad. destruct (Nat.lt_ge_cases k (List.length bins)) as [H|H].
  - now rewrite app_nth1.
  - rewrite app_nth2 by exact H. rewrite (nth_overflow bins) by exact H.
    apply nth_repeat.
Qed.

Lemma pad_length bins j : j < List.length (pad bins j).
Proof. unfold pad. rewrite length_app, repeat_length. lia. Qed.

Lemma incrementAt_nth bins :
  forall j k, j < List.length bins ->
              nth k (incrementAt bins j) 0
              = nth k bins 0 + (if k =? j then 1 else 0).
Proof.
  induction bins as [|c bins IH]; intros j k H; simpl in *; [lia|].
  destruct j as [|j]; destruct k as [|k]; simpl; try lia.
  apply IH. lia.
Qed.

Lemma addToBin_nth bins dist k :
  nth k (addToBin bins dist) 0
  = nth k bins 0 + (if binOf k dist then 1 else 0).
Proof.
  unfold addToBin, binOf.
  destruct (JS.Math_floor (dist / 100) <? 0)%Z eqn:E.
  - apply Z.ltb_lt in E.
    destruct (Z.eqb_spec (JS.Math_floor (dist / 100)) (Z.of_nat k)); lia.
  - apply Z.ltb_ge in E.
    rewrite incrementAt_nth by apply pad_length. rewrite pad_nth.
    destruct (Nat.eqb_spec k (Z.to_nat (JS.Math_floor (dist / 100))));
      destruct (Z.eqb_spec (JS.Math_floor (dist / 100)) (Z.of_nat k)); lia.
Qed.

Lemma rebuild_nth (dists : JS.Map Q Q) k :
  forall bins,
    nth k (fold_left (fun bins '(_, dist) => addToBin bins dist) dists bins) 0
    = nth k bins 0 + countIf (binOf k) dists.
Proof.
  unfold countIf.
  induction dists as [|[i d] dists IH]; intros bins; simpl; [lia|].
  rewrite IH, addToBin_nth. destruct (binOf k d); simpl; lia.
Qed.

Lemma rebuildBins_nth dists k :
  nth k (rebuildBins dists) 0 = countIf (binOf k) dists.
Proof.
  unfold rebuildBins. rewrite rebuild_nth. now destruct k.
Qed.

(** Bin [k] holds the distances from [100 k] up to [100 k + 100]. *)
Lemma binOf_range k dist :
  binOf k dist = true <->
  (100 * inject_Z (Z.of_nat k) <= dist)%Q /\
  (dist < 100 * inject_Z (Z.of_nat k) + 100)%Q.
Proof.
  unfold binOf, JS.Math_floor.
  pose proof (Qfloor_le (dist / 100)) as L.
  pose proof (Qlt_floor (dist / 100)) as U.
  rewrite inject_Z_plus in U. change (inject_Z 1) with 1%Q in U.
  assert (D : (dist == 100 * (dist / 100))%Q) by (field).
  set (z := Qfloor (dist / 100)) in *.
  rewrite Z.eqb_eq. split.
  - intros <-. split; lra.
  - intros [A B].
    assert (Z1 : (inject_Z z < inject_Z (Z.of_nat k + 1))%Q)
      by (rewrite inject_Z_plus; change (inject_Z 1) with 1%Q; lra).
    assert (Z2 : (inject_Z (Z.of_nat k) < inject_Z (z + 1))%Q)
      by (rewrite inject_Z_plus; change (inject_Z 1) with 1%Q; lra).
    rewrite <- Zlt_Qlt in Z1, Z2. lia.
Qed.

(** *** What the world has seen of each creature *)

Lemma lt_spec a b : JS.lt a b = true <-> (a < b)%Q.
Proof.
  unfold JS.lt. rewrite negb_true_iff. split.
  - intros H. apply Qnot_le_lt. intros L. apply Qle_bool_iff in L. congruence.
  - intros H. destruct (Qle_bool b a) eqn:E; [|reflexivity].
    apply Qle_bool_iff in E. lra.
Qed.

Lemma lt_false a b : JS.lt a b = false <-> (b <= a)%Q.
Proof.
  unfold JS.lt. rewrite negb_false_iff. apply Qle_bool_iff.
Qed.

Lemma Qmax_lt a b : Qmax a b = if JS.lt a b then b else a.
Proof.
  unfold Qmax, GenericMinMax.gmax.
  destruct (a ?= b)%Q eqn:E.
  - apply Qeq_alt in E. destruct (JS.lt a b) eqn:L; [|reflexivity].
    apply lt_spec in L. lra.
  - apply Qlt_alt in E. apply lt_spec in E. now rewrite E.
  - apply Qgt_alt in E. destruct (JS.lt a b) eqn:L; [|reflexivity].
    apply lt_spec in L. lra.
Qed.

Lemma bestKnown_snoc seen f :
  bestKnown (seen ++ [f])
  = if JS.lt (bestKnown seen) f then f else bestKnown seen.
Proof.
  unfold bestKnown, JS.Math_max_from. rewrite fold_left_app. simpl.
  apply Qmax_lt.
Qed.

Lemma observe_present h cid f k :
  JS.get Qeq_bool (observe h cid f) k = None <-> JS.get Qeq_bool h k = None.
Proof.
  unfold observe. destruct (JS.get Qeq_bool h cid) as [seen|] eqn:E; [|tauto].
  rewrite get_set. destruct (Qeq_bool k cid) eqn:Ek; [|tauto].
  rewrite (get_compat h k cid Ek), E. split; discriminate.
Qed.

Lemma sight_present st h cid bs k :
  JS.get Qeq_bool (sight st h cid bs) k = None <-> JS.get Qeq_bool h k = None.
Proof.
  unfold sight. destruct (furthest st bs); [apply observe_present | tauto].
Qed.

(** One creature seen: the map and the history move together. *)
Lemma record_agrees st dists h cid bs :
  JS.get Qeq_bool h cid <> None ->
  agrees dists h ->
  agrees (record st dists cid bs) (sight st h cid bs).
Proof.
  intros P (Uh & Ud & A). unfold record, sight.
  destruct (furthest st bs) as [f|]; [|now split].
  unfold observe.
  destruct (JS.get Qeq_bool h cid) as [seen|] eqn:G; [|contradiction].
  pose proof (A cid) as Ac. unfold recorded in Ac. rewrite G in Ac.
  split; [now apply uniqueKeys_set|].
  split; [destruct (JS.lt _ f); [now apply uniqueKeys_set | exact Ud]|].
  intros k. unfold recorded. rewrite get_set.
  destruct (Qeq_bool k cid) eqn:Ek.
  - rewrite bestKnown_snoc.
    assert (Ak : JS.get Qeq_bool dists k = JS.get Qeq_bool dists cid)
      by now apply get_compat.
    destruct (JS.lt 0 (bestKnown seen)) eqn:Pos.
    + rewrite Ac. simpl. apply lt_spec in Pos.
      destruct (JS.lt (bestKnown seen) f) eqn:L.
      * rewrite get_set, Ek. apply lt_spec in L.
        assert (JS.lt 0 f = true) as -> by (apply lt_spec; lra).
        reflexivity.
      * rewrite Ak, Ac.
        assert (JS.lt 0 (bestKnown seen) = true) as -> by now apply lt_spec.
        reflexivity.
    + rewrite Ac. simpl. apply lt_false in Pos.
      destruct (JS.lt 0 f) eqn:L.
      * rewrite get_set, Ek. apply lt_spec in L.
        assert (JS.lt (bestKnown seen) f = true) as ->
            by (apply lt_spec; lra).
        apply lt_spec in L. now rewrite L.
      * rewrite Ak, Ac. apply lt_false in L.
        destruct (JS.lt (bestKnown seen) f).
        -- assert (JS.lt 0 f = false) as -> by now apply lt_false.
           reflexivity.
        -- assert (JS.lt 0 (bestKnown seen) = false) as ->
               by now apply lt_false.
           reflexivity.
  - destruct (JS.lt _ f); [rewrite get_set, Ek|]; apply A.
Qed.

Lemma recordAll_agrees st cs :
  forall dists h,
    (forall cid data, In (cid, data) cs -> JS.get Qeq_bool h cid <> None) ->
    agrees dists h ->
    agrees (recordAll st cs dists) (sightAll st cs h).
Proof.
  unfold recordAll, sightAll.
  induction cs as [|[cid data] cs IH]; intros dists h P A; simpl; [exact A|].
  apply IH.
  - intros k d Hk. rewrite sight_present. apply (P k d). now right.
  - apply record_agrees; [|exact A]. apply (P cid data). now left.
Qed.

Lemma sightAll_present st cs :
  forall h k, JS.get Qeq_bool (sightAll st cs h) k = None
              <-> JS.get Qeq_bool h k = None.
Proof.
  unfold sightAll.
  induction cs as [|[cid data] cs IH]; intros h k; simpl; [tauto|].
  rewrite IH. apply sight_present.
Qed.

Lemma set_entries {V} (m : JS.Map Q V) k v k' v' :
  In (k', v') (JS.set Qeq_bool m k v) ->
  In (k', v') m \/ Qeq_bool k k' = true.
Proof.
  induction m as [|[k0 v0] m IH]; simpl.
  - intros [H|[]]. injection H as -> _. right. apply Qeq_bool_refl.
  - destruct (Qeq_bool k k0) eqn:E; simpl.
    + intros [H|H]; [|auto]. injection H as <- _. now right.
    + intros [H|H]; [auto|]. destruct (IH H); auto.
Qed.

Lemma delete_entries {V} (m : JS.Map Q V) k k' v' :
  In (k', v') (JS.delete Qeq_bool m k) -> In (k', v') m.
Proof.
  induction m as [|[k0 v0] m IH]; simpl; [auto|].
  destruct (Qeq_bool k k0); simpl; [auto|].
  intros [H|H]; auto.
Qed.

Lemma get_present {V} (m : JS.Map Q V) k v :
  JS.get Qeq_bool m k = Some v ->
  exists k', In (k', v) m /\ Qeq_bool k k' = true.
Proof.
  induction m as [|[k0 v0] m IH]; simpl; [discriminate|].
  destruct (Qeq_bool k k0) eqn:E.
  - intros H; injection H as ->. eauto.
  - intros H. destruct (IH H) as (k' & Hk & Ek). eauto.
Qed.

Lemma tracked_coherent Engine_update s h :
  tracked Engine_update s h -> coherent (fst s) h.
Proof.
  induction 1 as [now e | w e h c T IH F | w e h cid T IH
                  | w e h delta T IH | w e h T IH | w e e' h T IH];
    simpl in *.
  - split; [intros cid data []|]. repeat split.
  - destruct IH as (L & Uh & Ud & A).
    split; [|split; [|split]].
    + intros cid data Hin. rewrite get_snoc.
      apply set_entries in Hin. destruct Hin as [Hin|E].
      * specialize (L cid data Hin).
        destruct (JS.get Qeq_bool h cid); [discriminate | contradiction].
      * destruct (JS.get Qeq_bool h cid); [discriminate|].
        rewrite Qeq_bool_comm, E. discriminate.
    + now apply uniqueKeys_snoc.
    + exact Ud.
    + intros cid. rewrite A. unfold recorded. rewrite get_snoc.
      destruct (JS.get Qeq_bool h cid); [reflexivity|].
      destruct (Qeq_bool cid (id c)); reflexivity.
  - destruct IH as (L & A). unfold removeCreature.
    destruct (JS.get Qeq_bool (creatures w) cid) as [data|] eqn:G; simpl;
      [|now split].
    split.
    + intros k d Hin. rewrite sight_present.
      apply (L k d). eapply delete_entries; eauto.
    + apply record_agrees; [|exact A].
      destruct (get_present _ _ _ G) as (k' & Hk & Ek).
      rewrite (get_compat h cid k' Ek). eapply L; eauto.
  - destruct IH as (L & A).
    split.
    + intros k d Hin. rewrite sightAll_present. eapply L; eauto.
    + now apply recordAll_agrees.
  - destruct IH as (L & A).
    split.
    + intros k d Hin. rewrite sightAll_present. eapply L; eauto.
    + now apply recordAll_agrees.
  - exact IH.
Qed.

Lemma positives_get h :
  uniqueKeys h -> forall cid, JS.get Qeq_bool (positives h) cid = recorded h cid.
Proof.
  unfold recorded.
  induction h as [|[k seen] h IH]; simpl; [reflexivity|].
  intros [F U] cid. specialize (IH U cid).
  destruct (Qeq_bool cid k) eqn:E.
  - destruct (JS.lt 0 (bestKnown seen)); simpl; [now rewrite E|].
    rewrite IH, (get_compat h cid k E), F. reflexivity.
  - destruct (JS.lt 0 (bestKnown seen)); simpl; [rewrite E|]; exact IH.
Qed.

Lemma positives_unique h : uniqueKeys h -> uniqueKeys (positives h).
Proof.
  induction h as [|[k seen] h IH]; simpl; [auto|].
  intros [F U]. destruct (JS.lt 0 (bestKnown seen)); simpl; [|auto].
  split; [|auto]. rewrite (positives_get h U). unfold recorded. now rewrite F.
Qed.

Lemma positives_count p h :
  countIf p (positives h)
  = List.length
      (filter (fun entry => JS.lt 0 (bestKnown (snd entry))
                            && p (bestKnown (snd entry))) h).
Proof.
  unfold countIf.
  induction h as [|[k seen] h IH]; simpl; [reflexivity|].
  destruct (JS.lt 0 (bestKnown seen)); simpl; [|exact IH].
  destruct (p (bestKnown seen)); simpl; now rewrite IH.
Qed.

(** C9, as the code has it.  After an update of the world, bin [k] of the
    histogram counts the creatures ever added, in the world or removed,
    whose best known distance is positive and falls in bin [k], that is
    from [100 k] up to [100 k + 100]; the greatest position seen of a
    creature is the one over the updates it lived through and its
    removal.  A creature that never got past 0 is in no bin. *)
Theorem histogram_counts_positive_bests :
  forall Engine_update w e h delta,
    tracked Engine_update (w, e) h ->
    let w' := fst (MainWorld_update Engine_update delta w e) in
    let h' := sightAll (Engine_update e delta) (creatures w) h in
    (forall k,
        nth k (distanceBins w') 0
        = List.length
            (filter (fun entry => JS.lt 0 (bestKnown (snd entry))
                                  && binOf k (bestKnown (snd entry))) h')) /\
    (forall k dist,
        binOf k dist = true <->
        (100 * inject_Z (Z.of_nat k) <= dist)%Q /\
        (dist < 100 * inject_Z (Z.of_nat k) + 100)%Q).
Proof.
  intros EU w e h delta T w' h'.
  split; [|apply binOf_range].
  pose proof (tracked_coherent EU _ _ (tracked_update EU w e h delta T)) as C.
  destruct C as (_ & Uh & Ud & A).
  intros k. unfold w'. simpl. rewrite rebuildBins_nth.
  rewrite <- positives_count.
  apply countIf_agree.
  - exact Ud.
  - now apply positives_unique.
  - intros cid. simpl in A. rewrite A. symmetry. now apply positives_get.
Qed.

End WorldFacts.



(** ** The properties on concrete runs *)

Module Samples.
Import Matter Creature Eff Generator Controller.
Import GeneratorSpec ControllerSpec WorldSpec SampleData.
Import GeneratorFacts ControllerFacts TrickleFacts WorldFacts.

Lemma sampleEnv_valid : validRandom sampleEnv.
Proof.
  intros n. change (random sampleEnv n) with (sampleRandom n).
  unfold sampleRandom, Qle, Qlt. cbn [Qnum Qden].
  pose proof (Nat.mod_upper_bound (n * 37) 100). lia.
Qed.

(** C1, on the code: one creature is spawned, the engine carries it to
    [x = 500] and the main loop runs; the creature is alive with a [maxX] of
    500, yet [allCreatures] has no entry and the leaderboard is empty. *)
Theorem leaderboard_misses_live_creature :
  option_map
    (fun s => (map maxX (creatures (fst s)),
               allCreatures (fst s),
               getTop3HighScores (fst s)))
    (sampleRun [Trickle 1000; WorldFrame 1016; Frame 1016])
  = Some ([500%Q], [], []).
Proof. vm_compute. reflexivity. Qed.

Lemma allCreatures_always_empty_witness :
  exists c e,
    run sampleMath sampleConfig sampleEngine
        [Trickle 1000; WorldFrame 1016; Frame 1016]
        (construct sampleConfig sampleEngine sampleEnv)
    = Some (c, e) /\
    allCreatures c = [] /\
    getTop3HighScores c = [] /\
    getTop3HighScores (updateTop3HighScores c) = [].
Proof.
  assert (R : returned
                (run sampleMath sampleConfig sampleEngine
                     [Trickle 1000; WorldFrame 1016; Frame 1016]
                     (construct sampleConfig sampleEngine sampleEnv))
              = true) by (vm_compute; reflexivity).
  revert R.
  generalize (allCreatures_always_empty sampleMath sampleConfig sampleEngine
                [Trickle 1000; WorldFrame 1016; Frame 1016] sampleEnv).
  generalize (run sampleMath sampleConfig sampleEngine
                  [Trickle 1000; WorldFrame 1016; Frame 1016]
                  (construct sampleConfig sampleEngine sampleEnv)).
  intros [[c e]|] H R; [|discriminate R].
  exists c, e. split; [reflexivity | apply (H c e eq_refl)].
Defined.

Lemma trickle_culls_oldest_outsider_witness :
  exists c' e',
    trickleAddCreature sampleMath sampleConfig crowded sampleEnv
    = Some (c', e') /\
    generationSize <= List.length (creatures crowded) /\
    exists snapshot rest,
      List.length snapshot = 10 /\
      Permutation (creatures crowded) (snapshot ++ rest) /\
      (forall t r, In t snapshot -> In r rest -> (maxX r <= maxX t)%Q) /\
      (forall t, In t snapshot -> In t (creatures c')).
Proof.
  assert (L : generationSize <= List.length (creatures crowded))
    by (apply Nat.leb_le; reflexivity).
  assert (R : returned (trickleAddCreature sampleMath sampleConfig crowded
                          sampleEnv) = true) by (vm_compute; reflexivity).
  revert R.
  generalize (trickle_culls_oldest_outsider sampleMath sampleConfig crowded
                sampleEnv).
  generalize (trickleAddCreature sampleMath sampleConfig crowded sampleEnv).
  intros [[c' e']|] H R; [|discriminate R].
  exists c', e'. split; [reflexivity|]. split; [exact L|].
  destruct (H c' e' eq_refl L) as (snapshot & rest & _ & A & B & C & D & _).
  exists snapshot, rest. auto.
Defined.

Lemma live_count_bounded_witness :
  validRandom sampleEnv /\
  exists c e c' e',
    run sampleMath sampleConfig sampleEngine
        [Trickle 1000; Frame 1016; Trickle 1250]
        (construct sampleConfig sampleEngine sampleEnv)
    = Some (c, e) /\
    step sampleMath sampleConfig sampleEngine (Trickle 1500) (c, e)
    = Some (c', e') /\
    List.length (creatures c) <= 50 /\
    List.length (creatures c') <= 50 /\
    List.length (creatures c')
    = if 50 <=? List.length (creatures c)
      then List.length (creatures c)
      else S (List.length (creatures c)).
Proof.
  split; [exact sampleEnv_valid|].
  exact (live_count_bounded sampleMath sampleConfig sampleEngine
           [Trickle 1000; Frame 1016; Trickle 1250] 1500%Z sampleEnv
           sampleEnv_valid).
Defined.

Lemma ensureMinimumConnections_repairs_witness :
  validRandom sampleEnv /\
  exists ms' e',
    ensureMinimumConnections sampleMath loose [] sampleEnv = Some (ms', e') /\
    repairs loose [] ms' /\
    (forall a b, In a loose -> In b loose ->
                 incident ms' a < 2 -> incident ms' b < 2 ->
                 body a = body b).
Proof.
  split; [exact sampleEnv_valid|].
  exact (ensureMinimumConnections_repairs sampleMath loose [] sampleEnv
           sampleEnv_valid).
Defined.

Lemma createRandomCreature_ring_witness :
  validRandom sampleEnv /\
  exists c e',
    createRandomCreature sampleMath sampleConfig sampleEnv = Some (c, e') /\
    4 <= List.length (bodies c) <= 11.
Proof.
  split; [exact sampleEnv_valid|].
  destruct (createRandomCreature_ring sampleMath sampleConfig sampleEnv
              sampleEnv_valid) as (c & e' & E & N & _).
  exists c, e'. auto.
Defined.

Lemma freezeCreature_idempotent_witness :
  In {| body := 1 |} (bodies pair) /\
  let s1 := freezeCreature pair (fresh 0) moving in
  isStatic (store (snd s1) 1) = true /\
  velocity (store (snd s1) 1) = {| x := 0; y := 0 |} /\
  angularVelocity (store (snd s1) 1) = 0%Q /\
  fst (freezeCreature pair (fst s1) (snd s1)) = fst s1.
Proof.
  assert (I : In {| body := 1 |} (bodies pair)) by (simpl; auto).
  split; [exact I|].
  destruct (freezeCreature_idempotent pair (fresh 0) moving)
    as (F & C & _).
  destruct (F {| body := 1 |} I) as (A & B & D).
  repeat split; assumption.
Defined.

Lemma straggler_tracked :
  tracked stillEngine (World.addCreature straggler (World.empty 0), behind)
          ([] ++ [(id straggler, [])]).
Proof.
  apply tracked_add; [apply tracked_new | reflexivity].
Qed.

(** C9, as stated, fails: the creature has been added, its best known
    distance is 0, which is in bin 0, and after an update bin 0 is empty. *)
Lemma histogram_skips_creatures_at_zero :
  ~ (forall Engine_update w e h delta,
        tracked Engine_update (w, e) h ->
        forall k,
          nth k (World.distanceBins
                   (fst (World.MainWorld_update Engine_update delta w e))) 0
          = List.length
              (filter (fun entry => binOf k (bestKnown (snd entry)))
                      (sightAll (Engine_update e delta)
                                (World.creatures w) h))).
Proof.
  intros H.
  specialize (H stillEngine _ _ _ 16%Q straggler_tracked 0).
  vm_compute in H. discriminate H.
Qed.

Lemma histogram_counts_positive_bests_witness :
  tracked stillEngine (World.addCreature straggler (World.empty 0), behind)
          ([] ++ [(id straggler, [])]) /\
  nth 0 (World.distanceBins
           (fst (World.MainWorld_update stillEngine 16
                   (World.addCreature straggler (World.empty 0)) behind))) 0
  = 0.
Proof.
  split; [exact straggler_tracked|].
  rewrite (proj1 (histogram_counts_positive_bests stillEngine _ _ _ 16%Q
                    straggler_tracked) 0).
  reflexivity.
Defined.

End Samples.

(** ** More properties of [Creature.ts] *)

Module MuscleFacts.
Import Matter Creature MoreSpec SampleData.

Lemma Muscle_update_config st delta groundY m :
  config (Muscle_update st delta groundY m) = config m.
Proof. unfold Muscle_update. now destruct (activate st delta groundY m). Qed.

Lemma Muscle_update_ends st delta groundY m :
  bodyA (constraint (Muscle_update st delta groundY m)) = bodyA (constraint m)
  /\ bodyB (constraint (Muscle_update st delta groundY m))
     = bodyB (constraint m)
  /\ cid (constraint (Muscle_update st delta groundY m)) = cid (constraint m).
Proof. unfold Muscle_update. now destruct (activate st delta groundY m). Qed.

Lemma periodic_timer_step st delta groundY m p :
  activationType (config m) = periodic ->
  period (config m) = Some p ->
  (0 < p)%Q -> (0 <= delta)%Q -> (0 <= timer m)%Q ->
  (0 <= timer (Muscle_update st delta groundY m))%Q /\
  (timer (Muscle_update st delta groundY m) < p)%Q.
Proof.
  intros Ht Hp P D T. unfold Muscle_update, activate. rewrite Ht, Hp. simpl.
  unfold JS.ge. destruct (Qle_bool p (timer m + delta)) eqn:E; simpl.
  - split; lra.
  - split; [lra|]. apply Qnot_le_lt. intros L.
    apply Qle_bool_iff in L. congruence.
Qed.

(** X1. The timer of a periodic muscle never reaches the period: started
    from a timer that is not negative, with steps that are not negative,
    after every update it is in [0, period). *)
Theorem periodic_timer_below_period :
  forall st delta groundY n m p,
    activationType (config m) = periodic ->
    period (config m) = Some p ->
    (0 < p)%Q -> (0 <= delta)%Q -> (0 <= timer m)%Q ->
    Forall (fun m' => (0 <= timer m')%Q /\ (timer m' < p)%Q)
           (Muscle_trace st delta groundY n m).
Proof.
  intros st delta groundY n; induction n as [|n IH];
    intros m p Ht Hp P D T; cbn [Muscle_trace]; constructor.
  - exact (periodic_timer_step st delta groundY m p Ht Hp P D T).
  - apply IH; try assumption.
    + now rewrite Muscle_update_config.
    + now rewrite Muscle_update_config.
    + exact (proj1 (periodic_timer_step st delta groundY m p Ht Hp P D T)).
Qed.

Lemma periodic_timer_below_period_witness :
  Forall (fun m' => (0 <= timer m')%Q /\ (timer m' < 100)%Q)
         (Muscle_trace grounded 16 600 10 sample_muscle).
Proof.
  apply (periodic_timer_below_period grounded 16%Q 600%Q 10 sample_muscle
           100%Q eq_refl eq_refl);
    [reflexivity | discriminate | discriminate].
Defined.

Lemma contact_step st delta groundY m :
  activationType (config m) = onGroundContact ->
  let m' := Muscle_update st delta groundY m in
  timer m' = timer m /\
  active m' = (if inContact st groundY m then negb (active m) else active m) /\
  inContact st groundY m' = inContact st groundY m.
Proof.
  intros Ht m'.
  destruct (Muscle_update_ends st delta groundY m) as (EA & EB & _).
  fold m' in EA, EB.
  split; [|split].
  - unfold m', Muscle_update, activate. rewrite Ht.
    destruct (bodyA (constraint m)), (bodyB (constraint m)); try reflexivity.
    destruct (_ || _); reflexivity.
  - unfold m', Muscle_update, activate, inContact. rewrite Ht.
    destruct (bodyA (constraint m)), (bodyB (constraint m)); try reflexivity.
    destruct (_ || _); reflexivity.
  - unfold inContact. now rewrite EA, EB.
Qed.

(** X2. A muscle that flips on ground contact has no debounce: as long as
    one of its ends is on the ground line or below, [active] flips at every
    update, so after [k + 1] updates it is flipped for [k] even and back
    for [k] odd; with both ends above the line it never changes.  Its timer
    never moves. *)
Theorem ground_contact_alternates :
  forall st delta groundY n m,
    activationType (config m) = onGroundContact ->
    map timer (Muscle_trace st delta groundY n m) = repeat (timer m) n /\
    map active (Muscle_trace st delta groundY n m)
    = map (fun k => if inContact st groundY m && Nat.even k
                    then negb (active m) else active m)
          (seq 0 n).
Proof.
  intros st delta groundY n; induction n as [|n IH]; intros m Ht;
    [split; reflexivity|].
  destruct (contact_step st delta groundY m Ht) as (Et & Ea & Ec).
  destruct (IH (Muscle_update st delta groundY m)) as (IHt & IHa).
  { now rewrite Muscle_update_config. }
  cbn [Muscle_trace map repeat seq]. rewrite IHt, IHa, Et, Ea, Ec.
  split; [reflexivity|].
  rewrite <- seq_shift, map_map.
  f_equal.
  - destruct (inContact st groundY m); reflexivity.
  - apply map_ext. intros k. rewrite Nat.even_succ, <- Nat.negb_even.
    destruct (inContact st groundY m), (Nat.even k), (active m); reflexivity.
Qed.

Lemma ground_contact_alternates_witness :
  map active (Muscle_trace grounded 16 600 4 contact_muscle)
  = [true; false; true; false].
Proof.
  exact (proj2 (ground_contact_alternates grounded 16%Q 600%Q 4 contact_muscle
                  eq_refl)).
Defined.

(** X3. Whatever its activation type, after an update the constraint of a
    muscle is commanded to the rest length when the muscle is inactive and
    to the rest length times the extension factor (1.5 when absent) when it
    is active; the ends and the configuration are untouched.  With an
    extension factor of at least 1 the commanded length is never below the
    rest length. *)
Theorem commanded_length :
  forall st delta groundY m,
    let m' := Muscle_update st delta groundY m in
    length (constraint m')
    = (if active m'
       then (restLength (config m)
             * JS.nullish (extensionFactor (config m)) (3 # 2))%Q
       else restLength (config m)) /\
    config m' = config m /\
    bodyA (constraint m') = bodyA (constraint m) /\
    bodyB (constraint m') = bodyB (constraint m) /\
    ((0 <= restLength (config m))%Q ->
     (1 <= JS.nullish (extensionFactor (config m)) (3 # 2))%Q ->
     (restLength (config m) <= length (constraint m'))%Q).
Proof.
  intros st delta groundY m m'.
  assert (L : length (constraint m')
              = (if active m'
                 then (restLength (config m)
                       * JS.nullish (extensionFactor (config m)) (3 # 2))%Q
                 else restLength (config m))).
  { unfold m', Muscle_update.
    destruct (activate st delta groundY m) as [t a]. reflexivity. }
  destruct (Muscle_update_ends st delta groundY m) as (EA & EB & _).
  split; [exact L|]. split; [apply Muscle_update_config|].
  split; [exact EA|]. split; [exact EB|].
  intros R X. rewrite L. destruct (active m'); [nra | lra].
Qed.

Lemma commanded_length_witness :
  (restLength (config sample_muscle)
   <= length (constraint (Muscle_update grounded 16 600 sample_muscle)))%Q.
Proof.
  apply (commanded_length grounded 16%Q 600%Q sample_muscle); discriminate.
Defined.

(** X4. After [Creature.update] the creature's [maxX] is at least the [x] of
    each of its bodies, and it is the previous [maxX] or the [x] of one of
    the bodies; the update changes neither the bodies, the identity, the
    birth time nor the number of muscles. *)
Theorem update_maxX_is_the_furthest :
  forall st delta groundY c,
    let c' := Creature_update st delta groundY c in
    (forall b, In b (bodies c) ->
               (x (position (st (body b))) <= maxX c')%Q) /\
    (maxX c' = maxX c \/
     exists b, In b (bodies c) /\ maxX c' = x (position (st (body b)))) /\
    bodies c' = bodies c /\ id c' = id c /\ bornAt c' = bornAt c /\
    addr c' = addr c /\
    List.length (muscles c') = List.length (muscles c).
Proof.
  intros st delta groundY c c'. split; [|split].
  - intros b Hb. simpl. apply CreatureFacts.Math_max_from_upper.
    unfold xs_of. apply in_map_iff. exists b. auto.
  - simpl. unfold JS.Math_max_from.
    generalize (maxX c). unfold xs_of.
    induction (bodies c) as [|b bs IH]; intros a; simpl; [now left|].
    destruct (IH (Qmax a (x (position (st (body b)))))) as [E|(b' & Hb' & E)].
    + rewrite E. unfold Qmax, GenericMinMax.gmax.
      destruct (a ?= x (position (st (body b))))%Q; eauto.
    + right. eauto.
  - repeat split. simpl. apply length_map.
Qed.

Lemma update_maxX_is_the_furthest_witness :
  In {| body := 1 |} (bodies pair) /\
  (x (position (grounded 1%nat))
   <= maxX (Creature_update grounded 16 600 pair))%Q.
Proof.
  assert (I : In {| body := 1 |} (bodies pair)) by (simpl; auto).
  split; [exact I|].
  apply (proj1 (update_maxX_is_the_furthest grounded 16%Q 600%Q pair)
           {| body := 1 |} I).
Defined.

End MuscleFacts.

(** ** Properties of the queries of the controller *)

Module QueryFacts.
Import Matter Creature Eff Generator Controller Queries.
Import ControllerSpec MoreSpec SampleData SortFacts.

(** X5. [getTopCreatures(count)] returns [min(count, live)] creatures in
    descending order of [maxX]; together with the creatures it leaves out
    they are the live creatures, and none it leaves out has travelled
    further than one it returns. *)
Theorem getTopCreatures_ranked :
  forall count c,
    let top := getTopCreatures count c in
    List.length top = Nat.min count (List.length (creatures c)) /\
    StronglySorted further top /\
    exists rest,
      Permutation (creatures c) (top ++ rest) /\
      forall t r, In t top -> In r rest -> further t r.
Proof.
  intros count c top.
  pose proof (sort_sorted (creatures c)) as S.
  pose proof (sort_perm byMaxXDesc (creatures c)) as P.
  unfold top, getTopCreatures, JS.slice0.
  rewrite <- (firstn_skipn count (JS.sort byMaxXDesc (creatures c))) in S.
  apply sorted_app in S. destruct S as [S1 C].
  split; [|split; [exact S1|]].
  - rewrite length_firstn. now rewrite (Permutation_length P).
  - exists (skipn count (JS.sort byMaxXDesc (creatures c))).
    split; [|exact C]. rewrite firstn_skipn. now symmetry.
Qed.

Lemma getTopCreatures_ranked_witness :
  map maxX (getTopCreatures 2 handful) = [4; 3]%Q /\
  forall t, In t (getTopCreatures 2 handful) ->
            In t (creatures handful).
Proof.
  split; [reflexivity|].
  destruct (getTopCreatures_ranked 2 handful) as (_ & _ & rest & P & _).
  intros t Ht. eapply Permutation_in; [symmetry; exact P|].
  apply in_or_app. now left.
Defined.

(** X6. The best distance [App.tsx] displays is 0 when no creature is
    alive; otherwise it is the [maxX] of a live creature and no live
    creature has a greater one. *)
Theorem bestDistance_is_the_maximum :
  forall c,
    (creatures c = [] -> bestDistance c = 0%Q) /\
    (forall d, In d (creatures c) -> (maxX d <= bestDistance c)%Q) /\
    (creatures c <> [] ->
     exists d, In d (creatures c) /\ bestDistance c = maxX d).
Proof.
  intros c. unfold bestDistance, getTopCreatures, JS.slice0.
  pose proof (sort_sorted (creatures c)) as S.
  pose proof (sort_perm byMaxXDesc (creatures c)) as P.
  destruct (JS.sort byMaxXDesc (creatures c)) as [|t ts] eqn:E; simpl.
  - apply Permutation_nil in P.
    split; [reflexivity|]. split; [rewrite P; intros d []|].
    intros N. now destruct N.
  - split; [|split].
    + intros N. rewrite N in P. symmetry in P.
      apply Permutation_nil in P. discriminate.
    + intros d Hd. apply (Permutation_in _ (Permutation_sym P)) in Hd.
      apply StronglySorted_inv in S. destruct S as [_ F].
      destruct Hd as [<-|Hd]; [apply Qle_refl|].
      apply (proj1 (Forall_forall _ _) F d Hd).
    + intros _. exists t. split; [|reflexivity].
      apply (Permutation_in _ P). now left.
Qed.

Lemma bestDistance_is_the_maximum_witness :
  creatures handful <> [] /\
  exists d, In d (creatures handful) /\ bestDistance handful = maxX d.
Proof.
  assert (N : creatures handful <> []) by discriminate.
  split; [exact N|].
  apply (proj2 (proj2 (bestDistance_is_the_maximum handful)) N).
Defined.

Lemma Math_min_from_le ts :
  forall t v, In v (t :: ts) -> (Math_min_from t ts <= v)%Z.
Proof.
  unfold Math_min_from.
  induction ts as [|u ts IH]; intros t v; simpl.
  - intros [<-|[]]. lia.
  - intros [<-|[<-|Hv]].
    + pose proof (IH (Z.min t u) (Z.min t u) (or_introl eq_refl)). lia.
    + pose proof (IH (Z.min t u) (Z.min t u) (or_introl eq_refl)). lia.
    + apply IH. now right.
Qed.

Lemma Math_min_from_in ts :
  forall t, In (Math_min_from t ts) (t :: ts).
Proof.
  unfold Math_min_from.
  induction ts as [|u ts IH]; intros t; simpl; [now left|].
  destruct (IH (Z.min t u)) as [E|H]; [|now right; right].
  rewrite <- E. destruct (Z.min_spec t u) as [[_ ->]|[_ ->]]; auto.
Qed.

(** X7. [getTimeUntilNextEvolution()] is never negative.  It is the
    lifetime, 15000, when no live creature is outside of the top 3, which
    is the case with at most three live creatures; otherwise it is the
    least of what is left to the creatures outside of the top 3, or 0 when
    that is negative: as soon as one of them has outlived the lifetime it
    is 0.  It is at most the lifetime when no creature is born after now. *)
Theorem time_until_next_evolution :
  forall c e,
    let t := getTimeUntilNextEvolution c e in
    (0 <= t)%Z /\
    (nonTop3 c = [] -> t = lifetime) /\
    (List.length (creatures c) <= 3 -> t = lifetime) /\
    (forall d, In d (nonTop3 c) ->
               (t <= Z.max 0 (bornAt d + lifetime - clock e))%Z) /\
    (nonTop3 c <> [] ->
     t = 0%Z \/
     exists d, In d (nonTop3 c) /\ t = (bornAt d + lifetime - clock e)%Z) /\
    ((forall d, In d (creatures c) -> (bornAt d <= clock e)%Z) ->
     (t <= lifetime)%Z).
Proof.
  intros c e t.
  assert (Empty : nonTop3 c = [] -> t = lifetime).
  { intros N. unfold t, getTimeUntilNextEvolution. fold (nonTop3 c).
    now rewrite N. }
  assert (Bound : forall d, In d (nonTop3 c) ->
                            (t <= Z.max 0 (bornAt d + lifetime - clock e))%Z).
  { intros d Hd. unfold t, getTimeUntilNextEvolution. fold (nonTop3 c).
    pose proof (in_map (fun d => (bornAt d + lifetime - clock e)%Z) _ _ Hd)
      as Hm.
    destruct (map _ (nonTop3 c)) as [|u us]; [destruct Hm|].
    pose proof (Math_min_from_le us u _ Hm). lia. }
  split; [|split; [exact Empty|split; [|split; [exact Bound|split]]]].
  - unfold t, getTimeUntilNextEvolution.
    destruct (map _ _); [unfold lifetime|]; lia.
  - intros L. apply Empty. unfold nonTop3, JS.slice0.
    rewrite firstn_all2
      by (rewrite (Permutation_length (sort_perm byMaxXDesc (creatures c)));
          exact L).
    apply TrickleFacts.filter_none. intros d Hd. apply negb_false_iff.
    unfold includes. apply existsb_exists. exists d.
    split; [|unfold same; apply Nat.eqb_refl].
    apply (Permutation_in _ (Permutation_sym (sort_perm _ _)) Hd).
  - intros N. unfold t, getTimeUntilNextEvolution. fold (nonTop3 c).
    destruct (map (fun d => (bornAt d + lifetime - clock e)%Z) (nonTop3 c))
      as [|u us] eqn:E.
    + apply map_eq_nil in E. contradiction.
    + pose proof (Math_min_from_in us u) as Hin. rewrite <- E in Hin.
      apply in_map_iff in Hin. destruct Hin as (d & Ed & Hd).
      destruct (Z.max_spec 0 (Math_min_from u us)) as [[_ ->]|[_ ->]].
      * right. exists d. auto.
      * now left.
  - intros Born. destruct (nonTop3 c) as [|d ds] eqn:N;
      [rewrite (Empty eq_refl); lia|].
    assert (Hd : In d (creatures c)).
    { assert (H : In d (nonTop3 c)) by (rewrite N; now left).
      unfold nonTop3 in H. apply filter_In in H. tauto. }
    specialize (Born d Hd).
    specialize (Bound d (or_introl eq_refl)).
    unfold lifetime in *. lia.
Qed.

Lemma time_until_next_evolution_witness :
  In (nth 1 (creatures handful) pair) (nonTop3 handful) /\
  (getTimeUntilNextEvolution handful (with_clock sampleEnv 20000)
   <= Z.max 0 (1000 + lifetime - 20000))%Z.
Proof.
  assert (I : In (nth 1 (creatures handful) pair) (nonTop3 handful))
    by (vm_compute; auto).
  split; [exact I|].
  apply (proj1 (proj2 (proj2 (proj2
           (time_until_next_evolution handful (with_clock sampleEnv 20000)))))
           _ I).
Defined.

End QueryFacts.

(** ** Properties of the callbacks of the controller *)

Module LifecycleFacts.
Import Matter Creature Eff Generator Controller Queries.
Import GeneratorSpec ControllerSpec MoreSpec SampleData.
Import GeneratorFacts ControllerFacts TrickleFacts.

(** *** The counters *)

Lemma cull_counts c e :
  evolutionCount (fst (cull c e)) = evolutionCount c /\
  totalCreatures (fst (cull c e)) = totalCreatures c /\
  (List.length (creatures c) < generationSize -> cull c e = (c, e)).
Proof.
  unfold cull.
  destruct (generationSize <=? List.length (creatures c)) eqn:E.
  - apply Nat.leb_le in E.
    destruct (JS.reduce older _) as [oldest|];
      [destruct (World.removeCreature _ _ _)|];
      (split; [reflexivity|]; split; [reflexivity|]; lia).
  - auto.
Qed.

Lemma tick_counts cfg now s creature :
  evolutionCount (fst (tick cfg now s creature)) = evolutionCount (fst s) /\
  totalCreatures (fst (tick cfg now s creature)) = totalCreatures (fst s).
Proof.
  destruct s as [c e]. unfold tick.
  destruct (lifetime <? _)%Z; auto.
Qed.

Lemma mainLoop_counts cfg c e :
  evolutionCount (fst (mainLoop cfg c e)) = evolutionCount c /\
  totalCreatures (fst (mainLoop cfg c e)) = totalCreatures c.
Proof.
  unfold mainLoop.
  assert (H : forall cs s,
             evolutionCount (fst (fold_left (tick cfg (clock e)) cs s))
             = evolutionCount (fst s) /\
             totalCreatures (fst (fold_left (tick cfg (clock e)) cs s))
             = totalCreatures (fst s)).
  { induction cs as [|cr cs IH]; intros s; simpl; [auto|].
    destruct (IH (tick cfg (clock e) s cr)) as [A B].
    destruct (tick_counts cfg (clock e) s cr) as [A' B'].
    split; congruence. }
  specialize (H (creatures c) (c, e)).
  destruct (fold_left _ _ _) as [c1 e1]. exact H.
Qed.

Lemma trickle_counts fl cfg c e c' e' :
  trickleAddCreature fl cfg c e = Some (c', e') ->
  totalCreatures c < 50 ->
  totalCreatures c' < 50 /\ displayedCount c' = S (displayedCount c).
Proof.
  unfold trickleAddCreature, displayedCount, getEvolutionCount,
    getTotalCreatureCount.
  destruct (cull_counts c e) as (Ev & To & _).
  destruct (cull c e) as [c1 e1]. simpl in Ev, To. unfold bind.
  destruct (createRandomCreature fl cfg e1) as [[cr e2]|]; [|discriminate].
  unfold Date_now, gets, ret. cbv beta zeta.
  cbn [totalCreatures evolutionCount with_mainWorld with_creatures].
  intros H L.
  destruct ((totalCreatures c1 + 1) mod 50 =? 0) eqn:E;
    injection H as <- <-;
    cbn [totalCreatures evolutionCount with_counts].
  - apply Nat.eqb_eq in E.
    assert (totalCreatures c1 = 49).
    { rewrite To in *. destruct (Nat.eq_dec (totalCreatures c) 49); [auto|].
      rewrite Nat.mod_small in E by lia. lia. }
    lia.
  - apply Nat.eqb_neq in E.
    assert (totalCreatures c1 <> 49).
    { intros E9. apply E. rewrite E9. reflexivity. }
    lia.
Qed.

Lemma step_counts fl cfg Engine_update ev s s' :
  step fl cfg Engine_update ev s = Some s' ->
  totalCreatures (fst s) < 50 ->
  totalCreatures (fst s') < 50 /\
  displayedCount (fst s') = displayedCount (fst s) + trickles [ev].
Proof.
  destruct s as [c e]. destruct ev as [now|now|now]; unfold step;
    cbn [fst snd].
  - destruct s' as [c' e']. intros H L.
    destruct (trickle_counts _ _ _ _ _ _ H L). cbn [fst].
    unfold trickles; simpl. lia.
  - intros H L; injection H as <-.
    destruct (mainLoop_counts cfg c (with_clock e now)) as [A B].
    unfold displayedCount, getEvolutionCount, getTotalCreatureCount,
      trickles; simpl.
    rewrite A, B. lia.
  - destruct (World.updateLoop _ _ _) as [w e1].
    intros H L; injection H as <-.
    unfold displayedCount, getEvolutionCount, getTotalCreatureCount,
      trickles; simpl. lia.
Qed.

Lemma run_counts fl cfg Engine_update evs :
  forall s s',
    run fl cfg Engine_update evs s = Some s' ->
    totalCreatures (fst s) < 50 ->
    totalCreatures (fst s') < 50 /\
    displayedCount (fst s') = displayedCount (fst s) + trickles evs.
Proof.
  induction evs as [|ev evs IH]; intros s s'; simpl.
  - intros H L; injection H as <-. unfold trickles; simpl. lia.
  - destruct (step fl cfg Engine_update ev s) as [s1|] eqn:E; [|discriminate].
    intros H L.
    destruct (step_counts _ _ _ _ _ _ E L) as [L1 D1].
    destruct (IH _ _ H L1) as [L2 D2].
    split; [exact L2|]. rewrite D2, D1.
    unfold trickles. simpl. destruct ev; simpl; lia.
Qed.

(** X8. The two counters of the controller count the spawns: after any
    callbacks from the construction, [totalCreatures] is below 50 and
    [evolutionCount * 50 + totalCreatures], the count [App.tsx] displays, is
    the number of trickle steps run; so [evolutionCount] is that number
    divided by 50 and [totalCreatures] the remainder.  Culling does not
    lower them. *)
Theorem counters_count_the_spawns :
  forall fl cfg Engine_update evs e0 c e,
    run fl cfg Engine_update evs (construct cfg Engine_update e0)
    = Some (c, e) ->
    totalCreatures c < 50 /\
    displayedCount c = trickles evs /\
    getEvolutionCount c = trickles evs / 50 /\
    getTotalCreatureCount c = trickles evs mod 50.
Proof.
  intros fl cfg eu evs e0 c e H.
  assert (Z0 : totalCreatures (fst (construct cfg eu e0)) = 0 /\
               evolutionCount (fst (construct cfg eu e0)) = 0).
  { unfold construct. destruct (World.updateLoop _ _ _) as [w e1].
    destruct (mainLoop_counts cfg (with_mainWorld (fresh (clock e0)) w) e1)
      as [A B].
    rewrite A, B. auto. }
  destruct Z0 as [T0 E0].
  assert (L0 : totalCreatures (fst (construct cfg eu e0)) < 50)
    by (rewrite T0; lia).
  destruct (run_counts _ _ _ _ _ _ H L0) as [L D].
  cbn [fst] in L, D.
  assert (D' : displayedCount c = trickles evs).
  { rewrite D. unfold displayedCount, getEvolutionCount,
      getTotalCreatureCount. rewrite T0, E0. reflexivity. }
  split; [exact L|]. split; [exact D'|].
  unfold displayedCount, getEvolutionCount, getTotalCreatureCount in *.
  pose proof (Nat.div_mod_eq (trickles evs) 50).
  pose proof (Nat.mod_upper_bound (trickles evs) 50).
  split; nia.
Qed.

Lemma counters_count_the_spawns_witness :
  exists c e,
    run sampleMath sampleConfig sampleEngine
        [Trickle 1000; Frame 1016; Trickle 1250; Trickle 1500]
        (construct sampleConfig sampleEngine sampleEnv)
    = Some (c, e) /\
    displayedCount c = 3 /\ getTotalCreatureCount c = 3.
Proof.
  assert (R : returned
                (run sampleMath sampleConfig sampleEngine
                     [Trickle 1000; Frame 1016; Trickle 1250; Trickle 1500]
                     (construct sampleConfig sampleEngine sampleEnv))
              = true) by (vm_compute; reflexivity).
  revert R.
  generalize (counters_count_the_spawns sampleMath sampleConfig sampleEngine
                [Trickle 1000; Frame 1016; Trickle 1250; Trickle 1500]
                sampleEnv).
  generalize (run sampleMath sampleConfig sampleEngine
                  [Trickle 1000; Frame 1016; Trickle 1250; Trickle 1500]
                  (construct sampleConfig sampleEngine sampleEnv)).
  intros [[c e]|] H R; [|discriminate R].
  exists c, e. split; [reflexivity|].
  destruct (H c e eq_refl) as (_ & D & _ & T). split; assumption.
Defined.

(** *** A trickle step below the capacity *)

(** X9. A trickle step entered with fewer than 50 live creatures removes
    none: it appends one new creature, born now, with a [maxX] of 0 and
    between 4 and 11 bodies, registers its bodies and muscles in the world
    under its id, and leaves [deadCreatures] alone. *)
Theorem trickle_below_capacity :
  forall fl cfg c e,
    validRandom e ->
    List.length (creatures c) < generationSize ->
    exists c' e' new,
      trickleAddCreature fl cfg c e = Some (c', e') /\
      creatures c' = creatures c ++ [new] /\
      bornAt new = clock e /\
      maxX new = 0%Q /\
      addr new = nextObject e /\
      4 <= List.length (bodies new) <= 11 /\
      deadCreatures c' = deadCreatures c /\
      JS.get Qeq_bool (World.creatures (mainWorld c')) (id new)
      = Some {| World.cd_bodies := bodies new;
                World.cd_muscles := muscles new |}.
Proof.
  intros fl cfg c e V L.
  destruct (cull_counts c e) as (_ & _ & K). specialize (K L).
  destruct (createRandomCreature_returns fl cfg e V)
    as (cr & e' & E & Ea & _ & _ & Ec & Ex & Hn & _).
  unfold trickleAddCreature. rewrite K. unfold bind. rewrite E.
  unfold Date_now, gets, ret. cbv beta zeta.
  assert (G : forall (w : JS.Map Q World.CreatureData) k v,
             JS.get Qeq_bool (JS.set Qeq_bool w k v) k = Some v).
  { intros w k v. rewrite WorldFacts.get_set. now rewrite Qeq_bool_refl. }
  destruct (_ =? 0); eexists _, _, (set_bornAt (clock e') cr);
    (split; [reflexivity|]); simpl;
    (split; [reflexivity|]); (split; [exact Ec|]);
    (split; [exact Ex|]); (split; [exact Ea|]); (split; [exact Hn|]);
    (split; [reflexivity|]); apply G.
Qed.

Lemma trickle_below_capacity_witness :
  validRandom sampleEnv /\
  List.length (creatures handful) < generationSize /\
  exists c' e' new,
    trickleAddCreature sampleMath sampleConfig handful sampleEnv
    = Some (c', e') /\
    creatures c' = creatures handful ++ [new] /\
    maxX new = 0%Q.
Proof.
  assert (L : List.length (creatures handful) < generationSize)
    by (apply Nat.ltb_lt; reflexivity).
  split; [exact Samples.sampleEnv_valid|]. split; [exact L|].
  destruct (trickle_below_capacity sampleMath sampleConfig handful sampleEnv
              Samples.sampleEnv_valid L) as (c' & e' & new & E & A & _ & B & _).
  exists c', e', new. auto.
Defined.

(** *** One turn of the main loop *)

Lemma Creature_update_positions st1 st2 delta groundY d :
  (forall h, position (st1 h) = position (st2 h)) ->
  Creature_update st1 delta groundY d = Creature_update st2 delta groundY d.
Proof.
  intros H. unfold Creature_update. f_equal.
  - apply map_ext. intros m. unfold Muscle_update, activate.
    destruct (activationType (config m)); [reflexivity|].
    destruct (bodyA (constraint m)) as [A|], (bodyB (constraint m)) as [B|];
      try reflexivity.
    now rewrite (H A), (H B).
  - unfold xs_of. f_equal. apply map_ext. intros b. now rewrite H.
Qed.

Lemma set_add_in (s : JS.SetOf Q) k :
  existsb (Qeq_bool k) (JS.set_add Qeq_bool s k) = true.
Proof.
  unfold JS.set_add. destruct (existsb (Qeq_bool k) s) eqn:E; [exact E|].
  rewrite existsb_app. simpl. now rewrite Qeq_bool_refl, orb_true_r.
Qed.

Lemma set_add_keeps (s : JS.SetOf Q) k k' :
  existsb (Qeq_bool k') s = true ->
  existsb (Qeq_bool k') (JS.set_add Qeq_bool s k) = true.
Proof.
  intros H. unfold JS.set_add. destruct (existsb (Qeq_bool k) s); [exact H|].
  rewrite existsb_app, H. reflexivity.
Qed.

Lemma frozen_atRest b : atRest (frozen b).
Proof. repeat split. Qed.

Lemma freezeBodies_atRest bs e h :
  (atRest (store e h) \/ existsb (fun b => Nat.eqb h (body b)) bs = true) ->
  atRest (store (freezeBodies bs e) h).
Proof.
  rewrite freezeBodies_store.
  destruct (existsb _ bs); intros [H|H];
    try apply frozen_atRest; try exact H; discriminate.
Qed.

Lemma freezeBodies_position bs e h :
  position (store (freezeBodies bs e) h) = position (store e h).
Proof. rewrite freezeBodies_store. now destruct (existsb _ bs). Qed.

Lemma updatedIn_snoc now l t d :
  updatedIn now (l ++ [t]) d
  = updatedIn now l d || (same d t && negb (expired now t)).
Proof.
  unfold updatedIn. rewrite existsb_app. simpl. now rewrite orb_false_r.
Qed.

Lemma updatedIn_absent now l d :
  ~ In (addr d) (map addr l) -> updatedIn now l d = false.
Proof.
  intros H. unfold updatedIn.
  destruct (existsb _ l) eqn:E; [exfalso|reflexivity].
  apply existsb_exists in E. destruct E as (t & Ht & E).
  apply andb_prop in E. destruct E as [E _].
  unfold same in E. apply Nat.eqb_eq in E.
  apply H. rewrite E. now apply in_map.
Qed.

Section Frame.
Variable cfg : VisualConfig.
Variable c : SimulationController.
Variable e : Env.

Lemma ticks_frame l :
  NoDup (map addr l) ->
  let s := fold_left (tick cfg (clock e)) l (c, e) in
  creatures (fst s)
  = map (fun d => if updatedIn (clock e) l d
                  then Creature_update (store e) 16 (groundY cfg) d
                  else d)
        (creatures c) /\
  (forall h, position (store (snd s) h) = position (store e h)) /\
  (forall t b, In t l -> expired (clock e) t = true -> In b (bodies t) ->
               atRest (store (snd s) (body b))) /\
  (forall t, In t l -> expired (clock e) t = true ->
             existsb (Qeq_bool (id t)) (deadCreatures (fst s)) = true).
Proof.
  induction l as [|t l IH] using rev_ind; intros N.
  - simpl. split; [now rewrite map_id|].
    split; [reflexivity|]. split; [intros t b []|intros t []].
  - rewrite map_app in N. simpl in N.
    assert (Nl : NoDup (map addr l)) by (eapply NoDup_app_remove_r; eauto).
    assert (Nt : ~ In (addr t) (map addr l)).
    { apply NoDup_remove_2 in N. now rewrite app_nil_r in N. }
    specialize (IH Nl). cbv zeta in IH |- *.
    rewrite fold_left_app. simpl.
    destruct (fold_left (tick cfg (clock e)) l (c, e)) as [c1 e1].
    destruct IH as (Hc & Hp & Hr & Hd). simpl in Hc, Hp, Hr, Hd.
    unfold tick. fold (expired (clock e) t).
    destruct (expired (clock e) t) eqn:X.
    + (* the creature is frozen *)
      change (snd (freezeCreature t c1 e1)) with (freezeBodies (bodies t) e1).
      split; [|split; [|split]].
      * simpl. rewrite Hc. apply map_ext. intros d.
        rewrite updatedIn_snoc, X. simpl. now rewrite andb_false_r, orb_false_r.
      * intros h. now rewrite freezeBodies_position.
      * intros t' b Ht' X' Hb. apply freezeBodies_atRest.
        apply in_app_or in Ht'. destruct Ht' as [Ht'|[<-|[]]].
        -- left. eapply Hr; eauto.
        -- right. apply existsb_exists. exists b.
           split; [exact Hb | apply Nat.eqb_refl].
      * intros t' Ht' X'. simpl.
        apply in_app_or in Ht'. destruct Ht' as [Ht'|[<-|[]]].
        -- apply set_add_keeps. now apply Hd.
        -- apply set_add_in.
    + (* the creature is updated *)
      split; [|split; [|split]].
      * simpl. rewrite Hc, map_map. apply map_ext. intros d.
        rewrite updatedIn_snoc, X. simpl. rewrite andb_true_r.
        assert (Es : same (if updatedIn (clock e) l d
                           then Creature_update (store e) 16 (groundY cfg) d
                           else d) t
                     = same d t)
          by (destruct (updatedIn (clock e) l d); reflexivity).
        rewrite Es. destruct (same d t) eqn:S.
        -- assert (updatedIn (clock e) l d = false) as ->.
           { apply updatedIn_absent. unfold same in S.
             apply Nat.eqb_eq in S. now rewrite S. }
           simpl. symmetry.
           apply Creature_update_positions. intros h. now rewrite Hp.
        -- now rewrite orb_false_r.
      * exact Hp.
      * intros t' b Ht' X' Hb.
        apply in_app_or in Ht'. destruct Ht' as [Ht'|[<-|[]]];
          [eapply Hr; eauto | congruence].
      * intros t' Ht' X'. simpl.
        apply in_app_or in Ht'. destruct Ht' as [Ht'|[<-|[]]];
          [now apply Hd | congruence].
Qed.

End Frame.

Lemma NoDup_map_same {A B} (f : A -> B) l a b :
  NoDup (map f l) -> In a l -> In b l -> f a = f b -> a = b.
Proof.
  induction l as [|v l IH]; simpl; intros N Ha Hb E; [destruct Ha|].
  inversion N as [|w ws Hnot N']; subst.
  destruct Ha as [<-|Ha], Hb as [<-|Hb]; auto.
  - exfalso. apply Hnot. rewrite E. now apply in_map.
  - exfalso. apply Hnot. rewrite <- E. now apply in_map.
Qed.

(** X10. One turn of the main loop, over live creatures that are distinct
    objects: a creature that has outlived the lifetime (15000) is left as it
    is, its bodies end up static with no velocity and its id is in
    [deadCreatures]; every other creature is advanced by
    [update(16, groundY)], once, on the positions of the start of the turn.
    The turn moves no body, and keeps the creatures in their order. *)
Theorem main_loop_turn :
  forall cfg c e,
    NoDup (map addr (creatures c)) ->
    let s := mainLoop cfg c e in
    creatures (fst s)
    = map (fun d => if expired (clock e) d then d
                    else Creature_update (store e) 16 (groundY cfg) d)
          (creatures c) /\
    (forall h, position (store (snd s) h) = position (store e h)) /\
    (forall d b, In d (creatures c) -> expired (clock e) d = true ->
                 In b (bodies d) -> atRest (store (snd s) (body b))) /\
    (forall d, In d (creatures c) -> expired (clock e) d = true ->
               existsb (Qeq_bool (id d)) (deadCreatures (fst s)) = true).
Proof.
  intros cfg c e N s.
  pose proof (ticks_frame cfg c e (creatures c) N) as H. cbv zeta in H.
  unfold s, mainLoop.
  destruct (fold_left _ _ _) as [c1 e1].
  destruct H as (Hc & Hp & Hr & Hd). simpl in *.
  split; [|auto]. rewrite Hc. apply map_ext_in. intros d Hin.
  unfold updatedIn.
  destruct (expired (clock e) d) eqn:X.
  - destruct (existsb _ (creatures c)) eqn:E; [exfalso|reflexivity].
    apply existsb_exists in E. destruct E as (t & Ht & E).
    apply andb_prop in E. destruct E as [S Xt].
    unfold same in S. apply Nat.eqb_eq in S.
    rewrite <- (NoDup_map_same addr _ _ _ N Hin Ht S), X in Xt. discriminate.
  - assert (existsb (fun t => same d t && negb (expired (clock e) t))
                    (creatures c) = true) as ->; [|reflexivity].
    apply existsb_exists. exists d. split; [exact Hin|].
    unfold same. now rewrite Nat.eqb_refl, X.
Qed.

Lemma main_loop_turn_witness :
  NoDup (map addr (creatures couple)) /\
  map maxX (creatures (fst (mainLoop sampleConfig couple
                              (with_store (with_clock sampleEnv 20000)
                                          grounded))))
  = [0; 10]%Q.
Proof.
  assert (N : NoDup (map addr (creatures couple))).
  { repeat constructor; simpl; intuition discriminate. }
  split; [exact N|].
  rewrite (proj1 (main_loop_turn sampleConfig couple
                    (with_store (with_clock sampleEnv 20000) grounded) N)).
  reflexivity.
Defined.

(** *** The ids of the frozen creatures *)

Lemma accounted_ids c :
  accounted c <->
  forall k, In k (deadCreatures c) ->
            exists i, In i (map id (creatures c)) /\ Qeq_bool k i = true.
Proof.
  unfold accounted. split; intros H k Hk; destruct (H k Hk) as (v & Hv & E).
  - exists (id v). split; [now apply in_map | exact E].
  - apply in_map_iff in Hv. destruct Hv as (d & <- & Hd). eauto.
Qed.

Lemma set_add_inv (s : JS.SetOf Q) k k' :
  In k' (JS.set_add Qeq_bool s k) -> In k' s \/ k' = k.
Proof.
  unfold JS.set_add. destruct (existsb _ s); [auto|].
  intros H. apply in_app_or in H. destruct H as [H|[<-|[]]]; auto.
Qed.

Lemma tick_accounted cfg now s t :
  In (id t) (map id (creatures (fst s))) ->
  accounted (fst s) ->
  accounted (fst (tick cfg now s t)) /\
  map id (creatures (fst (tick cfg now s t))) = map id (creatures (fst s)).
Proof.
  destruct s as [c e]. simpl. intros Ht A. unfold tick.
  destruct (lifetime <? now - bornAt t)%Z; simpl.
  - split; [|reflexivity]. apply accounted_ids. simpl.
    intros k Hk. apply set_add_inv in Hk. destruct Hk as [Hk| ->].
    + now apply (proj1 (accounted_ids c) A).
    + exists (id t). split; [exact Ht | apply Qeq_bool_refl].
  - assert (E : map id (map (fun d => if same d t
                                      then Creature_update (store e) 16
                                             (groundY cfg) d
                                      else d) (creatures c))
                = map id (creatures c)).
    { rewrite map_map. apply map_ext. intros d.
      destruct (same d t); reflexivity. }
    split; [|exact E]. apply accounted_ids. simpl. rewrite E.
    now apply (proj1 (accounted_ids c) A).
Qed.

Lemma mainLoop_accounted cfg c e :
  accounted c -> accounted (fst (mainLoop cfg c e)).
Proof.
  intros A. unfold mainLoop.
  assert (H : forall l s,
             (forall t, In t l -> In (id t) (map id (creatures (fst s)))) ->
             accounted (fst s) ->
             accounted (fst (fold_left (tick cfg (clock e)) l s))).
  { induction l as [|t l IH]; intros s Hl As; simpl; [exact As|].
    destruct (tick_accounted cfg (clock e) s t (Hl t (or_introl eq_refl)) As)
      as [A1 E1].
    apply IH; [|exact A1].
    intros t' Ht'. rewrite E1. apply Hl. now right. }
  specialize (H (creatures c) (c, e) (fun t Ht => in_map id _ _ Ht) A).
  destruct (fold_left _ _ _) as [c1 e1]. exact H.
Qed.

Lemma cull_accounted c e :
  NoDup (map addr (creatures c)) ->
  accounted c -> accounted (fst (cull c e)).
Proof.
  intros N A. unfold cull.
  destruct (generationSize <=? _); [|exact A].
  destruct (JS.reduce older _) as [oldest|] eqn:R; [|exact A].
  apply reduce_older in R. destruct R as [Hin _].
  apply filter_In in Hin. destruct Hin as [Ho _].
  destruct (World.removeCreature _ _ _) as [w e1]. simpl.
  intros k Hk. simpl in Hk. unfold JS.set_delete in Hk.
  apply filter_In in Hk. destruct Hk as [Hk Ek].
  apply negb_true_iff in Ek.
  destruct (A k Hk) as (d & Hd & E).
  exists d. split; [|exact E]. simpl.
  apply filter_In. split; [exact Hd|].
  apply negb_true_iff. unfold same. apply Nat.eqb_neq. intros S.
  rewrite (NoDup_map_same addr _ _ _ N Hd Ho S) in E.
  rewrite Qeq_bool_comm in E. congruence.
Qed.

Lemma trickle_dead fl cfg c e c' e' :
  trickleAddCreature fl cfg c e = Some (c', e') ->
  deadCreatures c' = deadCreatures (fst (cull c e)).
Proof.
  unfold trickleAddCreature.
  destruct (cull c e) as [c1 e1]. unfold bind; simpl.
  destruct (createRandomCreature fl cfg e1) as [[cr e2]|]; [|discriminate].
  unfold Date_now, gets, ret.
  intros H. destruct (_ =? 0); injection H as <- <-; reflexivity.
Qed.

Lemma step_accounted fl cfg Engine_update ev s s' :
  wellFormed s -> accounted (fst s) ->
  step fl cfg Engine_update ev s = Some s' ->
  accounted (fst s').
Proof.
  destruct s as [c e]. intros (_ & N & _) A. simpl in N, A.
  destruct ev as [now|now|now]; unfold step.
  - destruct s' as [c' e']. intros H.
    pose proof (trickle_dead _ _ _ _ _ _ H) as Ed.
    apply trickleAddCreature_inv in H. destruct H as (cr & _ & Ec & _).
    pose proof (cull_accounted c (with_clock e now) N A) as A1.
    intros k Hk. simpl in Hk. rewrite Ed in Hk.
    destruct (A1 k Hk) as (d & Hd & E).
    exists d. split; [|exact E]. simpl. rewrite Ec.
    apply in_or_app. now left.
  - intros H; injection H as <-. now apply mainLoop_accounted.
  - destruct (World.updateLoop _ _ _) as [w e1].
    intros H; injection H as <-. exact A.
Qed.

(** X11. [deadCreatures] holds only ids of live creatures: an id gets in
    when its creature is frozen, the creature stays alive, and the cull that
    removes the creature deletes the id.  This holds after any callbacks
    from the construction, which all run to completion. *)
Theorem frozen_ids_are_live :
  forall fl cfg Engine_update evs e0,
    validRandom e0 ->
    exists c e,
      run fl cfg Engine_update evs (construct cfg Engine_update e0)
      = Some (c, e) /\
      forall k, In k (deadCreatures c) ->
                exists d, In d (creatures c) /\ Qeq_bool k (id d) = true.
Proof.
  intros fl cfg eu evs e0 V.
  assert (H : forall evs s,
             wellFormed s -> accounted (fst s) ->
             exists s', run fl cfg eu evs s = Some s' /\ accounted (fst s')).
  { clear evs. induction evs as [|ev evs IH]; intros s W A; simpl.
    - exists s. auto.
    - destruct (step_wellFormed fl cfg eu ev s W) as (s1 & E & W1).
      rewrite E. apply IH; [exact W1|].
      exact (step_accounted fl cfg eu ev s s1 W A E). }
  destruct (H evs (construct cfg eu e0)) as ([c e] & E & A).
  - now apply construct_wellFormed.
  - unfold construct. destruct (World.updateLoop _ _ _) as [w e1].
    apply mainLoop_accounted. intros k [].
  - exists c, e. split; [exact E | exact A].
Qed.

Lemma frozen_ids_are_live_witness :
  validRandom sampleEnv /\
  exists c e,
    run sampleMath sampleConfig sampleEngine
        [Trickle 1000; Frame 20000; Trickle 20250]
        (construct sampleConfig sampleEngine sampleEnv)
    = Some (c, e) /\
    forall k, In k (deadCreatures c) ->
              exists d, In d (creatures c) /\ Qeq_bool k (id d) = true.
Proof.
  split; [exact Samples.sampleEnv_valid|].
  exact (frozen_ids_are_live sampleMath sampleConfig sampleEngine
           [Trickle 1000; Frame 20000; Trickle 20250] sampleEnv
           Samples.sampleEnv_valid).
Defined.

End LifecycleFacts.

(** ** Properties of the distances a world records *)

Module DistanceFacts.
Import Matter Creature Eff Generator World WorldSpec SampleData MoreSpec.

Lemma best_compat dists k k' :
  Qeq_bool k k' = true -> best dists k = best dists k'.
Proof.
  intros E. unfold best. now rewrite (WorldFacts.get_compat dists k k' E).
Qed.

Lemma best_record st dists cid bs k :
  best (record st dists cid bs) k
  = if Qeq_bool k cid
    then match furthest st bs with
         | Some f => if JS.lt (best dists cid) f then f else best dists cid
         | None => best dists cid
         end
    else best dists k.
Proof.
  unfold record. fold (best dists cid).
  destruct (furthest st bs) as [f|].
  - destruct (JS.lt (best dists cid) f).
    + unfold best at 1. rewrite WorldFacts.get_set.
      destruct (Qeq_bool k cid); reflexivity.
    + destruct (Qeq_bool k cid) eqn:E; [now apply best_compat | reflexivity].
  - destruct (Qeq_bool k cid) eqn:E; [now apply best_compat | reflexivity].
Qed.

Lemma record_grows st dists cid bs k :
  (best dists k <= best (record st dists cid bs) k)%Q.
Proof.
  rewrite best_record. destruct (Qeq_bool k cid) eqn:E; [|apply Qle_refl].
  rewrite (best_compat dists k cid E).
  destruct (furthest st bs) as [f|]; [|apply Qle_refl].
  destruct (JS.lt (best dists cid) f) eqn:L; [|apply Qle_refl].
  apply WorldFacts.lt_spec in L. lra.
Qed.

Lemma record_keeps st dists cid bs k :
  JS.get Qeq_bool dists k <> None ->
  JS.get Qeq_bool (record st dists cid bs) k <> None.
Proof.
  unfold record. destruct (furthest st bs) as [f|]; [|auto].
  destruct (JS.lt _ f); [|auto].
  rewrite WorldFacts.get_set. destruct (Qeq_bool k cid); [discriminate|auto].
Qed.

Lemma furthest_upper st bs b :
  In b bs ->
  exists f, furthest st bs = Some f /\ (x (position (st (body b))) <= f)%Q.
Proof.
  unfold furthest, xs_of. destruct bs as [|b0 bs]; [intros []|].
  simpl. intros [<-|H]; eexists; (split; [reflexivity|]).
  - apply CreatureFacts.Math_max_from_ge.
  - apply CreatureFacts.Math_max_from_upper.
    apply in_map_iff. exists b. auto.
Qed.

Lemma record_covers st dists cid bs b :
  In b bs ->
  (x (position (st (body b))) <= best (record st dists cid bs) cid)%Q.
Proof.
  intros Hb. destruct (furthest_upper st bs b Hb) as (f & E & L).
  rewrite best_record, Qeq_bool_refl, E.
  destruct (JS.lt (best dists cid) f) eqn:T; [exact L|].
  apply WorldFacts.lt_false in T. lra.
Qed.

Lemma recordAll_grows st cs :
  forall dists k, (best dists k <= best (recordAll st cs dists) k)%Q.
Proof.
  unfold recordAll.
  induction cs as [|[cid data] cs IH]; intros dists k; simpl;
    [apply Qle_refl|].
  eapply Qle_trans; [apply record_grows | apply IH].
Qed.

Lemma recordAll_keeps st cs :
  forall dists k,
    JS.get Qeq_bool dists k <> None ->
    JS.get Qeq_bool (recordAll st cs dists) k <> None.
Proof.
  unfold recordAll.
  induction cs as [|[cid data] cs IH]; intros dists k H; simpl; [exact H|].
  apply IH. now apply record_keeps.
Qed.

Lemma recordAll_covers st cs :
  forall dists cid data b,
    In (cid, data) cs -> In b (cd_bodies data) ->
    (x (position (st (body b))) <= best (recordAll st cs dists) cid)%Q.
Proof.
  induction cs as [|[cid0 data0] cs IH]; intros dists cid data b [] Hb.
  - injection H as -> ->. unfold recordAll. simpl.
    eapply Qle_trans;
      [apply (record_covers st dists cid (cd_bodies data) b Hb)|].
    apply (recordAll_grows st cs).
  - unfold recordAll. simpl. now apply (IH _ cid data b).
Qed.

(** What a call does to the two maps of distances. *)
Lemma call_distances Engine_update s k :
  exists st cs1 cs2,
    creatureMaxDistances (fst (call Engine_update s k))
    = recordAll st cs1 (creatureMaxDistances (fst s)) /\
    top3MaxDistances (fst (call Engine_update s k))
    = recordAll st cs2 (top3MaxDistances (fst s)) /\
    incl cs2 cs1.
Proof.
  destruct s as [w e].
  destruct k as [c|cid|delta| |f]; simpl.
  - exists (store e), [], []. repeat split. apply incl_refl.
  - unfold removeCreature.
    destruct (JS.get Qeq_bool (creatures w) cid) as [data|] eqn:G; simpl.
    + exists (store e), [(cid, data)], []. repeat split. intros x [].
    + exists (store e), [], []. repeat split. apply incl_refl.
  - eexists _, (creatures w), (creatures w). repeat split. apply incl_refl.
  - eexists _, (creatures w), (creatures w). repeat split. apply incl_refl.
  - exists (store e), [], []. repeat split. apply incl_refl.
Qed.

(** X12. A best distance the world has recorded for a creature is never
    lowered and never forgotten by a later call, the removal of the
    creature included: neither in [creatureMaxDistances] nor in
    [top3MaxDistances]. *)
Theorem recorded_distance_only_grows :
  forall Engine_update ks s k,
    let s' := calls Engine_update ks s in
    (best (creatureMaxDistances (fst s)) k
     <= best (creatureMaxDistances (fst s')) k)%Q /\
    (best (top3MaxDistances (fst s)) k
     <= best (top3MaxDistances (fst s')) k)%Q /\
    (JS.get Qeq_bool (creatureMaxDistances (fst s)) k <> None ->
     JS.get Qeq_bool (creatureMaxDistances (fst s')) k <> None) /\
    (JS.get Qeq_bool (top3MaxDistances (fst s)) k <> None ->
     JS.get Qeq_bool (top3MaxDistances (fst s')) k <> None).
Proof.
  intros eu ks. unfold calls.
  induction ks as [|c ks IH]; intros s k; simpl.
  - repeat split; try apply Qle_refl; auto.
  - destruct (IH (call eu s c) k) as (A & B & C & D).
    destruct (call_distances eu s c) as (st & cs1 & cs2 & E1 & E2 & _).
    repeat split.
    + eapply Qle_trans; [|exact A]. rewrite E1. apply recordAll_grows.
    + eapply Qle_trans; [|exact B]. rewrite E2. apply recordAll_grows.
    + intros H. apply C. rewrite E1. now apply recordAll_keeps.
    + intros H. apply D. rewrite E2. now apply recordAll_keeps.
Qed.

Lemma recorded_distance_only_grows_witness :
  JS.get Qeq_bool
    (creatureMaxDistances (fst (call stillEngine (paired, there) LoopTurn)))
    (id pair) <> None /\
  JS.get Qeq_bool
    (creatureMaxDistances
       (fst (calls stillEngine [RemoveCreature (id pair); LoopTurn]
               (call stillEngine (paired, there) LoopTurn))))
    (id pair) <> None.
Proof.
  assert (H : JS.get Qeq_bool
                (creatureMaxDistances
                   (fst (call stillEngine (paired, there) LoopTurn)))
                (id pair) <> None) by (vm_compute; discriminate).
  split; [exact H|].
  apply (proj1 (proj2 (proj2
           (recorded_distance_only_grows stillEngine
              [RemoveCreature (id pair); LoopTurn]
              (call stillEngine (paired, there) LoopTurn) (id pair)))) H).
Defined.

(** X13. After an update of the world, and after a turn of its loop, the
    distance recorded for each creature of the world, in either map, is at
    least the [x] the engine has left each of its bodies at; the creatures
    of the world are the same. *)
Theorem update_records_every_body :
  forall Engine_update w e cid data b,
    In (cid, data) (creatures w) ->
    In b (cd_bodies data) ->
    (forall delta,
        let s' := MainWorld_update Engine_update delta w e in
        let here := x (position (store (snd s') (body b))) in
        (here <= best (creatureMaxDistances (fst s')) cid)%Q /\
        (here <= best (top3MaxDistances (fst s')) cid)%Q /\
        creatures (fst s') = creatures w) /\
    (let s' := updateLoop Engine_update w e in
     let here := x (position (store (snd s') (body b))) in
     (here <= best (creatureMaxDistances (fst s')) cid)%Q /\
     (here <= best (top3MaxDistances (fst s')) cid)%Q /\
     creatures (fst s') = creatures w).
Proof.
  intros eu w e cid data b Hc Hb.
  split; [intros delta|]; simpl;
    (split; [|split; [|reflexivity]]);
    now apply (recordAll_covers _ (creatures w) _ cid data b).
Qed.

Lemma update_records_every_body_witness :
  In (id pair, {| cd_bodies := bodies pair; cd_muscles := muscles pair |})
     (creatures paired) /\
  In {| body := 1 |} (bodies pair) /\
  (500 <= best (creatureMaxDistances
                  (fst (updateLoop sampleEngine paired there))) (id pair))%Q.
Proof.
  assert (I : In (id pair,
                  {| cd_bodies := bodies pair; cd_muscles := muscles pair |})
                 (creatures paired)) by (simpl; auto).
  assert (J : In {| body := 1 |} (bodies pair)) by (simpl; auto).
  split; [exact I|]. split; [exact J|].
  apply (proj1 (proj2 (update_records_every_body sampleEngine paired there
                         (id pair) _ {| body := 1 |} I J))).
Defined.

(** *** [removeCreature] *)

Lemma removeAll_In objs from o :
  In o (removeAll objs from) <-> In o from /\ ~ In o objs.
Proof.
  unfold removeAll. rewrite filter_In, negb_true_iff.
  split; intros [H N]; (split; [exact H|]).
  - intros I. assert (X : existsb (Nat.eqb o) objs = true).
    { apply existsb_exists. exists o. split; [exact I | apply Nat.eqb_refl]. }
    congruence.
  - destruct (existsb (Nat.eqb o) objs) eqn:X; [|reflexivity].
    apply existsb_exists in X. destruct X as (o' & I & E).
    apply Nat.eqb_eq in E. subst o'. contradiction.
Qed.

(** X14. [removeCreature] of a creature of the world takes the creature
    out of the map and leaves the other creatures, takes exactly its bodies
    and its constraints out of the engine world, moves no body, records
    a best distance that is at least the [x] of each of its bodies, and
    leaves the bins as the last update built them.  Removing the creature
    once more changes nothing. *)
Theorem removeCreature_removes :
  forall cid w e data,
    uniqueKeys (creatures w) ->
    JS.get Qeq_bool (creatures w) cid = Some data ->
    let s' := removeCreature cid w e in
    (forall k, JS.get Qeq_bool (creatures (fst s')) k
               = if Qeq_bool k cid then None
                 else JS.get Qeq_bool (creatures w) k) /\
    (forall o, In o (worldBodies (snd s')) <->
               In o (worldBodies e) /\ ~ In o (map body (cd_bodies data))) /\
    (forall o, In o (worldConstraints (snd s')) <->
               In o (worldConstraints e) /\
               ~ In o (map (fun m => Matter.cid (constraint m))
                           (cd_muscles data))) /\
    store (snd s') = store e /\
    (forall b, In b (cd_bodies data) ->
               (x (position (store e (body b)))
                <= best (creatureMaxDistances (fst s')) cid)%Q) /\
    distanceBins (fst s') = distanceBins w /\
    removeCreature cid (fst s') (snd s') = s'.
Proof.
  intros cid w e data U G s'.
  assert (D : forall k, JS.get Qeq_bool (creatures (fst s')) k
                        = if Qeq_bool k cid then None
                          else JS.get Qeq_bool (creatures w) k).
  { intros k. unfold s', removeCreature. rewrite G. simpl.
    apply (WorldFacts.get_delete _ _ _ U). }
  split; [exact D|].
  unfold s', removeCreature. rewrite G. simpl.
  split; [intros o; apply removeAll_In|].
  split; [intros o; apply removeAll_In|].
  split; [reflexivity|].
  split; [intros b Hb; now apply record_covers|].
  split; [reflexivity|].
  specialize (D cid). rewrite Qeq_bool_refl in D.
  unfold s', removeCreature in D. rewrite G in D. simpl in D.
  now rewrite D.
Qed.

Lemma removeCreature_removes_witness :
  uniqueKeys (creatures paired) /\
  JS.get Qeq_bool (creatures paired) (id pair)
  = Some {| cd_bodies := bodies pair; cd_muscles := muscles pair |} /\
  removeCreature (id pair)
    (fst (removeCreature (id pair) paired there))
    (snd (removeCreature (id pair) paired there))
  = removeCreature (id pair) paired there.
Proof.
  assert (U : uniqueKeys (creatures paired)) by (simpl; auto).
  assert (G : JS.get Qeq_bool (creatures paired) (id pair)
              = Some {| cd_bodies := bodies pair;
                        cd_muscles := muscles pair |}) by reflexivity.
  split; [exact U|]. split; [exact G|].
  apply (removeCreature_removes (id pair) paired there _ U G).
Defined.

(** *** The two maps of distances *)

Lemma record_mono st cid bs d1 d2 :
  (forall k, (best d1 k <= best d2 k)%Q) ->
  forall k, (best (record st d1 cid bs) k <= best (record st d2 cid bs) k)%Q.
Proof.
  intros H k. rewrite !best_record.
  destruct (Qeq_bool k cid); [|apply H].
  pose proof (H cid) as Hc.
  destruct (furthest st bs) as [f|]; [|exact Hc].
  destruct (JS.lt (best d1 cid) f) eqn:L1, (JS.lt (best d2 cid) f) eqn:L2;
    try apply WorldFacts.lt_spec in L1; try apply WorldFacts.lt_spec in L2;
    try apply WorldFacts.lt_false in L1; try apply WorldFacts.lt_false in L2;
    lra.
Qed.

Lemma recordAll_mono st cs :
  forall d1 d2,
    (forall k, (best d1 k <= best d2 k)%Q) ->
    forall k, (best (recordAll st cs d1) k <= best (recordAll st cs d2) k)%Q.
Proof.
  unfold recordAll.
  induction cs as [|[cid data] cs IH]; intros d1 d2 H; simpl; [exact H|].
  apply IH. now apply record_mono.
Qed.

(** X15. From a new world on, after any calls, no distance of
    [top3MaxDistances] is above the one [creatureMaxDistances] holds for the
    same creature: the updates write both maps and a removal writes the
    second one only. *)
Theorem top3_distance_below_recorded :
  forall Engine_update ks now e k,
    let s := calls Engine_update ks (World.empty now, e) in
    (best (top3MaxDistances (fst s)) k
     <= best (creatureMaxDistances (fst s)) k)%Q.
Proof.
  intros eu ks now e k. simpl.
  assert (H : forall ks s,
             (forall k, (best (top3MaxDistances (fst s)) k
                         <= best (creatureMaxDistances (fst s)) k)%Q) ->
             forall k,
               (best (top3MaxDistances (fst (calls eu ks s))) k
                <= best (creatureMaxDistances (fst (calls eu ks s))) k)%Q).
  { clear. unfold calls.
    induction ks as [|c ks IH]; intros s H; simpl; [exact H|].
    apply IH. destruct s as [w e]. simpl in H.
    destruct c as [c|cid|delta| |f]; simpl; try exact H.
    - unfold removeCreature.
      destruct (JS.get Qeq_bool (creatures w) cid) as [data|]; simpl;
        [|exact H].
      intros k. eapply Qle_trans; [apply H | apply record_grows].
    - now apply recordAll_mono.
    - now apply recordAll_mono. }
  apply H. intros k'. apply Qle_refl.
Qed.

(** *** The histogram *)

Lemma set_values (P : Q -> Prop) (m : JS.Map Q Q) k v :
  Forall (fun kv => P (snd kv)) m -> P v ->
  Forall (fun kv => P (snd kv)) (JS.set Qeq_bool m k v).
Proof.
  intros F Pv. induction m as [|[k0 v0] m IH]; simpl.
  - constructor; [exact Pv | constructor].
  - inversion F as [|? ? P0 F']; subst.
    destruct (Qeq_bool k k0); constructor; auto.
Qed.

Lemma record_positive st dists cid bs :
  Forall (fun kv => (0 < snd kv)%Q) dists ->
  Forall (fun kv => (0 < snd kv)%Q) (record st dists cid bs).
Proof.
  intros F. unfold record.
  destruct (furthest st bs) as [f|]; [|exact F].
  destruct (JS.lt _ f) eqn:L; [|exact F].
  apply WorldFacts.lt_spec in L.
  apply set_values; [exact F|].
  destruct (JS.get Qeq_bool dists cid) as [q|] eqn:G; simpl in L; [|exact L].
  apply WorldFacts.get_present in G. destruct G as (k' & I & _).
  pose proof (proj1 (Forall_forall _ _) F _ I) as Pq. simpl in Pq. lra.
Qed.

Lemma recordAll_positive st cs :
  forall dists,
    Forall (fun kv => (0 < snd kv)%Q) dists ->
    Forall (fun kv => (0 < snd kv)%Q) (recordAll st cs dists).
Proof.
  unfold recordAll.
  induction cs as [|[cid data] cs IH]; intros dists F; simpl; [exact F|].
  apply IH. now apply record_positive.
Qed.

Lemma calls_positive Engine_update ks :
  forall s,
    Forall (fun kv => (0 < snd kv)%Q) (creatureMaxDistances (fst s)) ->
    Forall (fun kv => (0 < snd kv)%Q)
           (creatureMaxDistances (fst (calls Engine_update ks s))).
Proof.
  unfold calls. induction ks as [|c ks IH]; intros s F; simpl; [exact F|].
  apply IH.
  destruct (call_distances Engine_update s c) as (st & cs1 & _ & -> & _).
  now apply recordAll_positive.
Qed.

Lemma sum_incrementAt bins :
  forall j, j < List.length bins ->
            list_sum (incrementAt bins j) = S (list_sum bins).
Proof.
  induction bins as [|c bins IH]; intros j H; simpl in *; [lia|].
  destruct j as [|j]; simpl; [lia|]. rewrite IH; lia.
Qed.

Lemma sum_pad bins j : list_sum (pad bins j) = list_sum bins.
Proof.
  unfold pad. rewrite list_sum_app.
  assert (Z : forall n, list_sum (repeat 0 n) = 0)
    by (induction n; simpl; auto).
  rewrite Z. lia.
Qed.

Lemma sum_addToBin bins dist :
  (0 < dist)%Q -> list_sum (addToBin bins dist) = S (list_sum bins).
Proof.
  intros P. unfold addToBin, JS.Math_floor.
  assert (N : (0 <= Qfloor (dist / 100))%Z).
  { change 0%Z with (Qfloor 0). apply Qfloor_resp_le.
    apply Qle_shift_div_l; lra. }
  destruct (Qfloor (dist / 100) <? 0)%Z eqn:E; [apply Z.ltb_lt in E; lia|].
  rewrite sum_incrementAt by apply WorldFacts.pad_length.
  now rewrite sum_pad.
Qed.

Lemma sum_rebuildBins dists :
  Forall (fun kv => (0 < snd kv)%Q) dists ->
  list_sum (rebuildBins dists) = List.length dists.
Proof.
  unfold rebuildBins.
  assert (H : forall bins,
             Forall (fun kv => (0 < snd kv)%Q) dists ->
             list_sum (fold_left (fun bins '(_, dist) => addToBin bins dist)
                                 dists bins)
             = list_sum bins + List.length dists).
  { induction dists as [|[k d] dists IH]; intros bins F; simpl; [lia|].
    inversion F as [|? ? Pd F']; subst. simpl in Pd.
    rewrite (IH _ F'), (sum_addToBin _ _ Pd). lia. }
  intros F. now rewrite (H [] F).
Qed.

(** X16. From a new world on, every distance [creatureMaxDistances] holds
    is positive, and right after an update, or a turn of the loop, the
    counts of [getDistanceBins()] add up to the number of its entries: each
    creature with a recorded distance is in one bin. *)
Theorem histogram_total :
  forall Engine_update ks now e,
    let s := calls Engine_update ks (World.empty now, e) in
    (forall k d, In (k, d) (creatureMaxDistances (fst s)) -> (0 < d)%Q) /\
    (forall delta,
        let w' := fst (MainWorld_update Engine_update delta (fst s) (snd s)) in
        list_sum (Queries.getDistanceBins w')
        = List.length (creatureMaxDistances w')) /\
    (let w' := fst (updateLoop Engine_update (fst s) (snd s)) in
     list_sum (Queries.getDistanceBins w')
     = List.length (creatureMaxDistances w')).
Proof.
  intros eu ks now e s.
  assert (F : Forall (fun kv => (0 < snd kv)%Q)
                     (creatureMaxDistances (fst s))).
  { apply calls_positive. constructor. }
  split; [|split].
  - intros k d I. apply (proj1 (Forall_forall _ _) F _ I).
  - intros delta. simpl. apply sum_rebuildBins. now apply recordAll_positive.
  - simpl. apply sum_rebuildBins. now apply recordAll_positive.
Qed.

Lemma histogram_total_witness :
  list_sum (Queries.getDistanceBins
              (fst (updateLoop stillEngine
                      (fst (calls stillEngine [AddCreature pair]
                              (World.empty 0, there)))
                      (snd (calls stillEngine [AddCreature pair]
                              (World.empty 0, there))))))
  = 1.
Proof.
  rewrite (proj2 (proj2 (histogram_total stillEngine [AddCreature pair]
                           0%Z there))).
  reflexivity.
Defined.

(** *** The creatures a world displays *)

Lemma set_absent {V} (m : JS.Map Q V) k v :
  JS.get Qeq_bool m k = None -> JS.set Qeq_bool m k v = m ++ [(k, v)].
Proof.
  induction m as [|[k0 v0] m IH]; simpl; [reflexivity|].
  destruct (Qeq_bool k k0); [discriminate|]. intros H. now rewrite IH.
Qed.

Lemma set_present {V} (m : JS.Map Q V) k v :
  JS.get Qeq_bool m k <> None ->
  map fst (JS.set Qeq_bool m k v) = map fst m.
Proof.
  induction m as [|[k0 v0] m IH]; simpl; [intros H; now destruct H|].
  destruct (Qeq_bool k k0); [reflexivity|]. intros H. simpl. now rewrite IH.
Qed.

Lemma delete_snoc {V} (m : JS.Map Q V) k v :
  JS.get Qeq_bool m k = None -> JS.delete Qeq_bool (m ++ [(k, v)]) k = m.
Proof.
  induction m as [|[k0 v0] m IH]; simpl.
  - now rewrite Qeq_bool_refl.
  - destruct (Qeq_bool k k0); [discriminate|]. intros H. now rewrite IH.
Qed.

Lemma absent_keys {V} (m : JS.Map Q V) k :
  JS.get Qeq_bool m k = None ->
  filter (fun k' => negb (Qeq_bool k k')) (map fst m) = map fst m.
Proof.
  induction m as [|[k0 v0] m IH]; simpl; [reflexivity|].
  destruct (Qeq_bool k k0); [discriminate|]. intros H. simpl. now rewrite IH.
Qed.

Lemma delete_keys {V} (m : JS.Map Q V) k :
  uniqueKeys m ->
  map fst (JS.delete Qeq_bool m k)
  = filter (fun k' => negb (Qeq_bool k k')) (map fst m).
Proof.
  induction m as [|[k0 v0] m IH]; simpl; [reflexivity|].
  intros [H U]. destruct (Qeq_bool k k0) eqn:E; simpl.
  - symmetry. apply absent_keys.
    now rewrite (WorldFacts.get_compat m k k0 E).
  - now rewrite IH.
Qed.

(** X17. [getDisplayedCreatureIds()] follows the calls: a creature added
    under a new id comes last, and removing it again gives back the map of
    creatures as it was; a creature added under an id in use takes the
    place of the other one; a removal takes out the id it is given and no
    other; the updates change nothing. *)
Theorem displayed_ids_follow_the_calls :
  forall Engine_update w e c,
    let ids := Queries.getDisplayedCreatureIds in
    (JS.get Qeq_bool (creatures w) (id c) = None ->
     ids (addCreature c w) = ids w ++ [id c] /\
     creatures (fst (removeCreature (id c) (addCreature c w) e))
     = creatures w) /\
    (JS.get Qeq_bool (creatures w) (id c) <> None ->
     ids (addCreature c w) = ids w) /\
    (forall cid,
        uniqueKeys (creatures w) ->
        ids (fst (removeCreature cid w e))
        = filter (fun k => negb (Qeq_bool cid k)) (ids w)) /\
    (forall delta,
        ids (fst (MainWorld_update Engine_update delta w e)) = ids w) /\
    ids (fst (updateLoop Engine_update w e)) = ids w.
Proof.
  intros eu w e c ids. unfold ids, Queries.getDisplayedCreatureIds.
  split; [|split; [|split; [|split]]].
  - intros G. simpl. rewrite (set_absent _ _ _ G).
    split; [rewrite map_app; reflexivity|].
    unfold removeCreature. simpl. rewrite (set_absent _ _ _ G).
    rewrite WorldFacts.get_snoc, G, Qeq_bool_refl. simpl.
    now apply delete_snoc.
  - intros G. simpl. now apply set_present.
  - intros cid U. unfold removeCreature.
    destruct (JS.get Qeq_bool (creatures w) cid) as [data|] eqn:G; simpl.
    + now apply delete_keys.
    + symmetry. now apply absent_keys.
  - reflexivity.
  - reflexivity.
Qed.

Lemma displayed_ids_follow_the_calls_witness :
  JS.get Qeq_bool (creatures (World.empty 0)) (id pair) = None /\
  Queries.getDisplayedCreatureIds paired = [id pair] /\
  creatures (fst (removeCreature (id pair) paired there)) = [].
Proof.
  assert (G : JS.get Qeq_bool (creatures (World.empty 0)) (id pair) = None)
    by reflexivity.
  split; [exact G|].
  exact (proj1 (displayed_ids_follow_the_calls stillEngine (World.empty 0)
                  there pair) G).
Defined.

End DistanceFacts.

(** ** Properties of the creatures the generator builds *)

Module SpawnFacts.
Import Matter Creature Eff Generator GeneratorSpec SampleData MoreSpec.
Import CreatureOps GeneratorFacts.

#[local] Hint Resolve steady_refl steady_trans calm_refl calm_trans
  steady_calm calm_valid steady_valid : eff.

Lemma built_refl e : built e e [].
Proof.
  unfold built. simpl. split; [apply steady_refl|].
  split; [reflexivity|]. split; [lia|]. now rewrite app_nil_r.
Qed.

Lemma built_trans e e1 e2 ms1 ms2 :
  built e e1 ms1 -> built e1 e2 ms2 -> built e e2 (ms1 ++ ms2).
Proof.
  intros (S1 & I1 & N1 & W1) (S2 & I2 & N2 & W2). unfold built.
  split; [eauto with eff|].
  rewrite map_app, length_app.
  split; [|split].
  - rewrite seq_app, <- N1, <- I2, <- I1. reflexivity.
  - lia.
  - rewrite W2, W1. now rewrite app_assoc.
Qed.

Lemma built_valid e e' ms : built e e' ms -> validRandom e -> validRandom e'.
Proof. intros [S _]. eauto with eff. Qed.

Lemma Math_random_built e :
  validRandom e ->
  returns Math_random e
    (fun r e' => (0 <= r)%Q /\ (r < 1)%Q /\ built e e' []).
Proof.
  intros V. eexists _, _. split; [reflexivity|].
  destruct (V (drawn e)) as [A B].
  split; [exact A|]. split; [exact B|].
  unfold built. simpl. split; [split; reflexivity|].
  split; [reflexivity|]. split; [lia|]. now rewrite app_nil_r.
Qed.

Lemma randomMuscle_built a b distance s0 s1 p0 p1 x0 x1 e :
  returns (randomMuscle a b distance s0 s1 p0 p1 x0 x1) e
    (fun m e' => built e e' [m] /\
                 bodyA (constraint m) = Some (body a) /\
                 bodyB (constraint m) = Some (body b)).
Proof.
  eexists _, _. split; [reflexivity|].
  unfold built. simpl.
  split; [|split; reflexivity].
  split; [split; reflexivity|].
  split; [reflexivity|]. split; [lia|reflexivity].
Qed.

Section Built.
Variable fl : JS.MathLib.
Variable cfg : VisualConfig.

Lemma ring_built bs l :
  (forall i, In i l -> i < List.length bs) ->
  forall e,
    returns (mapM (ringMuscle fl bs (List.length bs)) l) e
      (fun ring e' => built e e' ring /\ Forall2 (linkAt bs) l ring).
Proof.
  induction l as [|i l IH]; intros Hl e; cbn [mapM].
  - apply returns_ret. split; [apply built_refl | constructor].
  - apply returns_bind.
    assert (Hi : i < List.length bs) by (apply Hl; now left).
    unfold ringMuscle at 1.
    destruct (nth_error bs i) as [a|] eqn:Ea;
      [|apply nth_error_None in Ea; lia].
    assert (Hn : (i + 1) mod List.length bs < List.length bs)
      by (apply Nat.mod_upper_bound; lia).
    destruct (nth_error bs ((i + 1) mod List.length bs)) as [b|] eqn:Eb;
      [|apply nth_error_None in Eb; lia].
    apply returns_bind, returns_gets.
    eapply returns_weaken; [apply randomMuscle_built|].
    cbv beta. intros m e1 (B1 & A1 & A2).
    apply returns_bind.
    eapply returns_weaken; [apply IH; intros j Hj; apply Hl; now right|].
    cbv beta. intros ring e2 (B2 & F).
    apply returns_ret. split.
    + apply (built_trans e e1 e2 [m] ring B1 B2).
    + constructor; [|exact F]. exists a, b. auto.
Qed.

Lemma cross_built bs l :
  0 < List.length bs ->
  forall ms e,
    validRandom e ->
    returns (foldM (crossMuscle fl bs (List.length bs)) l ms) e
      (fun ms' e' =>
         exists extra,
           ms' = ms ++ extra /\ built e e' extra /\
           List.length extra <= List.length l /\
           Forall (linked bs) extra).
Proof.
  intros Hn. induction l as [|k l IH]; intros ms e V; cbn [foldM].
  - apply returns_ret. exists []. rewrite app_nil_r.
    split; [reflexivity|]. split; [apply built_refl|]. split; [simpl; lia|].
    constructor.
  - apply returns_bind.
    assert (Step : returns (crossMuscle fl bs (List.length bs) ms k) e
                     (fun ms1 e1 =>
                        exists extra,
                          ms1 = ms ++ extra /\ built e e1 extra /\
                          List.length extra <= 1 /\
                          Forall (linked bs) extra)).
    { unfold crossMuscle.
      apply returns_bind.
      eapply returns_weaken; [apply (Math_random_built _ V)|].
      intros ra e1 (A0 & A1 & B1). apply returns_bind.
      eapply returns_weaken;
        [apply Math_random_built; eapply built_valid; eauto|].
      cbv beta. intros rb e2 (B0 & B1' & B2).
      assert (L : (0 < Z.of_nat (List.length bs))%Z) by lia.
      cbv zeta.
      destruct (at_in_range _ _ (floor_scaled _ _ A0 A1 L))
        as (a & -> & _ & Ia).
      destruct (at_in_range _ _ (floor_scaled _ _ B0 B1' L))
        as (b & -> & _ & Ib).
      pose proof (built_trans _ _ _ _ _ B1 B2) as B02. simpl in B02.
      destruct (same a b) eqn:Sab.
      - apply returns_ret. exists []. rewrite app_nil_r.
        split; [reflexivity|]. split; [exact B02|].
        split; [simpl; lia | constructor].
      - apply returns_bind, returns_gets, returns_bind.
        eapply returns_weaken; [apply randomMuscle_built|].
        cbv beta. intros m e3 (B3 & Ma & Mb). apply returns_ret.
        exists [m]. split; [reflexivity|].
        split; [apply (built_trans _ _ _ [] [m] B02 B3)|].
        split; [simpl; lia|].
        constructor; [|constructor].
        exists a, b. apply same_false in Sab. auto. }
    eapply returns_weaken; [exact Step|].
    cbv beta. intros ms1 e1 (x1 & -> & B1 & L1 & F1).
    eapply returns_weaken;
      [apply IH; eapply built_valid; eauto|].
    cbv beta. intros ms2 e2 (x2 & -> & B2 & L2 & F2).
    exists (x1 ++ x2). rewrite app_assoc.
    split; [reflexivity|]. split; [eapply built_trans; eauto|].
    split; [rewrite length_app; simpl; lia|].
    apply Forall_app. auto.
Qed.

Lemma placed_refl e : placed e e [].
Proof.
  unfold placed. simpl. split; [apply calm_refl|].
  split; [reflexivity|]. split; [lia|]. split; [now rewrite app_nil_r|].
  auto.
Qed.

Lemma placed_trans e e1 e2 bs1 bs2 :
  placed e e1 bs1 -> placed e1 e2 bs2 -> placed e e2 (bs1 ++ bs2).
Proof.
  intros (C1 & I1 & N1 & W1 & K1 & X1 & S1) (C2 & I2 & N2 & W2 & K2 & X2 & S2).
  unfold placed. split; [eauto with eff|].
  rewrite map_app, length_app.
  split; [|split; [|split; [|split; [|split]]]].
  - rewrite seq_app, <- N1, <- I2, <- I1. reflexivity.
  - lia.
  - rewrite W2, W1. now rewrite app_assoc.
  - congruence.
  - congruence.
  - intros h Hh. rewrite S2 by lia. now apply S1.
Qed.

Lemma placeBody_placed count radius i e :
  validRandom e -> (0 <= radius)%Q -> (radius <= 45)%Q ->
  returns (placeBody fl cfg count radius i) e
    (fun b e' => placed e e' [b] /\
                 (bounded fl -> nearSpawn cfg (store e' (body b)))).
Proof.
  intros V R0 R1. eexists _, _. split; [reflexivity|]. simpl.
  split.
  - unfold placed. simpl. split; [split; reflexivity|].
    split; [reflexivity|]. split; [lia|].
    split; [reflexivity|]. split; [reflexivity|]. split; [reflexivity|].
    intros h Hh. unfold write.
    destruct (Nat.eqb_spec h (nextBody e)); [lia | reflexivity].
  - intros B. unfold write. rewrite Nat.eqb_refl.
    destruct (V (drawn e)) as [A0 A1].
    destruct (V (S (drawn e))) as [B0 B1].
    set (angle := (inject_Z (Z.of_nat i) / inject_Z (Z.of_nat count)
                   * JS.Math_PI fl * 2)%Q).
    destruct (B angle) as [[C0 C1] [S0 S1]].
    unfold nearSpawn, circle. simpl.
    split; [split; nra|]. split; [split; nra|]. split; reflexivity.
Qed.

Lemma placeBodies_placed count radius l :
  (0 <= radius)%Q -> (radius <= 45)%Q ->
  forall e,
    validRandom e ->
    returns (mapM (placeBody fl cfg count radius) l) e
      (fun bs e' =>
         placed e e' bs /\ List.length bs = List.length l /\
         (bounded fl ->
          Forall (fun b => nearSpawn cfg (store e' (body b))) bs)).
Proof.
  intros R0 R1. induction l as [|i l IH]; intros e V; cbn [mapM].
  - apply returns_ret. split; [apply placed_refl|]. split; [reflexivity|].
    constructor.
  - apply returns_bind.
    eapply returns_weaken; [apply (placeBody_placed count radius i e V R0 R1)|].
    cbv beta. intros b e1 (P1 & N1).
    assert (V1 : validRandom e1).
    { destruct P1 as [C1 _]. eauto with eff. }
    apply returns_bind.
    eapply returns_weaken; [apply (IH e1 V1)|].
    cbv beta. intros bs e2 (P2 & L2 & N2).
    apply returns_ret.
    split; [apply (placed_trans e e1 e2 [b] bs P1 P2)|].
    split; [simpl; now rewrite L2|].
    intros B. constructor; [|now apply N2].
    destruct P1 as (_ & I1 & M1 & _).
    destruct P2 as (_ & _ & _ & _ & _ & _ & S2).
    simpl in I1, M1. injection I1 as I1.
    rewrite S2 by lia. now apply N1.
Qed.

End Built.

(** *** The degrees around the ring *)

Lemma incident_cons m ms b : incident (m :: ms) b = ends m b + incident ms b.
Proof. reflexivity. Qed.

Lemma incident_nth ms :
  forall k m b, nth_error ms k = Some m -> ends m b <= incident ms b.
Proof.
  induction ms as [|m0 ms IH]; intros [|k] m b H; try discriminate;
    rewrite incident_cons.
  - injection H as ->. lia.
  - specialize (IH k m b H). lia.
Qed.

Lemma incident_two ms :
  forall i k mi mk b,
    i <> k -> nth_error ms i = Some mi -> nth_error ms k = Some mk ->
    ends mi b + ends mk b <= incident ms b.
Proof.
  induction ms as [|m0 ms IH]; intros [|i] [|k] mi mk b N Hi Hk;
    try discriminate; try contradiction; rewrite incident_cons.
  - injection Hi as ->. pose proof (incident_nth ms k mk b Hk). lia.
  - injection Hk as ->. pose proof (incident_nth ms i mi b Hi). lia.
  - assert (N' : i <> k) by lia.
    pose proof (IH i k mi mk b N' Hi Hk). lia.
Qed.

Lemma touches_self b : touches (Some (body b)) b = 1.
Proof. unfold touches. now rewrite Nat.eqb_refl. Qed.

Lemma ring_degree bs ring b :
  2 <= List.length bs ->
  Forall2 (linkAt bs) (seq 0 (List.length bs)) ring ->
  In b bs -> 2 <= incident ring b.
Proof.
  intros Hn F Hb.
  apply In_nth_error in Hb. destruct Hb as [j Ej].
  assert (Hj : j < List.length bs) by (apply nth_error_Some; congruence).
  set (k := match j with O => List.length bs - 1 | S j' => j' end).
  assert (Hk : k < List.length bs) by (unfold k; destruct j; lia).
  assert (Next : (k + 1) mod List.length bs = j).
  { unfold k. destruct j as [|j'].
    - replace (List.length bs - 1 + 1) with (List.length bs) by lia.
      apply Nat.Div0.mod_same.
    - rewrite Nat.mod_small; lia. }
  assert (Njk : j <> k) by (unfold k; destruct j; lia).
  destruct (Forall2_seq_nth _ _ _ _ F j Hj)
    as (mj & Nj & aj & bj & Ea & _ & Aj & _).
  destruct (Forall2_seq_nth _ _ _ _ F k Hk)
    as (mk & Nk & ak & bk & _ & Eb & _ & Bk).
  change (0 + j) with j in Ea. change (0 + k) with k in Eb.
  rewrite Next in Eb.
  assert (aj = b) by congruence. assert (bk = b) by congruence. subst aj bk.
  pose proof (incident_two ring j k mj mk b Njk Nj Nk) as H.
  unfold ends in H. rewrite Aj, Bk, !touches_self in H. lia.
Qed.

Lemma ring_linked bs ring :
  2 <= List.length bs ->
  NoDup (map body bs) ->
  Forall2 (linkAt bs) (seq 0 (List.length bs)) ring ->
  Forall (linked bs) ring.
Proof.
  intros Hn N F. apply Forall_forall. intros m Hm.
  apply In_nth_error in Hm. destruct Hm as [i Ei].
  assert (Hi : i < List.length bs).
  { rewrite <- (length_seq (List.length bs) 0), (Forall2_length F).
    apply nth_error_Some. congruence. }
  destruct (Forall2_seq_nth _ _ _ _ F i Hi)
    as (m' & Ni & a & b & Ea & Eb & A & B).
  assert (m' = m) by congruence. subst m'.
  change (0 + i) with i in Ea, Eb.
  exists a, b.
  split; [eapply nth_error_In; eauto|].
  split; [eapply nth_error_In; eauto|].
  split; [|auto].
  intros E.
  assert (Hn' : (i + 1) mod List.length bs < List.length bs)
    by (apply Nat.mod_upper_bound; lia).
  assert (D : i = (i + 1) mod List.length bs).
  { apply (proj1 (NoDup_nth_error (map body bs)) N).
    - now rewrite length_map.
    - rewrite !nth_error_map, Ea, Eb. simpl. now rewrite E. }
  destruct (Nat.eq_dec (i + 1) (List.length bs)) as [Z|Z].
  - rewrite Z, Nat.Div0.mod_same in D. lia.
  - rewrite Nat.mod_small in D; lia.
Qed.

(** The repair has nothing to do when every body has two muscles. *)
Lemma repair_nothing fl bs ms e :
  (forall b, In b bs -> 2 <= incident ms b) ->
  ensureMinimumConnections fl bs ms e = Some (ms, e).
Proof.
  intros D. unfold ensureMinimumConnections.
  set (s := {| connectionMap := initialConnections bs ms; repaired := ms |}).
  assert (H : forall l, incl l bs ->
                        foldM (fun s b => connectWhile fl bs b s) l s e
                        = Some (s, e)).
  { induction l as [|b l IH]; intros Hl; cbn [foldM]; [reflexivity|].
    unfold bind. rewrite connectWhile_body.
    assert (Hb : In b bs) by (apply Hl; now left).
    assert (E : (degree (connectionMap s) b <? 2) = false).
    { apply Nat.ltb_ge. simpl. rewrite (initialConnections_degree _ _ _ Hb).
      now apply D. }
    rewrite E. apply IH. intros x Hx. apply Hl. now right. }
  unfold bind. rewrite (H bs (incl_refl bs)). reflexivity.
Qed.

(** What [createRandomCreature] leaves behind: the bodies, then the ring,
    then the cross connections; the repair adds nothing. *)
Lemma createRandomCreature_built fl cfg e :
  validRandom e ->
  returns (createRandomCreature fl cfg) e
    (fun c e' =>
       exists e1 e2 ring extra,
         placed e e1 (bodies c) /\
         built e1 e2 (muscles c) /\
         (store e' = store e2 /\
          worldBodies e' = worldBodies e2 /\
          worldConstraints e' = worldConstraints e2) /\
         4 <= List.length (bodies c) <= 11 /\
         maxX c = 0%Q /\
         (bounded fl ->
          Forall (fun b => nearSpawn cfg (store e' (body b))) (bodies c)) /\
         muscles c = ring ++ extra /\
         Forall2 (linkAt (bodies c)) (seq 0 (List.length (bodies c))) ring /\
         List.length extra <= List.length (bodies c) / 2 + 1 /\
         Forall (linked (bodies c)) extra).
Proof.
  intros V. unfold createRandomCreature.
  apply returns_bind.
  eapply returns_weaken; [apply (Math_random_built _ V)|].
  intros r e1 (R0 & R1 & B1).
  pose proof (floor_scaled r 8 R0 R1 eq_refl) as Hc.
  change (inject_Z 8) with 8%Q in Hc.
  set (count := Z.to_nat (4 + JS.Math_floor (r * 8))).
  assert (Hcount : 4 <= count <= 11) by (unfold count; lia).
  clearbody count.
  assert (V1 : validRandom e1) by (eapply built_valid; eauto).
  apply returns_bind.
  eapply returns_weaken; [apply (Math_random_built _ V1)|].
  cbv beta. intros rr e2 (Q0 & Q1 & B2).
  assert (V2 : validRandom e2) by (eapply built_valid; eauto).
  pose proof (built_trans _ _ _ _ _ B1 B2) as B02. simpl in B02.
  apply returns_bind.
  eapply returns_weaken.
  { apply (placeBodies_placed fl cfg count (15 + rr * 30)%Q (seq 0 count));
      [lra | lra | exact V2]. }
  cbv beta. intros bs e3 (P3 & Hlen & Near). rewrite length_seq in Hlen.
  assert (V3 : validRandom e3).
  { destruct P3 as [C3 _]. eauto with eff. }
  rewrite <- Hlen in *. clear Hlen count.
  apply returns_bind.
  eapply returns_weaken.
  { apply (ring_built fl bs (seq 0 (List.length bs))).
    intros i Hi. apply in_seq in Hi. lia. }
  cbv beta. intros ring e4 (B4 & Fring).
  assert (V4 : validRandom e4) by (eapply built_valid; eauto).
  apply returns_bind.
  eapply returns_weaken; [apply (Math_random_built _ V4)|].
  cbv beta. intros rc e5 (C0 & C1 & B5).
  assert (V5 : validRandom e5) by (eapply built_valid; eauto).
  pose proof (floor_scaled rc 2 C0 C1 eq_refl) as Hx.
  change (inject_Z 2) with 2%Q in Hx.
  apply returns_bind.
  eapply returns_weaken.
  { apply (cross_built fl bs
             (seq 0 (List.length bs / 2
                     + Z.to_nat (JS.Math_floor (rc * 2))))); [lia | exact V5]. }
  cbv beta. intros ms e6 (extra & -> & B6 & Lx & Fx).
  rewrite length_seq in Lx.
  apply returns_bind.
  exists (ring ++ extra), e6. split.
  { apply repair_nothing. intros b Hb. rewrite incident_app.
    assert (H2 : 2 <= List.length bs) by lia.
    pose proof (ring_degree bs ring b H2 Fring Hb). lia. }
  eexists _, _. split; [reflexivity|]. simpl.
  exists e3, e6, ring, extra.
  assert (B36 : built e3 e6 (ring ++ extra)).
  { pose proof (built_trans _ _ _ _ _ B4 B5) as B45.
    rewrite app_nil_r in B45.
    apply (built_trans _ _ _ _ _ B45 B6). }
  split.
  { assert (C03 : calm e e3).
    { destruct B02 as [S _]. destruct P3 as [C _]. eauto with eff. }
    destruct P3 as (C3 & I3 & N3 & W3 & K3 & X3 & S3).
    destruct B02 as ([S0 S1 S2 S3' S4 S5] & _ & N0 & W0).
    simpl in N0, W0. rewrite app_nil_r in W0.
    unfold placed.
    split; [exact C03|].
    split; [congruence|]. split; [congruence|]. split; [congruence|].
    split; [lia|]. split; [congruence|].
    intros h Hh. rewrite S3 by lia. now rewrite S0. }
  split; [exact B36|].
  split; [repeat split|].
  split; [exact Hcount|].
  split; [reflexivity|].
  split.
  { intros B. destruct B36 as [S _].
    rewrite (steady_store _ _ S). now apply Near. }
  split; [reflexivity|]. split; [exact Fring|]. split; [|exact Fx].
  eapply Nat.le_trans; [exact Lx|].
  apply Nat.add_le_mono; [apply Nat.le_refl | lia].
Qed.

Lemma behind_the_line xs :
  Forall (fun v => (v <= - (45))%Q) xs -> JS.Math_max_from 0 xs = 0%Q.
Proof.
  unfold JS.Math_max_from. induction 1 as [|v xs Hv F IH]; [reflexivity|].
  simpl. rewrite WorldFacts.Qmax_lt.
  destruct (JS.lt 0 v) eqn:L; [|exact IH].
  apply WorldFacts.lt_spec in L. lra.
Qed.

(** X18. Whatever the draws, with a cosine and a sine inside [-1, 1], a
    new creature gets bodies of its own, added to the engine world last
    and in order, and no body that existed is touched; each of its bodies
    is at rest within 55 of [(-100, groundY - 100)] on each axis, so behind
    [x = 0] and above the ground, and an update of the creature made before
    the engine moves anything leaves its [maxX] at 0. *)
Theorem new_creature_spawns_behind_the_line :
  forall fl cfg e,
    validRandom e -> bounded fl ->
    exists c e',
      createRandomCreature fl cfg e = Some (c, e') /\
      map body (bodies c) = seq (nextBody e) (List.length (bodies c)) /\
      worldBodies e' = worldBodies e ++ map body (bodies c) /\
      (forall h, h < nextBody e -> store e' h = store e h) /\
      (forall b, In b (bodies c) -> nearSpawn cfg (store e' (body b))) /\
      forall delta,
        maxX (Creature_update (store e') delta (groundY cfg) c) = 0%Q.
Proof.
  intros fl cfg e V B.
  destruct (createRandomCreature_built fl cfg e V)
    as (c & e' & E & e1 & e2 & ring & extra & P & Bu & (Es & Ew & _) & _ & Mx
        & Near & _).
  specialize (Near B).
  destruct P as (_ & I & N & W & _ & _ & S).
  destruct Bu as ([S0 S1 _ _ _ S5] & _).
  exists c, e'. split; [exact E|].
  split; [exact I|]. split; [congruence|].
  split; [intros h Hh; rewrite Es, S0; now apply S|].
  split; [apply Forall_forall; exact Near|].
  intros delta. simpl. rewrite Mx. apply behind_the_line.
  unfold xs_of. apply Forall_map.
  apply Forall_forall. intros b Hb.
  destruct (proj1 (Forall_forall _ _) Near b Hb) as [[_ H] _]. exact H.
Qed.

Lemma flatMath_bounded : bounded flatMath.
Proof. intros a. simpl. repeat split; lra. Qed.

Lemma new_creature_spawns_behind_the_line_witness :
  validRandom sampleEnv /\ bounded flatMath /\
  exists c e',
    createRandomCreature flatMath sampleConfig sampleEnv = Some (c, e') /\
    maxX (Creature_update (store e') 16 (groundY sampleConfig) c) = 0%Q.
Proof.
  split; [exact Samples.sampleEnv_valid|]. split; [exact flatMath_bounded|].
  destruct (new_creature_spawns_behind_the_line flatMath sampleConfig
              sampleEnv Samples.sampleEnv_valid flatMath_bounded)
    as (c & e' & E & _ & _ & _ & _ & M).
  exists c, e'. split; [exact E | exact (M 16%Q)].
Defined.

(** X19. Whatever the draws, the bodies of a new creature are distinct,
    each of them is an end of at least two of its muscles, every muscle
    joins two different bodies of the creature, and for [n] bodies there are
    between [n] and [n + n / 2 + 1] muscles: the ring already gives every
    body two muscles, and the repair of the connections, run again on the
    result, adds nothing. *)
Theorem new_creature_is_connected :
  forall fl cfg e,
    validRandom e ->
    exists c e',
      createRandomCreature fl cfg e = Some (c, e') /\
      NoDup (map body (bodies c)) /\
      (forall b, In b (bodies c) -> 2 <= incident (muscles c) b) /\
      (forall m, In m (muscles c) -> linked (bodies c) m) /\
      List.length (bodies c) <= List.length (muscles c) /\
      List.length (muscles c)
      <= List.length (bodies c) + (List.length (bodies c) / 2 + 1) /\
      ensureMinimumConnections fl (bodies c) (muscles c) e'
      = Some (muscles c, e').
Proof.
  intros fl cfg e V.
  destruct (createRandomCreature_built fl cfg e V)
    as (c & e' & E & e1 & e2 & ring & extra & P & _ & _ & Hn & _ & _ & Em
        & Fring & Lx & Fx).
  destruct P as (_ & I & _).
  assert (N : NoDup (map body (bodies c))) by (rewrite I; apply seq_NoDup).
  assert (H2 : 2 <= List.length (bodies c)) by lia.
  assert (D : forall b, In b (bodies c) -> 2 <= incident (muscles c) b).
  { intros b Hb. rewrite Em, incident_app.
    pose proof (ring_degree (bodies c) ring b H2 Fring Hb). lia. }
  assert (Lr : List.length ring = List.length (bodies c)).
  { rewrite <- (Forall2_length Fring). apply length_seq. }
  exists c, e'. split; [exact E|]. split; [exact N|]. split; [exact D|].
  split.
  { apply Forall_forall. rewrite Em. apply Forall_app.
    split; [now apply ring_linked | exact Fx]. }
  rewrite Em at 1 2. rewrite length_app, Lr.
  split; [lia|]. split; [lia|].
  now apply repair_nothing.
Qed.

Lemma new_creature_is_connected_witness :
  validRandom sampleEnv /\
  exists c e',
    createRandomCreature sampleMath sampleConfig sampleEnv = Some (c, e') /\
    forall b, In b (bodies c) -> 2 <= incident (muscles c) b.
Proof.
  split; [exact Samples.sampleEnv_valid|].
  destruct (new_creature_is_connected sampleMath sampleConfig sampleEnv
              Samples.sampleEnv_valid) as (c & e' & E & _ & D & _).
  exists c, e'. split; [exact E | exact D].
Defined.

(** *** Taking a creature out of the engine world *)

Lemma filter_all {A} (p : A -> bool) l :
  (forall v, In v l -> p v = true) -> filter p l = l.
Proof.
  induction l as [|a l IH]; simpl; intros H; [reflexivity|].
  rewrite (H a (or_introl eq_refl)). f_equal. apply IH.
  intros v Hv. apply H. now right.
Qed.

Lemma removeAll_fresh objs old :
  (forall o, In o old -> ~ In o objs) ->
  World.removeAll objs (old ++ objs) = old.
Proof.
  intros H. unfold World.removeAll. rewrite filter_app.
  assert (A : filter (fun o => negb (existsb (Nat.eqb o) objs)) old = old).
  { apply filter_all. intros o Ho. apply negb_true_iff.
    destruct (existsb (Nat.eqb o) objs) eqn:X; [|reflexivity].
    apply existsb_exists in X. destruct X as (o' & I & Eo).
    apply Nat.eqb_eq in Eo. subst o'. now destruct (H o Ho). }
  assert (B : filter (fun o => negb (existsb (Nat.eqb o) objs)) objs = []).
  { apply TrickleFacts.filter_none. intros o Ho. apply negb_false_iff.
    apply existsb_exists. exists o. split; [exact Ho | apply Nat.eqb_refl]. }
  rewrite A, B. apply app_nil_r.
Qed.

(** X20. [removeFromWorld] undoes what [createRandomCreature] added to the
    engine world: once the new creature is removed the world holds the
    bodies and the constraints it held before the creature was made, and no
    body has moved.  [MainWorld.removeCreature], for a creature the world
    has been given, removes from the engine what [removeFromWorld] does. *)
Theorem removeFromWorld_undoes_creation :
  forall fl cfg e,
    validRandom e ->
    Forall (fun h => h < nextBody e) (worldBodies e) ->
    Forall (fun k => k < nextConstraint e) (worldConstraints e) ->
    exists c e',
      createRandomCreature fl cfg e = Some (c, e') /\
      worldBodies (removeFromWorld c e') = worldBodies e /\
      worldConstraints (removeFromWorld c e') = worldConstraints e /\
      store (removeFromWorld c e') = store e' /\
      forall w,
        snd (World.removeCreature (id c) (World.addCreature c w) e')
        = removeFromWorld c e'.
Proof.
  intros fl cfg e V Fb Fc.
  destruct (createRandomCreature_built fl cfg e V)
    as (c & e' & E & e1 & e2 & ring & extra & P & Bu & (Es & Ew & Ec) & _).
  destruct P as (_ & I & N & W & K & X & _).
  destruct Bu as ([_ _ _ _ _ S5] & Ic & _ & Wc).
  exists c, e'. split; [exact E|].
  unfold removeFromWorld. simpl.
  split; [|split; [|split; [reflexivity|]]].
  - rewrite Ew, S5, W. apply removeAll_fresh.
    intros o Ho. rewrite I, in_seq.
    pose proof (proj1 (Forall_forall _ _) Fb o Ho) as Lo.
    cbv beta in Lo. lia.
  - rewrite Ec, Wc, X. apply removeAll_fresh.
    intros o Ho. rewrite Ic, in_seq, K.
    pose proof (proj1 (Forall_forall _ _) Fc o Ho) as Lo.
    cbv beta in Lo. lia.
  - intros w. unfold World.removeCreature, World.addCreature. simpl.
    rewrite WorldFacts.get_set, Qeq_bool_refl. reflexivity.
Qed.

Lemma removeFromWorld_undoes_creation_witness :
  validRandom sampleEnv /\
  Forall (fun h => h < nextBody sampleEnv) (worldBodies sampleEnv) /\
  Forall (fun k => k < nextConstraint sampleEnv) (worldConstraints sampleEnv) /\
  exists c e',
    createRandomCreature sampleMath sampleConfig sampleEnv = Some (c, e') /\
    worldBodies (removeFromWorld c e') = [] /\
    worldConstraints (removeFromWorld c e') = [].
Proof.
  split; [exact Samples.sampleEnv_valid|].
  split; [constructor|]. split; [constructor|].
  destruct (removeFromWorld_undoes_creation sampleMath sampleConfig sampleEnv
              Samples.sampleEnv_valid (Forall_nil _) (Forall_nil _))
    as (c & e' & E & A & B & _).
  exists c, e'. split; [exact E|]. split; [exact A | exact B].
Defined.

End SpawnFacts.

(** ** Properties of [Creature.clone] *)

Module CloneFacts.
Import Matter Creature Eff Generator GeneratorSpec SampleData MoreSpec.
Import CreatureOps GeneratorFacts.

#[local] Hint Resolve steady_refl steady_trans calm_refl calm_trans
  steady_calm calm_valid steady_valid : eff.

Section Bodies.
Variables creatureCenterX creatureCenterY centerX centerY scale : Q.

Lemma cloneBody_placed b e :
  returns (cloneBody creatureCenterX creatureCenterY centerX centerY scale b) e
    (fun b' e' =>
       placed e e' [b'] /\
       clonedAt creatureCenterX creatureCenterY centerX centerY scale
                (store e (body b)) (store e' (body b'))).
Proof.
  unfold returns.
  cbv [cloneBody bind gets new_PhysicsBody addCircle ret].
  eexists _, _. split; [reflexivity|]. simpl.
  split.
  - unfold placed. simpl. split; [split; reflexivity|].
    split; [reflexivity|]. split; [lia|].
    split; [reflexivity|]. split; [reflexivity|]. split; [reflexivity|].
    intros h Hh. unfold write.
    destruct (Nat.eqb_spec h (nextBody e)); [lia | reflexivity].
  - unfold clonedAt, write. rewrite !Nat.eqb_refl. simpl.
    repeat split.
Qed.

Lemma cloneBodies_placed st0 l :
  forall e,
    returns
      (mapM (cloneBody creatureCenterX creatureCenterY centerX centerY scale)
            l) e
      (fun cb e' =>
         placed e e' cb /\ List.length cb = List.length l /\
         ((forall b, In b l ->
                     body b < nextBody e /\ store e (body b) = st0 (body b)) ->
          Forall2 (fun b b' =>
                     clonedAt creatureCenterX creatureCenterY centerX centerY
                              scale (st0 (body b)) (store e' (body b')))
                  l cb)).
Proof.
  induction l as [|b l IH]; intros e; cbn [mapM].
  - apply returns_ret. split; [apply SpawnFacts.placed_refl|].
    split; [reflexivity | constructor].
  - apply returns_bind.
    eapply returns_weaken; [apply cloneBody_placed|].
    cbv beta. intros b' e1 (P1 & C1).
    apply returns_bind.
    eapply returns_weaken; [apply (IH e1)|].
    cbv beta. intros cb e2 (P2 & L2 & F2).
    apply returns_ret.
    split; [apply (SpawnFacts.placed_trans e e1 e2 [b'] cb P1 P2)|].
    split; [simpl; now rewrite L2|].
    intros H.
    destruct P1 as (_ & I1 & N1 & _ & _ & _ & S1).
    destruct P2 as (_ & _ & _ & _ & _ & _ & S2).
    simpl in I1, N1. injection I1 as I1.
    constructor.
    + destruct (H b (or_introl eq_refl)) as [_ E]. rewrite <- E.
      rewrite S2 by lia. exact C1.
    + apply F2. intros d Hd.
      destruct (H d (or_intror Hd)) as [L E].
      split; [lia|]. rewrite S1 by exact L. exact E.
Qed.

End Bodies.

(** *** The copies of the muscles *)

Lemma findIndex_some {A} (p : A -> bool) l a :
  In a l -> p a = true ->
  exists i a0, findIndex p l = Some i /\ nth_error l i = Some a0 /\
               p a0 = true.
Proof.
  induction l as [|a1 l IH]; intros []; intros Pa; simpl.
  - subst a1. rewrite Pa. exists 0, a. auto.
  - destruct (p a1) eqn:P1; [exists 0, a1; auto|].
    destruct (IH H Pa) as (i & a0 & -> & N & P0).
    exists (S i), a0. auto.
Qed.

Lemma indexOfBody_some bs a :
  In a bs ->
  exists i a0, indexOfBody bs (Some (body a)) = Some i /\
               nth_error bs i = Some a0 /\ body a0 = body a.
Proof.
  intros Ha. unfold indexOfBody.
  destruct (findIndex_some (fun b => Nat.eqb (body b) (body a)) bs a Ha
              (Nat.eqb_refl _)) as (i & a0 & E & N & P).
  apply Nat.eqb_eq in P. eauto.
Qed.

Lemma cloneMuscle_quiet bs cb acc m e :
  returns (cloneMuscle bs cb acc m) e
    (fun cm e' => exists new, cm = acc ++ new /\ built e e' new /\
                              List.length new <= 1).
Proof.
  assert (Q : returns (ret acc) e
                (fun cm e' => exists new, cm = acc ++ new /\ built e e' new /\
                                          List.length new <= 1)).
  { apply returns_ret. exists []. rewrite app_nil_r.
    split; [reflexivity|]. split; [apply SpawnFacts.built_refl|]. simpl; lia. }
  unfold cloneMuscle.
  destruct (indexOfBody bs (bodyA (constraint m))) as [i|]; [|exact Q].
  destruct (indexOfBody bs (bodyB (constraint m))) as [j|]; [|exact Q].
  destruct (nth_error cb i) as [a'|]; [|exact Q].
  destruct (nth_error cb j) as [b'|]; [|exact Q].
  unfold returns. cbv [bind Math_random new_Muscle addConstraint ret].
  eexists _, _. split; [reflexivity|].
  eexists [_]. split; [reflexivity|]. split; [|simpl; lia].
  unfold built. simpl.
  split; [split; reflexivity|].
  split; [reflexivity|]. split; [lia | reflexivity].
Qed.

Lemma cloneMuscle_built bs cb acc m e :
  validRandom e -> List.length cb = List.length bs -> linked bs m ->
  returns (cloneMuscle bs cb acc m) e
    (fun cm e' => exists m', cm = acc ++ [m'] /\ built e e' [m'] /\
                             clonedMuscle bs cb m m').
Proof.
  intros V L (a & b & Ia & Ib & _ & EA & EB).
  unfold cloneMuscle. rewrite EA, EB.
  destruct (indexOfBody_some bs a Ia) as (i & a0 & -> & Na & Ha).
  destruct (indexOfBody_some bs b Ib) as (j & b0 & -> & Nb & Hb).
  destruct (nth_error cb i) as [a'|] eqn:Ea';
    [|apply nth_error_None in Ea';
      assert (i < List.length bs) by (apply nth_error_Some; congruence); lia].
  destruct (nth_error cb j) as [b'|] eqn:Eb';
    [|apply nth_error_None in Eb';
      assert (j < List.length bs) by (apply nth_error_Some; congruence); lia].
  destruct (V (drawn e)) as [P0 P1].
  destruct (V (S (drawn e))) as [X0 X1].
  unfold returns. cbv [bind Math_random new_Muscle addConstraint ret].
  eexists _, _. split; [reflexivity|].
  eexists. split; [reflexivity|]. split.
  - unfold built. simpl.
    split; [split; reflexivity|].
    split; [reflexivity|]. split; [lia | reflexivity].
  - unfold clonedMuscle. simpl.
    split.
    { exists i, j, a0, b0, a', b'. rewrite Ha, Hb. auto 10. }
    split; [auto|].
    split.
    { eexists. split; [|reflexivity]. split; lra. }
    split; [|auto].
    eexists. split; [|reflexivity]. split; lra.
Qed.

Lemma cloneMuscles_quiet bs cb l :
  forall acc e,
    returns (foldM (cloneMuscle bs cb) l acc) e
      (fun cm e' => exists new, cm = acc ++ new /\ built e e' new /\
                                List.length new <= List.length l).
Proof.
  induction l as [|m l IH]; intros acc e; cbn [foldM].
  - apply returns_ret. exists []. rewrite app_nil_r.
    split; [reflexivity|]. split; [apply SpawnFacts.built_refl|]. simpl; lia.
  - apply returns_bind.
    eapply returns_weaken; [apply cloneMuscle_quiet|].
    cbv beta. intros cm1 e1 (n1 & -> & B1 & L1).
    eapply returns_weaken; [apply IH|].
    cbv beta. intros cm2 e2 (n2 & -> & B2 & L2).
    exists (n1 ++ n2). rewrite app_assoc.
    split; [reflexivity|].
    split; [eapply SpawnFacts.built_trans; eauto|].
    rewrite length_app. simpl. lia.
Qed.

Lemma cloneMuscles_built bs cb l :
  List.length cb = List.length bs ->
  Forall (linked bs) l ->
  forall acc e,
    validRandom e ->
    returns (foldM (cloneMuscle bs cb) l acc) e
      (fun cm e' => exists new, cm = acc ++ new /\ built e e' new /\
                                Forall2 (clonedMuscle bs cb) l new).
Proof.
  intros L. induction 1 as [|m l Hm F IH]; intros acc e V; cbn [foldM].
  - apply returns_ret. exists []. rewrite app_nil_r.
    split; [reflexivity|]. split; [apply SpawnFacts.built_refl|]. constructor.
  - apply returns_bind.
    eapply returns_weaken; [apply (cloneMuscle_built bs cb acc m e V L Hm)|].
    cbv beta. intros cm1 e1 (m' & -> & B1 & C1).
    eapply returns_weaken;
      [apply IH; eapply SpawnFacts.built_valid; eauto|].
    cbv beta. intros cm2 e2 (n2 & -> & B2 & F2).
    exists (m' :: n2). rewrite <- app_assoc.
    split; [reflexivity|].
    split; [apply (SpawnFacts.built_trans _ _ _ [m'] n2 B1 B2)|].
    constructor; assumption.
Qed.

(** X21. [clone], on a creature whose bodies exist, returns one new body
    per body, added to the engine world in order, and writes no body that
    existed.  The copies keep the layout of the originals: there is one
    point such that each copy is at rest at [(centerX, centerY)] plus the
    offset of its original from that point, times [scale].  It never
    returns more muscles than the creature has. *)
Theorem clone_copies_the_bodies :
  forall c centerX centerY scale e,
    Forall (fun b => body b < nextBody e) (bodies c) ->
    exists cl e',
      clone c centerX centerY scale e = Some (cl, e') /\
      map body (clonedBodies cl)
      = seq (nextBody e) (List.length (bodies c)) /\
      worldBodies e' = worldBodies e ++ map body (clonedBodies cl) /\
      (forall h, h < nextBody e -> store e' h = store e h) /\
      (exists originX originY,
          Forall2 (fun b b' =>
                     clonedAt originX originY centerX centerY scale
                              (store e (body b)) (store e' (body b')))
                  (bodies c) (clonedBodies cl)) /\
      List.length (clonedMuscles cl) <= List.length (muscles c).
Proof.
  intros c centerX centerY scale e Old.
  unfold clone.
  destruct (cloneBodies_placed (centre x (store e) (bodies c))
              (centre y (store e) (bodies c)) centerX centerY scale
              (store e) (bodies c) e) as (cb & e1 & E1 & P1 & L1 & F1).
  destruct (cloneMuscles_quiet (bodies c) cb (muscles c) [] e1)
    as (cm & e2 & E2 & new & -> & B2 & L2).
  exists {| clonedBodies := cb; clonedMuscles := new |}, e2.
  split.
  { unfold bind, gets. cbv beta iota zeta. rewrite E1, E2. reflexivity. }
  simpl.
  assert (F : Forall2 (fun b b' =>
                         clonedAt (centre x (store e) (bodies c))
                                  (centre y (store e) (bodies c))
                                  centerX centerY scale
                                  (store e (body b)) (store e1 (body b')))
                      (bodies c) cb).
  { apply F1. intros b Hb. split; [|reflexivity].
    apply (proj1 (Forall_forall _ _) Old b Hb). }
  destruct P1 as (_ & I1 & _ & W1 & _ & _ & S1).
  destruct B2 as ([S20 _ _ _ _ S25] & _).
  rewrite S20, S25.
  split; [now rewrite I1, L1|]. split; [exact W1|]. split; [exact S1|].
  split; [|exact L2].
  exists (centre x (store e) (bodies c)), (centre y (store e) (bodies c)).
  exact F.
Qed.

Lemma clone_copies_the_bodies_witness :
  Forall (fun b => body b < nextBody settledEnv) (bodies biped) /\
  exists cl e',
    clone biped 400 300 2 settledEnv = Some (cl, e') /\
    map body (clonedBodies cl) = [2; 3] /\
    worldBodies e' = [0; 1] ++ map body (clonedBodies cl).
Proof.
  assert (O : Forall (fun b => body b < nextBody settledEnv) (bodies biped))
    by (repeat constructor).
  split; [exact O|].
  destruct (clone_copies_the_bodies biped 400%Q 300%Q 2%Q settledEnv O)
    as (cl & e' & E & I & W & _).
  exists cl, e'. split; [exact E|]. split; [exact I | exact W].
Defined.

(** X22. With draws in [0, 1), [clone] of a creature whose muscles join
    bodies of the creature returns one muscle per muscle, in order, its
    constraint added to the engine world: the copy joins the copies of the
    two bodies, keeps the stiffness and the activation type, starts
    inactive with a timer of 0, has for period the original one (1000 when
    absent) times a factor from 0.95 to 1.05, and for extension factor the
    original one (1.2 when absent) times a factor from 0.98 to 1.02, the
    ends included.  Its rest length, and the length of its constraint, is
    the rest length of the original, whatever [scale]. *)
Theorem clone_copies_the_muscles :
  forall c centerX centerY scale e,
    validRandom e ->
    Forall (linked (bodies c)) (muscles c) ->
    exists cl e',
      clone c centerX centerY scale e = Some (cl, e') /\
      Forall2 (clonedMuscle (bodies c) (clonedBodies cl))
              (muscles c) (clonedMuscles cl) /\
      map (fun m => cid (constraint m)) (clonedMuscles cl)
      = seq (nextConstraint e) (List.length (muscles c)) /\
      worldConstraints e'
      = worldConstraints e
        ++ map (fun m => cid (constraint m)) (clonedMuscles cl).
Proof.
  intros c centerX centerY scale e V Li.
  unfold clone.
  destruct (cloneBodies_placed (centre x (store e) (bodies c))
              (centre y (store e) (bodies c)) centerX centerY scale
              (store e) (bodies c) e) as (cb & e1 & E1 & P1 & L1 & _).
  assert (V1 : validRandom e1).
  { destruct P1 as [C1 _]. eauto with eff. }
  destruct (cloneMuscles_built (bodies c) cb (muscles c) L1 Li [] e1 V1)
    as (cm & e2 & E2 & new & -> & B2 & F2).
  exists {| clonedBodies := cb; clonedMuscles := new |}, e2.
  split.
  { unfold bind, gets. cbv beta iota zeta. rewrite E1, E2. reflexivity. }
  simpl. split; [exact F2|].
  destruct P1 as (_ & _ & _ & _ & K1 & X1 & _).
  destruct B2 as (_ & I2 & _ & W2).
  rewrite <- (Forall2_length F2), K1 in I2. rewrite W2, X1.
  split; [exact I2 | reflexivity].
Qed.

Lemma clone_copies_the_muscles_witness :
  validRandom settledEnv /\
  Forall (linked (bodies biped)) (muscles biped) /\
  exists cl e',
    clone biped 400 300 2 settledEnv = Some (cl, e') /\
    map (fun m => cid (constraint m)) (clonedMuscles cl) = [1] /\
    map (fun m => length (constraint m)) (clonedMuscles cl) = [30%Q].
Proof.
  assert (V : validRandom settledEnv) by exact Samples.sampleEnv_valid.
  assert (L : Forall (linked (bodies biped)) (muscles biped)).
  { constructor; [|constructor].
    exists {| body := 0 |}, {| body := 1 |}. simpl.
    split; [auto|]. split; [auto|]. split; [discriminate|]. auto. }
  split; [exact V|]. split; [exact L|].
  destruct (clone_copies_the_muscles biped 400%Q 300%Q 2%Q settledEnv V L)
    as (cl & e' & E & F & I & _).
  exists cl, e'. split; [exact E|]. split; [exact I|].
  simpl in F. inversion F as [|m m' l l' C F' Em El]; subst.
  inversion F'; subst. simpl.
  destruct C as (_ & (_ & _ & _ & Len) & _). now rewrite Len.
Defined.

End CloneFacts.

(** ** After [cleanup] *)

Module CleanupFacts.
Import Matter Creature Eff Generator Controller GeneratorSpec ControllerSpec.
Import SampleData MoreSpec Queries.

Lemma cull_cleanup c e : snd (cull (cleanup c) e) = e.
Proof.
  unfold cull.
  destruct (generationSize <=? _); [|reflexivity].
  destruct (JS.reduce older _) as [oldest|]; reflexivity.
Qed.

(** X23. [cleanup()] empties the map of the world and nothing else: the
    controller keeps its live creatures and its timers.  A trickle step
    after it still returns, with the live count it would have had, one
    creature dropped when there were 50; but the world no longer knows the
    creature dropped, and every body and every constraint of the engine
    world is still there after the step. *)
Theorem trickle_after_cleanup_removes_nothing :
  forall fl cfg c e,
    wellFormed (c, e) ->
    getDisplayedCreatureIds (mainWorld (cleanup c)) = [] /\
    creatures (cleanup c) = creatures c /\
    exists c' e',
      trickleAddCreature fl cfg (cleanup c) e = Some (c', e') /\
      List.length (creatures c') = afterTrickle (List.length (creatures c)) /\
      incl (worldBodies e) (worldBodies e') /\
      incl (worldConstraints e) (worldConstraints e').
Proof.
  intros fl cfg c e W.
  split; [reflexivity|]. split; [reflexivity|].
  assert (W0 : wellFormed (cleanup c, e))
    by (apply (TrickleFacts.wellFormed_frame c e (cleanup c) e W);
        reflexivity).
  destruct (TrickleFacts.trickle_wellFormed fl cfg (cleanup c) e W0)
    as (c' & e' & E & _ & Len).
  exists c', e'. split; [exact E|]. split; [exact Len|].
  apply ControllerFacts.trickleAddCreature_inv in E.
  destruct E as (cr & E & _). rewrite cull_cleanup in E.
  destruct W as (V & _).
  destruct (SpawnFacts.createRandomCreature_built fl cfg e V)
    as (cr' & e'' & E' & e1 & e2 & ring & extra & P & Bu & (_ & Ew & Ec) & _).
  simpl in E'. rewrite E in E'. injection E' as <- <-.
  destruct P as (_ & _ & _ & W1 & _ & X1 & _).
  destruct Bu as ([_ _ _ _ _ S5] & _ & _ & Wc).
  split; intros o Ho.
  - rewrite Ew, S5, W1. apply in_or_app. now left.
  - rewrite Ec, Wc, X1. apply in_or_app. now left.
Qed.

Lemma trickle_after_cleanup_removes_nothing_witness :
  wellFormed (fresh 0, settledEnv) /\
  exists c' e',
    trickleAddCreature sampleMath sampleConfig (cleanup (fresh 0)) settledEnv
    = Some (c', e') /\
    incl [0; 1] (worldBodies e').
Proof.
  assert (W : wellFormed (fresh 0, settledEnv)).
  { split; [exact Samples.sampleEnv_valid|]. simpl.
    split; [constructor|]. split; [intros d []|].
    unfold generationSize. lia. }
  split; [exact W|].
  destruct (trickle_after_cleanup_removes_nothing sampleMath sampleConfig
              (fresh 0) settledEnv W) as (_ & _ & c' & e' & E & _ & I & _).
  exists c', e'. split; [exact E | exact I].
Defined.

End CleanupFacts.
